(** * urban-flow: signal authority, preemption manager, routing and roads

    A shallow embedding of the Python sources under [urban_flow/] and the
    properties of its specification that concern them.

    Conventions of the embedding:
    - a Python [int] is a [Z]; [%] on ints is floor-modulo, which is
      [Z.modulo]; a zero divisor raises [ZeroDivisionError];
    - a [dict] is a [gmap], a [set]/[frozenset] a [gset], a [list] a [list];
    - an exception is a constructor of [exn]; code that may raise returns a
      [result];
    - a Python [float] is the rational number the double stands for, and
      [/] on ints gives the double nearest to the quotient;
    - an in-place mutation is a function returning the mutated object; where
      one object may be reached under several keys, the objects live in a
      store and the keys hold references ([Shared]). *)

From Stdlib Require Import ZArith QArith Ascii Lqa.
From stdpp Require Import gmap strings list fin_maps fin_sets pretty sorting.

Local Open Scope Z_scope.

(** ** Exceptions and results *)

Inductive exn : Type :=
  | ValueError
  | ZeroDivisionError
  | IndexError
  | OverflowError.

Inductive result (A : Type) : Type :=
  | Ok (a : A)
  | Raise (e : exn).

Arguments Ok {A} a.
Arguments Raise {A} e.

Definition bind {A B : Type} (r : result A) (k : A → result B) : result B :=
  match r with
  | Ok a => k a
  | Raise e => Raise e
  end.

Notation "x ←! r ; k" := (bind r (λ x, k))
  (at level 20, r at level 100, k at level 200, right associativity,
   format "x  ←!  r ;  k").

Definition returns {A : Type} (r : result A) : Prop := ∃ a, r = Ok a.

(** ** core/types.py *)

Inductive Direction : Type := NORTH | SOUTH | EAST | WEST.

Inductive SignalState : Type := RED | YELLOW | GREEN.

Inductive VehicleType : Type := CAR | EMERGENCY.

#[global] Instance Direction_eq_dec : EqDecision Direction.
Proof. solve_decision. Defined.

#[global] Instance SignalState_eq_dec : EqDecision SignalState.
Proof. solve_decision. Defined.

#[global] Instance VehicleType_eq_dec : EqDecision VehicleType.
Proof. solve_decision. Defined.

Definition Direction_to_pos (d : Direction) : positive :=
  match d with
  | NORTH => 1 | SOUTH => 2 | EAST => 3 | WEST => 4
  end%positive.

Definition Direction_of_pos (p : positive) : option Direction :=
  match p with
  | 1 => Some NORTH | 2 => Some SOUTH | 3 => Some EAST | 4 => Some WEST
  | _ => None
  end%positive.

#[global] Program Instance Direction_countable : Countable Direction :=
  {| encode := Direction_to_pos; decode := Direction_of_pos |}.
Next Obligation. by intros []. Qed.

(** [for d in Direction] iterates in definition order. *)
Definition all_directions : list Direction := [NORTH; SOUTH; EAST; WEST].

Definition opposite (d : Direction) : Direction :=
  match d with
  | NORTH => SOUTH | SOUTH => NORTH | EAST => WEST | WEST => EAST
  end.

Definition axis (d : Direction) : string :=
  match d with
  | NORTH | SOUTH => "NS"
  | EAST | WEST => "EW"
  end.

Definition IntersectionId := string.
Definition RoadId := string.
Definition VehicleId := string.
Definition Tick := Z.

(** ** core/signal.py *)

Record SignalPhase : Type := mkSignalPhase {
  green_directions : gset Direction;
  duration : Z;
  state : SignalState;
}.

Record SignalPlan : Type := mkSignalPlan {
  phases : list SignalPhase;
}.

(** [sum(p.duration for p in self.phases)] *)
Definition cycle_length (plan : SignalPlan) : Z :=
  foldr Z.add 0 (duration <$> phases plan).

(** The [for] loop of [phase_at_tick]: [elapsed] is the running total before
    the phases still to visit; [None] when the loop falls through. *)
Fixpoint scan_phases (offset elapsed : Z) (ps : list SignalPhase)
    : option SignalPhase :=
  match ps with
  | [] => None
  | phase :: rest =>
      let elapsed := elapsed + duration phase in
      if bool_decide (offset < elapsed) then Some phase
      else scan_phases offset elapsed rest
  end.

(** [tick % cycle] on Python ints. *)
Definition py_mod (a b : Z) : result Z :=
  if bool_decide (b = 0) then Raise ZeroDivisionError else Ok (a `mod` b).

Definition phase_at_tick (plan : SignalPlan) (tick : Tick) : result SignalPhase :=
  match phases plan with
  | [] => Raise ValueError
  | first :: _ =>
      offset ←! py_mod tick (cycle_length plan);
      match scan_phases offset 0 (phases plan) with
      | Some phase => Ok phase
      | None => Ok (List.last (phases plan) first)
      end
  end.

Definition default_four_way (green_duration yellow_duration : Z) : SignalPlan :=
  mkSignalPlan
    [ mkSignalPhase {[NORTH; SOUTH]} green_duration GREEN;
      mkSignalPhase {[NORTH; SOUTH]} yellow_duration YELLOW;
      mkSignalPhase {[EAST; WEST]} green_duration GREEN;
      mkSignalPhase {[EAST; WEST]} yellow_duration YELLOW ].

(** The dataclass constructor of [SignalPlan]: there is no [__post_init__],
    every list of phases is accepted. *)
Definition SignalPlan_init (ps : list SignalPhase) : result SignalPlan :=
  Ok (mkSignalPlan ps).

(** ** core/intersection.py *)

Record Intersection : Type := mkIntersection {
  intersection_id : IntersectionId;
  position : Z * Z;
  incoming_roads : gmap Direction RoadId;
  outgoing_roads : gmap Direction RoadId;
  signal_states : gmap Direction SignalState;
}.

Definition set_signal (i : Intersection) (d : Direction) (s : SignalState)
    : Intersection :=
  {| intersection_id := intersection_id i;
     position := position i;
     incoming_roads := incoming_roads i;
     outgoing_roads := outgoing_roads i;
     signal_states := <[d := s]> (signal_states i) |}.

Definition set_all_red (i : Intersection) : Intersection :=
  foldl (λ acc d, set_signal acc d RED) i all_directions.

Definition is_green (i : Intersection) (d : Direction) : bool :=
  bool_decide (signal_states i !! d = Some GREEN).

(** [Intersection(intersection_id=..., position=...)] with the default empty
    dicts: [__post_init__] fills the signal map with RED. *)
Definition Intersection_init (iid : IntersectionId) (pos : Z * Z) : Intersection :=
  {| intersection_id := iid;
     position := pos;
     incoming_roads := ∅;
     outgoing_roads := ∅;
     signal_states := list_to_map ((λ d, (d, RED)) <$> all_directions) |}.

(** ** signals/fixed_time.py *)

Record FixedTimeController : Type := mkFixedTimeController {
  plan : SignalPlan;
  _preemption_active : bool;
  _preemption_direction : option Direction;
}.

Definition request_preemption (c : FixedTimeController) (d : Direction)
    : FixedTimeController :=
  {| plan := plan c;
     _preemption_active := true;
     _preemption_direction := Some d |}.

Definition release_preemption (c : FixedTimeController) : FixedTimeController :=
  {| plan := plan c;
     _preemption_active := false;
     _preemption_direction := None |}.

(** The loop [for d in phase.green_directions] runs over the elements of a
    frozenset. *)
Definition _apply_phase (i : Intersection) (phase : SignalPhase) : Intersection :=
  foldl (λ acc d, set_signal acc d (state phase))
        (set_all_red i) (elements (green_directions phase)).

Definition _apply_preemption (i : Intersection) (d : Direction)
    : SignalPhase * Intersection :=
  (mkSignalPhase {[d]} 0 GREEN, set_signal (set_all_red i) d GREEN).

Definition update (c : FixedTimeController) (i : Intersection) (tick : Tick)
    : result (SignalPhase * Intersection) :=
  match _preemption_active c, _preemption_direction c with
  | true, Some d => Ok (_apply_preemption i d)
  | _, _ =>
      phase ←! phase_at_tick (plan c) tick;
      Ok (phase, _apply_phase i phase)
  end.

(** A controller as the dataclass builds it from a plan alone. *)
Definition FixedTimeController_init (p : SignalPlan) : FixedTimeController :=
  {| plan := p; _preemption_active := false; _preemption_direction := None |}.

(** The directions an intersection shows GREEN or YELLOW. *)
Definition lit_directions (i : Intersection) : gset Direction :=
  list_to_set
    (filter (λ d, signal_states i !! d = Some GREEN
                  ∨ signal_states i !! d = Some YELLOW) all_directions).

(** The direction a controller is holding, if it is in preemption mode. *)
Definition preempting (c : FixedTimeController) : option Direction :=
  if _preemption_active c then _preemption_direction c else None.

(** Two intersections that differ at most in what their signals show. *)
Definition same_junction (i j : Intersection) : Prop :=
  intersection_id i = intersection_id j
  ∧ position i = position j
  ∧ incoming_roads i = incoming_roads j
  ∧ outgoing_roads i = outgoing_roads j.

(** ** core/vehicle.py *)

Record Vehicle : Type := mkVehicle {
  vehicle_id : VehicleId;
  origin : IntersectionId;
  destination : IntersectionId;
  vehicle_type : VehicleType;
  current_road : option RoadId;
  current_cell : Z;
  spawn_tick : Tick;
  arrived : bool;
  wait_ticks : Z;
}.

Definition is_emergency (v : Vehicle) : bool :=
  bool_decide (vehicle_type v = EMERGENCY).

(** [EmergencyVehicle(Vehicle)]: the inherited fields and the three of its
    own. *)
Record EmergencyVehicle : Type := mkEmergencyVehicle {
  as_vehicle : Vehicle;
  route : list IntersectionId;
  preemption_lookahead : Z;
  route_index : Z;
}.

(** [l[i]] on a Python list: a negative index counts from the end, an index
    out of range raises [IndexError]. *)
Definition py_getitem {A : Type} (l : list A) (i : Z) : result A :=
  let n := Z.of_nat (length l) in
  let j := if bool_decide (i < 0) then i + n else i in
  if bool_decide (0 ≤ j < n) then
    match l !! Z.to_nat j with
    | Some x => Ok x
    | None => Raise IndexError
    end
  else Raise IndexError.

Definition next_intersection (v : EmergencyVehicle)
    : result (option IntersectionId) :=
  if bool_decide (route_index v < Z.of_nat (length (route v))) then
    x ←! py_getitem (route v) (route_index v);
    Ok (Some x)
  else Ok None.

Definition advance_route (v : EmergencyVehicle) : EmergencyVehicle :=
  {| as_vehicle := as_vehicle v;
     route := route v;
     preemption_lookahead := preemption_lookahead v;
     route_index := route_index v + 1 |}.

(** [EmergencyVehicle(vehicle_id, origin, destination, route=route,
    spawn_tick=tick)], as the spawner builds it; the other fields take the
    dataclass defaults. *)
Definition EmergencyVehicle_init (vid : VehicleId) (o d : IntersectionId)
    (r : list IntersectionId) (t : Tick) : EmergencyVehicle :=
  {| as_vehicle := mkVehicle vid o d EMERGENCY None 0 t false 0;
     route := r;
     preemption_lookahead := 2;
     route_index := 0 |}.

(** ** core/road.py *)

Record Cell : Type := mkCell {
  index : Z;
  vehicle : option Vehicle;
}.

Definition is_empty (c : Cell) : bool :=
  match vehicle c with None => true | Some _ => false end.

Record Road : Type := mkRoad {
  road_id : RoadId;
  from_intersection : IntersectionId;
  to_intersection : IntersectionId;
  num_cells : Z;
  speed_limit : Z;
  cells : list Cell;
}.

(** [range(n)]: empty when [n <= 0]. *)
Definition py_range (n : Z) : list Z := Z.of_nat <$> seq 0 (Z.to_nat n).

Definition Road_post_init (r : Road) : Road :=
  match cells r with
  | [] =>
      {| road_id := road_id r;
         from_intersection := from_intersection r;
         to_intersection := to_intersection r;
         num_cells := num_cells r;
         speed_limit := speed_limit r;
         cells := (λ i, mkCell i None) <$> py_range (num_cells r) |}
  | _ :: _ => r
  end.

(** The dataclass constructor followed by [__post_init__]; nothing in either
    raises. *)
Definition Road_init (rid : RoadId) (src dst : IntersectionId)
    (n speed : Z) (cs : list Cell) : result Road :=
  Ok (Road_post_init (mkRoad rid src dst n speed cs)).

(** [sum(1 for c in self.cells if not c.is_empty)] *)
Definition occupied_cells (r : Road) : Z :=
  Z.of_nat (length (filter (λ c, is_empty c = false) (cells r))).

(** *** Division of ints

    [a / b] on Python ints is a float: the double nearest to the quotient,
    a tie going to the even mantissa. A finite double is written here as
    the rational number it stands for, [m * 2^e] with a mantissa of at most
    53 bits and [e >= -1074]; the two zeros are one number. *)

(** The integer nearest to [n / d], for [0 <= n] and [0 < d]; of two
    nearest integers, the even one. *)
Definition round_half_even (n d : Z) : Z :=
  let q := n / d in
  let r := n mod d in
  if 2 * r <? d then q
  else if d <? 2 * r then q + 1
  else if Z.even q then q else q + 1.

(** The integer [l] with [2^l <= n / d < 2^(l+1)], for [0 < n] and
    [0 < d]. *)
Definition floor_log2_quot (n d : Z) : Z :=
  let k := Z.log2 n - Z.log2 d in
  if (if 0 <=? k then d * 2 ^ k <=? n else d <=? n * 2 ^ (- k))
  then k else k - 1.

(** [m * 2^e] *)
Definition scale2 (m e : Z) : Q :=
  if 0 <=? e then inject_Z (m * 2 ^ e) else Qmake m (Z.to_pos (2 ^ (- e))).

(** The double nearest to [n / d], for [0 <= n] and [0 < d]: the quotient
    is rounded to a multiple of [2^e], where [e] leaves 53 bits to the
    mantissa and is at least the exponent of the subnormal numbers. [None]
    when rounding goes beyond the largest double. *)
Definition nearest_double (n d : Z) : option Q :=
  if n =? 0 then Some 0%Q
  else
    let e := Z.max (floor_log2_quot n d - 52) (-1074) in
    let m := if 0 <=? e then round_half_even n (d * 2 ^ e)
             else round_half_even (n * 2 ^ (- e)) d in
    if (0 <=? e) && (2 ^ 1024 <=? m * 2 ^ e) then None
    else Some (scale2 m e).

(** [a / b] on Python ints: ZeroDivisionError for [b == 0], OverflowError
    when the quotient is too large for a float. The rational that stands
    for the float is kept in lowest terms. *)
Definition py_truediv (a b : Z) : result Q :=
  if bool_decide (b = 0) then Raise ZeroDivisionError
  else
    match nearest_double (Z.abs a) (Z.abs b) with
    | None => Raise OverflowError
    | Some q => Ok (Qred (inject_Z (Z.sgn a * Z.sgn b) * q))
    end.

Definition occupancy (r : Road) : result Q :=
  if bool_decide (num_cells r = 0) then Ok 0%Q
  else py_truediv (occupied_cells r) (num_cells r).

Definition is_full (r : Road) : bool :=
  forallb (λ c, negb (is_empty c)) (cells r).

(** ** core/grid.py *)

Record RoadNetwork : Type := mkRoadNetwork {
  intersections : gmap IntersectionId Intersection;
  roads : gmap RoadId Road;
  _adjacency : gmap IntersectionId (list (IntersectionId * RoadId));
}.

Definition empty_network : RoadNetwork := mkRoadNetwork ∅ ∅ ∅.

(** [d.setdefault(k, [])] followed by what the caller appends. *)
Definition setdefault_append (k : IntersectionId)
    (extra : list (IntersectionId * RoadId))
    (adj : gmap IntersectionId (list (IntersectionId * RoadId)))
    : gmap IntersectionId (list (IntersectionId * RoadId)) :=
  <[k := default [] (adj !! k) ++ extra]> adj.

Definition add_intersection (net : RoadNetwork) (i : Intersection) : RoadNetwork :=
  {| intersections := <[intersection_id i := i]> (intersections net);
     roads := roads net;
     _adjacency := setdefault_append (intersection_id i) [] (_adjacency net) |}.

Definition add_road (net : RoadNetwork) (r : Road) : RoadNetwork :=
  {| intersections := intersections net;
     roads := <[road_id r := r]> (roads net);
     _adjacency :=
       setdefault_append (from_intersection r)
         [(to_intersection r, road_id r)] (_adjacency net) |}.

Definition neighbors (net : RoadNetwork) (iid : IntersectionId)
    : list IntersectionId :=
  fst <$> default [] (_adjacency net !! iid).

(** What one pass of the [for neighbor_id in ...] loop leaves behind: either
    the [return new_path], or the visited set and the queue at its end. *)
Inductive expansion : Type :=
  | Found (new_path : list IntersectionId)
  | Continue (visited : gset IntersectionId)
             (queue : list (list IntersectionId)).

Fixpoint expand (to_id : IntersectionId) (path : list IntersectionId)
    (nbrs : list IntersectionId) (visited : gset IntersectionId)
    (queue : list (list IntersectionId)) : expansion :=
  match nbrs with
  | [] => Continue visited queue
  | neighbor_id :: rest =>
      if decide (neighbor_id ∈ visited) then
        expand to_id path rest visited queue
      else
        let new_path := path ++ [neighbor_id] in
        if decide (neighbor_id = to_id) then Found new_path
        else expand to_id path rest ({[neighbor_id]} ∪ visited)
                    (queue ++ [new_path])
  end.

(** [path[-1]] *)
Definition py_last {A : Type} (l : list A) : result A :=
  match last l with
  | Some x => Ok x
  | None => Raise IndexError
  end.

(** The [while queue] loop. Each round pops one path; [fuel] bounds the
    number of rounds, and [None] means the bound was reached. *)
Fixpoint bfs_loop (fuel : nat) (net : RoadNetwork) (to_id : IntersectionId)
    (visited : gset IntersectionId) (queue : list (list IntersectionId))
    : option (result (list IntersectionId)) :=
  match fuel with
  | O => None
  | S fuel =>
      match queue with
      | [] => Some (Ok [])
      | path :: queue =>
          match py_last path with
          | Raise e => Some (Raise e)
          | Ok current =>
              match expand to_id path (neighbors net current) visited queue with
              | Found new_path => Some (Ok new_path)
              | Continue visited queue => bfs_loop fuel net to_id visited queue
              end
          end
      end
  end.

(** Every identifier that occurs as a neighbour in the adjacency lists. *)
Definition neighbor_ids (net : RoadNetwork) : list IntersectionId :=
  map_to_list (_adjacency net) ≫= (λ kv, fst <$> kv.2).

(** A path is enqueued once per identifier that enters [visited], and the
    start once more; one further round sees the empty queue. *)
Definition bfs_rounds (net : RoadNetwork) : nat :=
  S (S (length (neighbor_ids net))).

Definition shortest_path (net : RoadNetwork) (from_id to_id : IntersectionId)
    : option (result (list IntersectionId)) :=
  if decide (from_id = to_id) then Some (Ok [from_id])
  else bfs_loop (bfs_rounds net) net to_id {[from_id]} [[from_id]].

(** A list of intersections in which every consecutive pair is one hop of
    the adjacency listing. *)
Fixpoint is_walk (net : RoadNetwork) (p : list IntersectionId) : Prop :=
  match p with
  | [] => True
  | a :: rest =>
      match rest with
      | [] => True
      | b :: _ => b ∈ neighbors net a ∧ is_walk net rest
      end
  end.

(** A path from [a] to [b]: a non-empty walk with these end points. Its hop
    count is its length less one. *)
Definition path_between (net : RoadNetwork) (a b : IntersectionId)
    (p : list IntersectionId) : Prop :=
  head p = Some a ∧ last p = Some b ∧ is_walk net p.

(** ** signals/controller.py *)

(** The [SignalController] protocol. Its two preemption methods return
    [None]; here they return the controller they have mutated. *)
Class SignalController (C : Type) : Type := {
  ctl_update : C → Intersection → Tick → result (SignalPhase * Intersection);
  ctl_request_preemption : C → Direction → C;
  ctl_release_preemption : C → C;
}.

#[global] Instance FixedTimeController_protocol
    : SignalController FixedTimeController :=
  {| ctl_update := update;
     ctl_request_preemption := request_preemption;
     ctl_release_preemption := release_preemption |}.

(** ** engine/events.py *)

Record EmergencyDetected : Type := mkEmergencyDetected {
  ed_tick : Tick;
  ed_vehicle_id : VehicleId;
  ed_intersection_id : IntersectionId;
  ed_approach_direction : Direction;
  ed_distance_cells : Z;
}.

Inductive SimulationEvent : Type :=
  | EvVehicleSpawned (tick : Tick) (vid : VehicleId)
      (o d : IntersectionId) (emergency : bool)
  | EvVehicleMoved (tick : Tick) (vid : VehicleId) (rid : RoadId) (cell : Z)
  | EvVehicleArrived (tick : Tick) (vid : VehicleId) (d : IntersectionId)
      (total_ticks : Z)
  | EvVehicleWaiting (tick : Tick) (vid : VehicleId) (iid : IntersectionId)
  | EvSignalChanged (tick : Tick) (iid : IntersectionId) (d : Direction)
      (new_state : SignalState)
  | EvEmergencyDetected (e : EmergencyDetected)
  | PreemptionStarted (tick : Tick) (vid : VehicleId) (iid : IntersectionId)
      (d : Direction)
  | PreemptionEnded (tick : Tick) (vid : VehicleId) (iid : IntersectionId).

(** ** emergency/preemption.py *)

Record ActivePreemption : Type := mkActivePreemption {
  ap_vehicle_id : VehicleId;
  ap_intersection_id : IntersectionId;
  ap_direction : Direction;
}.

(** What the manager does to the outside, in order: the calls it makes on
    controllers and the events it hands to [EventBus.publish]. *)
Inductive action : Type :=
  | CallRequestPreemption (iid : IntersectionId) (d : Direction)
  | CallReleasePreemption (iid : IntersectionId)
  | Publish (ev : SimulationEvent).

Section PreemptionManager.
Context {C : Type} `{!SignalController C}.

Record PreemptionManager : Type := mkPreemptionManager {
  _controllers : gmap IntersectionId C;
  _active : gmap IntersectionId ActivePreemption;
}.

(** [PreemptionManager(event_bus, controllers)] *)
Definition PreemptionManager_init (controllers : gmap IntersectionId C)
    : PreemptionManager :=
  {| _controllers := controllers; _active := ∅ |}.

(** The handler is subscribed to [EmergencyDetected] only, so its
    [assert isinstance] holds and the event is taken at that type. *)
Definition _on_emergency_detected (m : PreemptionManager)
    (event : EmergencyDetected) : PreemptionManager * list action :=
  let iid := ed_intersection_id event in
  match _active m !! iid with
  | Some _ => (m, [])
  | None =>
      match _controllers m !! iid with
      | None => (m, [])
      | Some controller =>
          ({| _controllers :=
                <[iid := ctl_request_preemption controller
                           (ed_approach_direction event)]> (_controllers m);
              _active :=
                <[iid := mkActivePreemption (ed_vehicle_id event) iid
                           (ed_approach_direction event)]> (_active m) |},
           [ CallRequestPreemption iid (ed_approach_direction event);
             Publish (PreemptionStarted (ed_tick event) (ed_vehicle_id event)
                        iid (ed_approach_direction event)) ])
      end
  end.

Definition release (m : PreemptionManager) (iid : IntersectionId)
    (tick : Tick) : PreemptionManager * list action :=
  match _active m !! iid with
  | None => (m, [])
  | Some preemption =>
      let active := delete iid (_active m) in
      let ended := Publish (PreemptionEnded tick (ap_vehicle_id preemption) iid) in
      match _controllers m !! iid with
      | Some controller =>
          ({| _controllers :=
                <[iid := ctl_release_preemption controller]> (_controllers m);
              _active := active |},
           [CallReleasePreemption iid; ended])
      | None =>
          ({| _controllers := _controllers m; _active := active |}, [ended])
      end
  end.

(** *** The specification's reading of exclusivity *)

(** The two ways into the manager: the bus delivering a detection, and a
    call of [release]. *)
Inductive manager_call : Type :=
  | Detected (event : EmergencyDetected)
  | Released (iid : IntersectionId) (tick : Tick).

Definition manager_step (m : PreemptionManager) (call : manager_call)
    : PreemptionManager * list action :=
  match call with
  | Detected event => _on_emergency_detected m event
  | Released iid tick => release m iid tick
  end.

(** A sequence of calls, one after the other; the actions accumulate in
    order. *)
Fixpoint manager_run (m : PreemptionManager) (calls : list manager_call)
    : PreemptionManager * list action :=
  match calls with
  | [] => (m, [])
  | call :: rest =>
      let '(m1, acts1) := manager_step m call in
      let '(m2, acts2) := manager_run m1 rest in
      (m2, acts1 ++ acts2)
  end.

(** Delivery of a sequence of detections, one handler call each. *)
Definition deliver (m : PreemptionManager) (events : list EmergencyDetected)
    : PreemptionManager * list action :=
  manager_run m (Detected <$> events).

(** Every entry is filed under the intersection it names. *)
Definition filed_by_intersection (m : PreemptionManager) : Prop :=
  ∀ k entry, _active m !! k = Some entry → ap_intersection_id entry = k.

(** No two entries of the map name the same intersection. *)
Definition one_entry_per_intersection (m : PreemptionManager) : Prop :=
  ∀ k1 k2 e1 e2,
    _active m !! k1 = Some e1 →
    _active m !! k2 = Some e2 →
    ap_intersection_id e1 = ap_intersection_id e2 →
    k1 = k2 ∧ e1 = e2.

Definition is_started_at (iid : IntersectionId) (a : action) : bool :=
  match a with
  | Publish (PreemptionStarted _ _ iid' _) => bool_decide (iid' = iid)
  | _ => false
  end.

Definition is_request_at (iid : IntersectionId) (a : action) : bool :=
  match a with
  | CallRequestPreemption iid' _ => bool_decide (iid' = iid)
  | _ => false
  end.

Definition count_actions (f : action → bool) (acts : list action) : nat :=
  length (List.filter f acts).

(** The first detection of the sequence that names [iid]. *)
Definition first_detection (iid : IntersectionId)
    (events : list EmergencyDetected) : option EmergencyDetected :=
  List.find (λ e, bool_decide (ed_intersection_id e = iid)) events.

(** The entry the manager is to hold for [iid] once [events] are delivered
    to [m]: the one it held, or else the one the first detection there
    creates if the controller is known. *)
Definition expected_entry (m : PreemptionManager) (iid : IntersectionId)
    (events : list EmergencyDetected) : option ActivePreemption :=
  match _active m !! iid with
  | Some held => Some held
  | None =>
      match _controllers m !! iid, first_detection iid events with
      | Some _, Some e =>
          Some (mkActivePreemption (ed_vehicle_id e) iid
                  (ed_approach_direction e))
      | _, _ => None
      end
  end.

(** Whether delivering [events] to [m] starts a preemption at [iid]. *)
Definition starts_at (m : PreemptionManager) (iid : IntersectionId)
    (events : list EmergencyDetected) : bool :=
  match _active m !! iid, _controllers m !! iid, first_detection iid events with
  | None, Some _, Some _ => true
  | _, _, _ => false
  end.
End PreemptionManager.

Arguments PreemptionManager C : clear implicits.

(** ** The specification's reading of the phase lookup *)

(** Cumulative duration at the end of phase number [k] (counted from 0). *)
Definition cumulative_end (p : SignalPlan) (k : nat) : Z :=
  foldr Z.add 0 (duration <$> take (S k) (phases p)).

(** [phase] is the first phase, in order, whose cumulative end strictly
    exceeds [offset]. *)
Definition first_exceeding (p : SignalPlan) (offset : Z) (phase : SignalPhase)
    : Prop :=
  ∃ k : nat,
    phases p !! k = Some phase
    ∧ offset < cumulative_end p k
    ∧ ∀ j : nat, (j < k)%nat → ¬ offset < cumulative_end p j.

(** No phase's cumulative end exceeds [offset]. *)
Definition none_exceeding (p : SignalPlan) (offset : Z) : Prop :=
  ∀ j : nat, (j < length (phases p))%nat → ¬ offset < cumulative_end p j.

(** ** The specification's reading of routing *)

(** [hops net a k b]: [b] is reached from [a] by [k] hops of the adjacency
    listing. *)
Inductive hops (net : RoadNetwork) (a : IntersectionId)
    : nat → IntersectionId → Prop :=
  | hops_here : hops net a 0 a
  | hops_next (k : nat) (y x : IntersectionId) :
      hops net a k y → x ∈ neighbors net y → hops net a (S k) x.

(** The networks that [add_intersection] and [add_road] build from the
    empty one, with the roads added, in order. *)
Inductive built_from : list Road → RoadNetwork → Prop :=
  | built_empty : built_from [] empty_network
  | built_add_intersection (rs : list Road) (net : RoadNetwork)
      (i : Intersection) :
      built_from rs net → built_from rs (add_intersection net i)
  | built_add_road (rs : list Road) (net : RoadNetwork) (r : Road) :
      built_from rs net → built_from (rs ++ [r]) (add_road net r).

(** The state of the search between two rounds of its [while] loop, for a
    search from [from_id] to [to_id]. The queue is [qa ++ qb]: the paths of
    [qa] have [m] hops, those of [qb] one more. *)
Record bfs_inv (net : RoadNetwork) (from_id to_id : IntersectionId)
    (m : nat) (visited : gset IntersectionId)
    (qa qb : list (list IntersectionId)) : Prop := mk_bfs_inv {
  inv_paths : ∀ p, p ∈ qa ++ qb →
      head p = Some from_id ∧ is_walk net p
      ∧ ∃ y, last p = Some y ∧ y ∈ visited;
  inv_from : from_id ∈ visited;
  inv_to : to_id ∉ visited;
  inv_len_a : ∀ p, p ∈ qa → length p = S m;
  inv_len_b : ∀ p, p ∈ qb → length p = S (S m);
  inv_frontier : ∀ v, v ∈ visited →
      (∀ x, x ∈ neighbors net v → x ∈ visited)
      ∨ ∃ p, p ∈ qa ++ qb ∧ last p = Some v;
  inv_near : ∀ k x, hops net from_id k x → (k ≤ m)%nat → x ∈ visited;
  inv_far : ∀ p y k, p ∈ qb → last p = Some y →
      hops net from_id k y → (m < k)%nat;
}.

(** What the search is to return: the empty list when there is no path, and
    otherwise a path no longer than any other. *)
Definition shortest_or_none (net : RoadNetwork) (from_id to_id : IntersectionId)
    (r : list IntersectionId) : Prop :=
  (r = [] ∧ ∀ p, ¬ path_between net from_id to_id p)
  ∨ (path_between net from_id to_id r
     ∧ ∀ p, path_between net from_id to_id p → (length r ≤ length p)%nat).

(** ** A two-by-two grid

    The network [create_grid(2, 2, 3)] builds, as far as its intersections,
    roads and adjacency listing go: per intersection in row-major order, the
    road south and its reverse, then the road east and its reverse. *)
Definition grid_road (rid : RoadId) (src dst : IntersectionId) : Road :=
  Road_post_init (mkRoad rid src dst 3 1 []).

Definition grid_2x2_roads : list Road :=
  [ grid_road "R-I-0-0-S" "I-0-0" "I-1-0";
    grid_road "R-I-1-0-N" "I-1-0" "I-0-0";
    grid_road "R-I-0-0-E" "I-0-0" "I-0-1";
    grid_road "R-I-0-1-W" "I-0-1" "I-0-0";
    grid_road "R-I-0-1-S" "I-0-1" "I-1-1";
    grid_road "R-I-1-1-N" "I-1-1" "I-0-1";
    grid_road "R-I-1-0-E" "I-1-0" "I-1-1";
    grid_road "R-I-1-1-W" "I-1-1" "I-1-0" ].

Definition grid_2x2 : RoadNetwork :=
  foldl add_road
    (foldl add_intersection empty_network
       [ Intersection_init "I-0-0" (0, 0); Intersection_init "I-0-1" (0, 1);
         Intersection_init "I-1-0" (1, 0); Intersection_init "I-1-1" (1, 1) ])
    grid_2x2_roads.

(** ** A manager over one junction

    The controllers map an engine with a single signalised intersection
    hands to the manager, and two detections there. *)
Definition one_junction : gmap IntersectionId FixedTimeController :=
  {[ "I-0-0" := FixedTimeController_init (default_four_way 30 5) ]}.

Definition first_ambulance : EmergencyDetected :=
  mkEmergencyDetected 12 "EV-1" "I-0-0" NORTH 4.

Definition second_ambulance : EmergencyDetected :=
  mkEmergencyDetected 13 "EV-2" "I-0-0" EAST 9.

(** ** Further code of the cited files

    What follows models the functions of the same source files that the
    definitions above leave out, and their callers. *)

(** *** core/signal.py *)

Definition applies_to (phase : SignalPhase) (d : Direction) : bool :=
  bool_decide (d ∈ green_directions phase).

(** Cumulative duration before phase number [k] (counted from 0). *)
Definition cumulative_start (p : SignalPlan) (k : nat) : Z :=
  foldr Z.add 0 (duration <$> take k (phases p)).

(** *** core/road.py *)

(** [[c.vehicle for c in self.cells if c.vehicle is not None]] *)
Definition vehicles (r : Road) : list Vehicle := omap vehicle (cells r).

Definition cell_at (r : Road) (i : Z) : result Cell := py_getitem (cells r) i.

Definition clear (r : Road) : Road :=
  {| road_id := road_id r;
     from_intersection := from_intersection r;
     to_intersection := to_intersection r;
     num_cells := num_cells r;
     speed_limit := speed_limit r;
     cells := (λ c, mkCell (index c) None) <$> cells r |}.

(** *** core/grid.py *)

(** A dict subscript [d[key]] on a missing key. *)
Inductive key_error : Type := KeyError (key : string).

(** The loop of [road_between] over the adjacency entries of [from_id]. *)
Fixpoint find_road (roads : gmap RoadId Road) (to_id : IntersectionId)
    (entries : list (IntersectionId * RoadId)) : key_error + option Road :=
  match entries with
  | [] => inr None
  | (nid, rid) :: rest =>
      if decide (nid = to_id) then
        match roads !! rid with
        | Some r => inr (Some r)
        | None => inl (KeyError rid)
        end
      else find_road roads to_id rest
  end.

Definition road_between (net : RoadNetwork) (from_id to_id : IntersectionId)
    : key_error + option Road :=
  find_road (roads net) to_id (default [] (_adjacency net !! from_id)).

(** *** emergency/router.py *)

Record Route : Type := mkRoute {
  route_vehicle_id : VehicleId;
  path : list IntersectionId;
}.

Definition Route_length (r : Route) : Z := Z.of_nat (length (path r)).

(** [if vehicle.next_intersection:] holds for an identifier other than the
    empty string. *)
Definition route_origin (v : EmergencyVehicle) : result IntersectionId :=
  next ←! next_intersection v;
  Ok (match next with
      | Some iid => if decide (iid = "") then origin (as_vehicle v) else iid
      | None => origin (as_vehicle v)
      end).

(** [None] stands for the round bound of the search, as in
    [shortest_path]. *)
Definition compute_route (net : RoadNetwork) (v : EmergencyVehicle)
    : option (result Route) :=
  match route_origin v with
  | Raise e => Some (Raise e)
  | Ok start =>
      match shortest_path net start (destination (as_vehicle v)) with
      | None => None
      | Some (Raise e) => Some (Raise e)
      | Some (Ok p) => Some (Ok (mkRoute (vehicle_id (as_vehicle v)) p))
      end
  end.

(** *** emergency/preemption.py *)

Definition is_ended_at (iid : IntersectionId) (a : action) : bool :=
  match a with
  | Publish (PreemptionEnded _ _ iid') => bool_decide (iid' = iid)
  | _ => false
  end.

Section PreemptionManagerState.
Context {C : Type} `{!SignalController C}.

(** 1 while the manager holds a preemption at [iid], 0 otherwise. *)
Definition held_at (m : PreemptionManager C) (iid : IntersectionId) : nat :=
  match _active m !! iid with
  | Some _ => 1
  | None => 0
  end.
End PreemptionManagerState.

(** *** engine/events.py *)

(** The event classes, as [type(event)] tells them apart. *)
Inductive event_kind : Type :=
  | KSimulationEvent
  | KVehicleSpawned
  | KVehicleMoved
  | KVehicleArrived
  | KVehicleWaiting
  | KSignalChanged
  | KEmergencyDetected
  | KPreemptionStarted
  | KPreemptionEnded.

#[global] Instance event_kind_eq_dec : EqDecision event_kind.
Proof. solve_decision. Defined.

Definition event_kind_to_pos (k : event_kind) : positive :=
  match k with
  | KSimulationEvent => 1 | KVehicleSpawned => 2 | KVehicleMoved => 3
  | KVehicleArrived => 4 | KVehicleWaiting => 5 | KSignalChanged => 6
  | KEmergencyDetected => 7 | KPreemptionStarted => 8 | KPreemptionEnded => 9
  end%positive.

Definition event_kind_of_pos (p : positive) : option event_kind :=
  match p with
  | 1 => Some KSimulationEvent | 2 => Some KVehicleSpawned
  | 3 => Some KVehicleMoved | 4 => Some KVehicleArrived
  | 5 => Some KVehicleWaiting | 6 => Some KSignalChanged
  | 7 => Some KEmergencyDetected | 8 => Some KPreemptionStarted
  | 9 => Some KPreemptionEnded | _ => None
  end%positive.

#[global] Program Instance event_kind_countable : Countable event_kind :=
  {| encode := event_kind_to_pos; decode := event_kind_of_pos |}.
Next Obligation. by intros []. Qed.

Definition type_of (ev : SimulationEvent) : event_kind :=
  match ev with
  | EvVehicleSpawned _ _ _ _ _ => KVehicleSpawned
  | EvVehicleMoved _ _ _ _ => KVehicleMoved
  | EvVehicleArrived _ _ _ _ => KVehicleArrived
  | EvVehicleWaiting _ _ _ => KVehicleWaiting
  | EvSignalChanged _ _ _ _ => KSignalChanged
  | EvEmergencyDetected _ => KEmergencyDetected
  | PreemptionStarted _ _ _ _ => KPreemptionStarted
  | PreemptionEnded _ _ _ => KPreemptionEnded
  end.

(** [l.remove(x)]: the first element equal to [x] goes, and ValueError is
    raised when there is none. *)
Fixpoint py_remove {A : Type} `{EqDecision A} (x : A) (l : list A)
    : result (list A) :=
  match l with
  | [] => Raise ValueError
  | y :: rest =>
      if decide (y = x) then Ok rest
      else rest' ←! py_remove x rest; Ok (y :: rest')
  end.

Section EventBus.
(** Handlers are callables; all the bus does with them is to keep them,
    compare them (in [list.remove]) and call them. *)
Context {H : Type} `{EqDecision H}.

Record EventBus : Type := mkEventBus {
  _handlers : gmap event_kind (list H);
}.

Definition EventBus_init : EventBus := mkEventBus ∅.

(** [self._handlers[event_type]] on the defaultdict. *)
Definition handlers_of (bus : EventBus) (k : event_kind) : list H :=
  default [] (_handlers bus !! k).

Definition subscribe (bus : EventBus) (k : event_kind) (h : H) : EventBus :=
  mkEventBus (<[k := handlers_of bus k ++ [h]]> (_handlers bus)).

Definition unsubscribe (bus : EventBus) (k : event_kind) (h : H)
    : result EventBus :=
  l ←! py_remove h (handlers_of bus k);
  Ok (mkEventBus (<[k := l]> (_handlers bus))).

(** The handlers [publish] calls with the event, in the order of the
    calls. *)
Definition publish (bus : EventBus) (ev : SimulationEvent) : list H :=
  default [] (_handlers bus !! type_of ev).

Definition clear_handlers (bus : EventBus) : EventBus := mkEventBus ∅.

Definition subscribe_all (bus : EventBus) (subs : list (event_kind * H))
    : EventBus :=
  foldl (λ b kh, subscribe b kh.1 kh.2) bus subs.
End EventBus.

Arguments EventBus H : clear implicits.

(** *** metrics/collector.py *)

Record MetricsSummary : Type := mkMetricsSummary {
  total_vehicles_spawned : Z;
  total_vehicles_arrived : Z;
  total_emergency_vehicles : Z;
  total_wait_ticks : Z;
  total_travel_ticks : Z;
  total_preemptions : Z;
}.

(** [MetricsSummary()] *)
Definition MetricsSummary_init : MetricsSummary :=
  mkMetricsSummary 0 0 0 0 0 0.

Definition average_travel_ticks (s : MetricsSummary) : result Q :=
  if bool_decide (total_vehicles_arrived s = 0) then Ok 0%Q
  else py_truediv (total_travel_ticks s) (total_vehicles_arrived s).

Definition average_wait_ticks (s : MetricsSummary) : result Q :=
  if bool_decide (total_vehicles_arrived s = 0) then Ok 0%Q
  else py_truediv (total_wait_ticks s) (total_vehicles_arrived s).

Definition _on_event (s : MetricsSummary) (ev : SimulationEvent)
    : MetricsSummary :=
  match ev with
  | EvVehicleSpawned _ _ _ _ emergency =>
      mkMetricsSummary
        (total_vehicles_spawned s + 1)
        (total_vehicles_arrived s)
        (if emergency then total_emergency_vehicles s + 1
         else total_emergency_vehicles s)
        (total_wait_ticks s) (total_travel_ticks s) (total_preemptions s)
  | EvVehicleArrived _ _ _ total_ticks =>
      mkMetricsSummary
        (total_vehicles_spawned s)
        (total_vehicles_arrived s + 1)
        (total_emergency_vehicles s)
        (total_wait_ticks s)
        (total_travel_ticks s + total_ticks)
        (total_preemptions s)
  | EvVehicleWaiting _ _ _ =>
      mkMetricsSummary
        (total_vehicles_spawned s) (total_vehicles_arrived s)
        (total_emergency_vehicles s)
        (total_wait_ticks s + 1)
        (total_travel_ticks s) (total_preemptions s)
  | PreemptionStarted _ _ _ _ =>
      mkMetricsSummary
        (total_vehicles_spawned s) (total_vehicles_arrived s)
        (total_emergency_vehicles s) (total_wait_ticks s)
        (total_travel_ticks s)
        (total_preemptions s + 1)
  | _ => s
  end.

(** The collector's handler called on a sequence of events in order. *)
Definition collect (s : MetricsSummary) (events : list SimulationEvent)
    : MetricsSummary :=
  foldl _on_event s events.

(** The travel times that the [VehicleArrived] events of a sequence
    report. *)
Definition arrival_ticks (events : list SimulationEvent) : list Z :=
  omap (λ ev, match ev with
              | EvVehicleArrived _ _ _ total_ticks => Some total_ticks
              | _ => None
              end) events.

(** The events among the actions of the preemption manager. *)
Definition published (acts : list action) : list SimulationEvent :=
  omap (λ a, match a with Publish ev => Some ev | _ => None end) acts.

Definition is_ended (a : action) : bool :=
  match a with
  | Publish (PreemptionEnded _ _ _) => true
  | _ => false
  end.

Definition is_started (a : action) : bool :=
  match a with
  | Publish (PreemptionStarted _ _ _ _) => true
  | _ => false
  end.

(** *** core/grid.py: the grid factory *)

Definition key_bind {A B : Type} (r : key_error + A) (k : A → key_error + B)
    : key_error + B :=
  match r with
  | inl e => inl e
  | inr a => k a
  end.

(** A [for] loop whose body may raise. *)
Fixpoint for_each {A B : Type} (body : A → B → key_error + A) (a : A)
    (l : list B) : key_error + A :=
  match l with
  | [] => inr a
  | x :: rest => key_bind (body a x) (λ a', for_each body a' rest)
  end.

(** [f"I-{r}-{c}"] *)
Definition grid_id (r c : Z) : IntersectionId :=
  "I-" +:+ pretty r +:+ "-" +:+ pretty c.

(** [network.intersections[iid].outgoing_roads[d] = rid] *)
Definition set_outgoing_road (net : RoadNetwork) (iid : IntersectionId)
    (d : Direction) (rid : RoadId) : key_error + RoadNetwork :=
  match intersections net !! iid with
  | None => inl (KeyError iid)
  | Some i =>
      inr {| intersections :=
               <[iid := {| intersection_id := intersection_id i;
                           position := position i;
                           incoming_roads := incoming_roads i;
                           outgoing_roads := <[d := rid]> (outgoing_roads i);
                           signal_states := signal_states i |}]>
                 (intersections net);
             roads := roads net;
             _adjacency := _adjacency net |}
  end.

(** [network.intersections[iid].incoming_roads[d] = rid] *)
Definition set_incoming_road (net : RoadNetwork) (iid : IntersectionId)
    (d : Direction) (rid : RoadId) : key_error + RoadNetwork :=
  match intersections net !! iid with
  | None => inl (KeyError iid)
  | Some i =>
      inr {| intersections :=
               <[iid := {| intersection_id := intersection_id i;
                           position := position i;
                           incoming_roads := <[d := rid]> (incoming_roads i);
                           outgoing_roads := outgoing_roads i;
                           signal_states := signal_states i |}]>
                 (intersections net);
             roads := roads net;
             _adjacency := _adjacency net |}
  end.

(** One road of the grid: built, added, and entered at both its ends, as
    leaving [src] towards [heading] and as arriving at [dst] from the
    opposite side. *)
Definition lay_road (net : RoadNetwork) (src dst : IntersectionId)
    (heading : Direction) (suffix : string) (road_length : Z)
    : key_error + RoadNetwork :=
  let road :=
    Road_post_init
      (mkRoad ("R-" +:+ src +:+ suffix) src dst road_length 1 []) in
  let net := add_road net road in
  key_bind (set_outgoing_road net src heading (road_id road)) (λ net,
  set_incoming_road net dst (opposite heading) (road_id road)).

(** The body of the second pair of loops, for one [(r, c)]. *)
Definition lay_roads_at (rows cols road_length : Z) (net : RoadNetwork)
    (r c : Z) : key_error + RoadNetwork :=
  let current := grid_id r c in
  key_bind
    (if decide (r + 1 < rows) then
       let south_id := grid_id (r + 1) c in
       key_bind (lay_road net current south_id SOUTH "-S" road_length) (λ net,
       lay_road net south_id current NORTH "-N" road_length)
     else inr net) (λ net,
  if decide (c + 1 < cols) then
    let east_id := grid_id r (c + 1) in
    key_bind (lay_road net current east_id EAST "-E" road_length) (λ net,
    lay_road net east_id current WEST "-W" road_length)
  else inr net).

Definition create_grid (rows cols road_length : Z) : key_error + RoadNetwork :=
  let net :=
    foldl (λ net r,
             foldl (λ net c,
                      add_intersection net (Intersection_init (grid_id r c) (r, c)))
                   net (py_range cols))
          empty_network (py_range rows) in
  for_each (λ net r,
              for_each (λ net c, lay_roads_at rows cols road_length net r c)
                       net (py_range cols))
           net (py_range rows).

(** Every street can be driven both ways. *)
Definition two_way (net : RoadNetwork) : Prop :=
  ∀ a b, b ∈ neighbors net a → a ∈ neighbors net b.

(** The state of the network between two rounds of the loops that lay the
    roads of a grid of the given size. *)
Definition grid_ready (rows cols : Z) (net : RoadNetwork) : Prop :=
  (∀ r c, r ∈ py_range rows → c ∈ py_range cols →
          is_Some (intersections net !! grid_id r c))
  ∧ two_way net.

(** A string without the character [-]. *)
Fixpoint no_dash (s : string) : Prop :=
  match s with
  | EmptyString => True
  | String ch rest => ch ≠ "-"%char ∧ no_dash rest
  end.

(** The two ends of one of the streets that the loops lay at grid position
    [(r, c)]: the street south and the street east, where the grid goes on. *)
Definition street_at (rows cols r c : Z) (a b : IntersectionId) : Prop :=
  (r + 1 < rows
   ∧ ((a = grid_id r c ∧ b = grid_id (r + 1) c)
      ∨ (a = grid_id (r + 1) c ∧ b = grid_id r c)))
  ∨ (c + 1 < cols
     ∧ ((a = grid_id r c ∧ b = grid_id r (c + 1))
        ∨ (a = grid_id r (c + 1) ∧ b = grid_id r c))).

(** The network has all its intersections, and its hops are those of the
    streets counted in [laid]. *)
Definition streets_laid (rows cols : Z) (net0 : RoadNetwork)
    (laid : IntersectionId → IntersectionId → Prop) (net : RoadNetwork)
    : Prop :=
  (∀ r c, r ∈ py_range rows → c ∈ py_range cols →
          is_Some (intersections net !! grid_id r c))
  ∧ ∀ a b, b ∈ neighbors net a ↔ b ∈ neighbors net0 a ∨ laid a b.

(** ** emergency/preemption.py, over controller objects

    [PreemptionManager.__init__] keeps the dict it is handed, and a Python
    dict holds references: a controller registered under two intersections
    is one object, and what a call under one id does to it shows under the
    other. Here the controller objects live in a store, addressed by
    [ref], the manager's dict maps intersections to addresses, and
    [request_preemption] and [release_preemption] change the object in the
    store. The dict itself is never written to. *)
Module Shared.
Section Shared.
Context {C : Type} `{!SignalController C}.

(** The identity of a controller object. *)
Definition ref : Type := positive.

(** The controller objects, each under its identity. *)
Definition objects : Type := gmap ref C.

Record PreemptionManager : Type := mkPreemptionManager {
  _controllers : gmap IntersectionId ref;
  _active : gmap IntersectionId ActivePreemption;
}.

Definition PreemptionManager_init (controllers : gmap IntersectionId ref)
    : PreemptionManager :=
  {| _controllers := controllers; _active := ∅ |}.

Definition _on_emergency_detected (m : PreemptionManager) (σ : objects)
    (event : EmergencyDetected) : PreemptionManager * objects * list action :=
  let iid := ed_intersection_id event in
  match _active m !! iid with
  | Some _ => (m, σ, [])
  | None =>
      match _controllers m !! iid with
      | None => (m, σ, [])
      | Some controller =>
          ({| _controllers := _controllers m;
              _active :=
                <[iid := mkActivePreemption (ed_vehicle_id event) iid
                           (ed_approach_direction event)]> (_active m) |},
           alter (λ c, ctl_request_preemption c (ed_approach_direction event))
                 controller σ,
           [ CallRequestPreemption iid (ed_approach_direction event);
             Publish (PreemptionStarted (ed_tick event) (ed_vehicle_id event)
                        iid (ed_approach_direction event)) ])
      end
  end.

Definition release (m : PreemptionManager) (σ : objects)
    (iid : IntersectionId) (tick : Tick)
    : PreemptionManager * objects * list action :=
  match _active m !! iid with
  | None => (m, σ, [])
  | Some preemption =>
      let m' := {| _controllers := _controllers m;
                   _active := delete iid (_active m) |} in
      let ended := Publish (PreemptionEnded tick (ap_vehicle_id preemption) iid) in
      match _controllers m !! iid with
      | Some controller =>
          (m', alter ctl_release_preemption controller σ,
           [CallReleasePreemption iid; ended])
      | None => (m', σ, [ended])
      end
  end.

Definition manager_step (m : PreemptionManager) (σ : objects)
    (call : manager_call) : PreemptionManager * objects * list action :=
  match call with
  | Detected event => _on_emergency_detected m σ event
  | Released iid tick => release m σ iid tick
  end.

Fixpoint manager_run (m : PreemptionManager) (σ : objects)
    (calls : list manager_call) : PreemptionManager * objects * list action :=
  match calls with
  | [] => (m, σ, [])
  | call :: rest =>
      let '(m1, σ1, acts1) := manager_step m σ call in
      let '(m2, σ2, acts2) := manager_run m1 σ1 rest in
      (m2, σ2, acts1 ++ acts2)
  end.

(** No controller object is registered under two intersections. *)
Definition unshared (controllers : gmap IntersectionId ref) : Prop :=
  ∀ k1 k2 l,
    controllers !! k1 = Some l → controllers !! k2 = Some l → k1 = k2.
End Shared.
End Shared.

(** Over fixed-time controller objects: the manager's dict is the one it
    was handed, and every object it refers to holds the direction the
    manager has on record for the intersection, or none, and still runs the
    plan it had in the store [σ0] the manager started with. *)
Definition controllers_in_step
    (handed : gmap IntersectionId Shared.ref)
    (σ0 : gmap Shared.ref FixedTimeController)
    (m : Shared.PreemptionManager)
    (σ : gmap Shared.ref FixedTimeController) : Prop :=
  Shared._controllers m = handed
  ∧ ∀ iid l c,
      handed !! iid = Some l → σ !! l = Some c →
      preempting c = ap_direction <$> Shared._active m !! iid
      ∧ ∃ c0, σ0 !! l = Some c0 ∧ plan c = plan c0.

(** Two junctions that were handed one and the same controller object. *)
Definition two_junctions_one_controller : gmap IntersectionId Shared.ref :=
  {[ "I-0-0" := 1%positive; "I-0-1" := 1%positive ]}.

(** One junction with a controller object of its own. *)
Definition one_junction_ref : gmap IntersectionId Shared.ref :=
  {[ "I-0-0" := 1%positive ]}.

Definition one_controller : gmap Shared.ref FixedTimeController :=
  {[ 1%positive := FixedTimeController_init (default_four_way 30 5) ]}.

(** ** The specification's reading of the tie-break *)

(** The place of the first occurrence of [x] in [l], counted from 0;
    [length l] when there is none. *)
Fixpoint index_of (l : list IntersectionId) (x : IntersectionId) : nat :=
  match l with
  | [] => 0
  | y :: l' => if decide (y = x) then 0 else S (index_of l' x)
  end.

(** [discovered_before net p q]: the paths [p] and [q] start at the same
    intersection, and where they first part, after a common intersection
    [a], the next intersection of [p] comes before that of [q] in the
    adjacency listing of [a]. A search that walks every adjacency list
    front to back comes upon [p] before it comes upon [q]. *)
Fixpoint discovered_before (net : RoadNetwork)
    (p q : list IntersectionId) : bool :=
  match p, q with
  | a :: p', b :: q' =>
      bool_decide (a = b)
      && match p', q' with
         | x :: _, y :: _ =>
             if decide (x = y) then discovered_before net p' q'
             else bool_decide (index_of (neighbors net a) x
                               < index_of (neighbors net a) y)%nat
         | _, _ => false
         end
  | _, _ => false
  end.

(** The order of the queue between two rounds of the search from
    [from_id]: the queue is [qa ++ qb] as in [bfs_inv]; each part is in the
    order of discovery; a path of [qb] extends a path that came before
    every path still in [qa]; and every queued path comes before every
    other walk of its length from [from_id] to its last intersection. *)
Record bfs_order (net : RoadNetwork) (from_id : IntersectionId)
    (qa qb : list (list IntersectionId)) : Prop := mk_bfs_order {
  ord_a : StronglySorted (λ p q, discovered_before net p q = true) qa;
  ord_b : StronglySorted (λ p q, discovered_before net p q = true) qb;
  ord_ab : ∀ p q, p ∈ qb → q ∈ qa →
      discovered_before net (removelast p) q = true;
  ord_first : ∀ p w, p ∈ qa ++ qb →
      head w = Some from_id → is_walk net w →
      length w = length p → last w = last p →
      w = p ∨ discovered_before net p w = true;
}.

(** What the tie-break asks of the result [r]: every other path of its
    length between the two intersections is discovered after it. *)
Definition first_discovered (net : RoadNetwork) (from_id to_id : IntersectionId)
    (r : list IntersectionId) : Prop :=
  ∀ p, path_between net from_id to_id p → length p = length r →
       p = r ∨ discovered_before net r p = true.

(** * Properties *)

(** ** Results *)

Lemma bind_Ok {A B : Type} (r : result A) (k : A → result B) (b : B) :
  bind r k = Ok b ↔ ∃ a, r = Ok a ∧ k a = Ok b.
Proof.
  destruct r as [a|e]; simpl; split.
  - eauto.
  - by intros (a' & [= <-] & ?).
  - discriminate.
  - by intros (a' & ? & _).
Qed.

(** ** Intersections *)

Lemma Intersection_ext (i j : Intersection) :
  intersection_id i = intersection_id j →
  position i = position j →
  incoming_roads i = incoming_roads j →
  outgoing_roads i = outgoing_roads j →
  signal_states i = signal_states j →
  i = j.
Proof. destruct i, j; simpl; congruence. Qed.

Lemma same_junction_refl i : same_junction i i.
Proof. by repeat split. Qed.

Lemma same_junction_trans i j k :
  same_junction i j → same_junction j k → same_junction i k.
Proof. unfold same_junction. intros (?&?&?&?) (?&?&?&?). repeat split; congruence. Qed.

Lemma set_signal_junction i d s : same_junction (set_signal i d s) i.
Proof. by repeat split. Qed.

Lemma foldl_set_signal_junction (f : Direction → SignalState) l i :
  same_junction (foldl (λ acc d, set_signal acc d (f d)) i l) i.
Proof.
  revert i. induction l as [|d l IH]; intros i; simpl.
  - apply same_junction_refl.
  - eapply same_junction_trans; [apply IH | apply set_signal_junction].
Qed.

Lemma foldl_set_signal_lookup (s : SignalState) l i x :
  signal_states (foldl (λ acc d, set_signal acc d s) i l) !! x
  = if decide (x ∈ l) then Some s else signal_states i !! x.
Proof.
  revert i. induction l as [|d l IH]; intros i; cbn [foldl].
  - by rewrite decide_False by apply not_elem_of_nil.
  - rewrite IH. cbn [set_signal signal_states].
    destruct (decide (x ∈ l)) as [Hl|Hl].
    + rewrite decide_True; [done | by right].
    + destruct (decide (x = d)) as [->|Hne].
      * rewrite decide_True; [by rewrite lookup_insert_eq | by left].
      * rewrite decide_False; [by rewrite lookup_insert_ne|].
        by intros [?|?]%elem_of_cons.
Qed.

Lemma all_directions_complete d : d ∈ all_directions.
Proof. unfold all_directions. destruct d; set_solver. Qed.

Lemma set_all_red_lookup i d : signal_states (set_all_red i) !! d = Some RED.
Proof.
  unfold set_all_red. rewrite foldl_set_signal_lookup.
  by rewrite decide_True by apply all_directions_complete.
Qed.

Lemma set_all_red_junction i : same_junction (set_all_red i) i.
Proof. apply (foldl_set_signal_junction (λ _, RED)). Qed.

Lemma _apply_phase_lookup i phase d :
  signal_states (_apply_phase i phase) !! d
  = Some (if decide (d ∈ green_directions phase) then state phase else RED).
Proof.
  unfold _apply_phase. rewrite foldl_set_signal_lookup, set_all_red_lookup.
  destruct (decide (d ∈ green_directions phase)) as [Hd|Hd].
  - rewrite decide_True; [done | by apply elem_of_elements].
  - rewrite decide_False; [done | by rewrite elem_of_elements].
Qed.

Lemma _apply_phase_junction i phase : same_junction (_apply_phase i phase) i.
Proof.
  unfold _apply_phase.
  eapply same_junction_trans;
    [apply (foldl_set_signal_junction (λ _, state phase))
    | apply set_all_red_junction].
Qed.

Lemma _apply_preemption_lookup i d x :
  signal_states (_apply_preemption i d).2 !! x
  = Some (if decide (x = d) then GREEN else RED).
Proof.
  unfold _apply_preemption. cbn [snd set_signal signal_states].
  destruct (decide (x = d)) as [->|Hne].
  - by rewrite lookup_insert_eq.
  - by rewrite lookup_insert_ne, set_all_red_lookup.
Qed.

Lemma _apply_preemption_junction i d : same_junction (_apply_preemption i d).2 i.
Proof.
  unfold _apply_preemption. cbn [snd].
  eapply same_junction_trans;
    [apply set_signal_junction | apply set_all_red_junction].
Qed.

(** What an update leaves on the signals does not depend on what they showed
    before. *)
Lemma _apply_phase_forgets i j phase :
  same_junction i j → _apply_phase i phase = _apply_phase j phase.
Proof.
  intros Hij.
  destruct (_apply_phase_junction i phase) as (?&?&?&?).
  destruct (_apply_phase_junction j phase) as (?&?&?&?).
  destruct Hij as (?&?&?&?).
  apply Intersection_ext; try congruence.
  apply map_eq. intros d. by rewrite !_apply_phase_lookup.
Qed.

Lemma elem_of_lit_directions i d :
  d ∈ lit_directions i
  ↔ signal_states i !! d = Some GREEN ∨ signal_states i !! d = Some YELLOW.
Proof.
  unfold lit_directions.
  rewrite elem_of_list_to_set, list_elem_of_filter.
  pose proof (all_directions_complete d). tauto.
Qed.

Lemma lit_directions_shown i (G : gset Direction) (s : SignalState) :
  s ≠ RED →
  (∀ d, signal_states i !! d = Some (if decide (d ∈ G) then s else RED)) →
  lit_directions i = G.
Proof.
  intros Hs Hshow. apply set_eq. intros d.
  rewrite elem_of_lit_directions, Hshow.
  destruct (decide (d ∈ G)) as [Hd|Hd].
  - split; [done|]. intros _. destruct s; [done | by right | by left].
  - split; [|done]. by intros [[=]|[=]].
Qed.

(** ** Phase lookup *)

Lemma sum_take_S_cons (p0 : SignalPhase) ps (k : nat) :
  foldr Z.add 0 (duration <$> take (S k) (p0 :: ps))
  = duration p0 + foldr Z.add 0 (duration <$> take k ps).
Proof. reflexivity. Qed.

Lemma sum_take_0 (ps : list SignalPhase) :
  foldr Z.add 0 (duration <$> take 0 ps) = 0.
Proof. reflexivity. Qed.

Lemma scan_phases_Some offset elapsed ps phase :
  scan_phases offset elapsed ps = Some phase →
  ∃ k : nat,
    ps !! k = Some phase
    ∧ offset < elapsed + foldr Z.add 0 (duration <$> take (S k) ps)
    ∧ ∀ j : nat, (j < k)%nat →
        ¬ offset < elapsed + foldr Z.add 0 (duration <$> take (S j) ps).
Proof.
  revert elapsed. induction ps as [|p0 ps IH]; intros elapsed; cbn [scan_phases].
  - discriminate.
  - case_bool_decide as Hlt.
    + intros [= <-]. exists 0%nat. split; [done|]. split.
      * rewrite sum_take_S_cons, sum_take_0. lia.
      * intros j Hj. lia.
    + intros Hscan. destruct (IH _ Hscan) as (k & Hk & Hex & Hmin).
      exists (S k). split; [done|]. split.
      * rewrite sum_take_S_cons. lia.
      * intros [|j] Hj; rewrite sum_take_S_cons.
        -- rewrite sum_take_0. lia.
        -- specialize (Hmin j ltac:(lia)). lia.
Qed.

Lemma scan_phases_None offset elapsed ps :
  scan_phases offset elapsed ps = None →
  ∀ j : nat, (j < length ps)%nat →
    ¬ offset < elapsed + foldr Z.add 0 (duration <$> take (S j) ps).
Proof.
  revert elapsed. induction ps as [|p0 ps IH]; intros elapsed; cbn [scan_phases].
  - intros _ j Hj. simpl in Hj. lia.
  - case_bool_decide as Hlt; [discriminate|].
    intros Hscan [|j] Hj; rewrite sum_take_S_cons.
    + rewrite sum_take_0. lia.
    + simpl in Hj. specialize (IH _ Hscan j ltac:(lia)). lia.
Qed.

Lemma List_last_Some {A : Type} (l : list A) (x : A) :
  l ≠ [] → last l = Some (List.last l x).
Proof.
  induction l as [|a l IH]; [done|]. intros _.
  destruct l as [|b l]; [done|].
  rewrite last_cons_cons. change (List.last (a :: b :: l) x) with (List.last (b :: l) x).
  by apply IH.
Qed.

(** When the lookup returns. *)
Lemma phase_at_tick_returns p tick :
  returns (phase_at_tick p tick) ↔ phases p ≠ [] ∧ cycle_length p ≠ 0.
Proof.
  unfold returns, phase_at_tick, py_mod.
  destruct (phases p) as [|first rest] eqn:Hps.
  - split; [by intros [? [=]] | by intros [[] _]].
  - case_bool_decide as Hc; cbn [bind].
    + split; [by intros [? [=]] | by intros [_ []]].
    + split; [done|]. intros _. destruct (scan_phases _ _ _); eauto.
Qed.

Lemma phase_at_tick_empty tick : phase_at_tick (mkSignalPlan []) tick = Raise ValueError.
Proof. reflexivity. Qed.

(** ** Updates of the fixed-time controller *)

Lemma update_preempting c i tick d :
  preempting c = Some d → update c i tick = Ok (_apply_preemption i d).
Proof.
  unfold preempting, update. destruct (_preemption_active c); [|done].
  by intros ->.
Qed.

Lemma update_normal c i tick :
  preempting c = None →
  update c i tick
  = (phase ←! phase_at_tick (plan c) tick; Ok (phase, _apply_phase i phase)).
Proof.
  unfold preempting, update. destruct (_preemption_active c); [|done].
  by intros ->.
Qed.

Lemma update_returns c i tick :
  returns (update c i tick)
  ↔ is_Some (preempting c) ∨ (phases (plan c) ≠ [] ∧ cycle_length (plan c) ≠ 0).
Proof.
  destruct (preempting c) as [d|] eqn:Hp.
  - rewrite (update_preempting _ _ _ _ Hp). unfold returns. split; eauto.
  - rewrite (update_normal _ _ _ Hp), <- phase_at_tick_returns.
    unfold returns. split.
    + intros [[ph i'] Hb]. apply bind_Ok in Hb as (ph' & ? & _). eauto.
    + intros [[? [=]]|[ph Hph]]. rewrite Hph. simpl. eauto.
Qed.

Lemma update_forgets c i j tick :
  same_junction i j →
  preempting c = None →
  update c i tick = update c j tick.
Proof.
  intros Hij Hp. rewrite !update_normal by done.
  destruct (phase_at_tick (plan c) tick) as [phase|e]; simpl; [|done].
  by rewrite (_apply_phase_forgets i j).
Qed.

Lemma update_junction c i tick phase i' :
  update c i tick = Ok (phase, i') → same_junction i' i.
Proof.
  destruct (preempting c) as [d|] eqn:Hp.
  - rewrite (update_preempting _ _ _ _ Hp). intros [= _ <-].
    apply (_apply_preemption_junction i d).
  - rewrite (update_normal _ _ _ Hp). intros Hb.
    apply bind_Ok in Hb as (ph & _ & [= _ <-]). apply _apply_phase_junction.
Qed.

(** ** Claims about the signal authority *)

(** C1. After [FixedTimeController.update] returns, every direction in the
    green-direction set of the returned phase shows that phase's state and
    every other direction shows RED. The returned phase is the plan's phase
    at that tick or, while a preemption is held, the phase whose only green
    direction is the preempted one, in state GREEN. Hence the directions
    showing GREEN or YELLOW are exactly that phase's green directions (the
    state tag of a phase being GREEN or YELLOW), and exactly the preempted
    direction during preemption. *)
Theorem update_signal_exclusivity c i tick phase i' :
  update c i tick = Ok (phase, i') →
  (∀ d, preempting c = Some d →
     phase = mkSignalPhase {[d]} 0 GREEN ∧ lit_directions i' = {[d]})
  ∧ (preempting c = None → phase_at_tick (plan c) tick = Ok phase)
  ∧ (∀ d, signal_states i' !! d
          = Some (if decide (d ∈ green_directions phase) then state phase
                  else RED))
  ∧ (state phase ≠ RED → lit_directions i' = green_directions phase).
Proof.
  intros Hup.
  assert (Hshow : ∀ d, signal_states i' !! d
            = Some (if decide (d ∈ green_directions phase) then state phase
                    else RED)).
  { destruct (preempting c) as [d0|] eqn:Hp.
    - rewrite (update_preempting _ _ _ _ Hp) in Hup.
      injection Hup as <- <-. intros d.
      pose proof (_apply_preemption_lookup i d0 d) as Hl.
      unfold _apply_preemption in Hl. cbn [snd] in Hl. rewrite Hl.
      cbn [green_directions state].
      destruct (decide (d = d0)) as [->|Hne].
      + rewrite decide_True; [done | set_solver].
      + rewrite decide_False; [done | set_solver].
    - rewrite (update_normal _ _ _ Hp) in Hup.
      apply bind_Ok in Hup as (ph & _ & [= <- <-]).
      intros d. apply _apply_phase_lookup. }
  assert (Hlit : state phase ≠ RED → lit_directions i' = green_directions phase).
  { intros Hs. by apply (lit_directions_shown i' _ (state phase)). }
  split; [|split; [|by split]].
  - intros d Hp. pose proof Hup as Hup'.
    rewrite (update_preempting _ _ _ _ Hp) in Hup'. injection Hup' as Hph _.
    split; [done|]. rewrite Hlit; by rewrite <- Hph.
  - intros Hp. rewrite (update_normal _ _ _ Hp) in Hup.
    by apply bind_Ok in Hup as (ph & ? & [= <- _]).
Qed.

(** The default plan at tick 31 is in its north-south YELLOW phase. *)
Lemma update_signal_exclusivity_witness :
  let c := FixedTimeController_init (default_four_way 30 5) in
  let i := Intersection_init "I-0-0" (0, 0) in
  let phase := mkSignalPhase {[NORTH; SOUTH]} 5 YELLOW in
  update c i 31 = Ok (phase, _apply_phase i phase)
  ∧ state phase ≠ RED
  ∧ lit_directions (_apply_phase i phase) = {[NORTH; SOUTH]}.
Proof.
  intros c i phase.
  assert (Hup : update c i 31 = Ok (phase, _apply_phase i phase))
    by reflexivity.
  assert (Hs : state phase ≠ RED) by discriminate.
  split; [exact Hup|]. split; [exact Hs|].
  exact (proj2 (proj2 (proj2 (update_signal_exclusivity c i 31 _ _ Hup))) Hs).
Defined.

(** C2 (as the code has it). For every plan with a non-empty phase list and
    a cycle length other than zero, [phase_at_tick(T)] returns the first
    phase in order whose cumulative duration strictly exceeds
    [T mod cycle_length], and the last phase of the plan if no phase's
    cumulative end exceeds that offset. *)
Theorem phase_at_tick_first_exceeding p tick :
  phases p ≠ [] →
  cycle_length p ≠ 0 →
  ∃ phase,
    phase_at_tick p tick = Ok phase
    ∧ (first_exceeding p (tick `mod` cycle_length p) phase
       ∨ (none_exceeding p (tick `mod` cycle_length p)
          ∧ last (phases p) = Some phase)).
Proof.
  intros Hne Hc. unfold phase_at_tick, py_mod.
  destruct (phases p) as [|first rest] eqn:Hps; [done|].
  rewrite bool_decide_eq_false_2 by done. cbn [bind].
  destruct (scan_phases _ 0 (first :: rest)) as [phase|] eqn:Hscan.
  - exists phase. split; [done|]. left.
    apply scan_phases_Some in Hscan as (k & Hk & Hex & Hmin).
    exists k. unfold cumulative_end. rewrite Hps.
    split; [done|]. split; [lia|]. intros j Hj. specialize (Hmin j Hj). lia.
  - eexists. split; [done|]. right. split.
    + intros j Hj. unfold cumulative_end. rewrite Hps in *.
      pose proof (scan_phases_None _ _ _ Hscan j Hj). lia.
    + by apply List_last_Some.
Qed.

(** The default plan at tick 100. *)
Lemma phase_at_tick_first_exceeding_witness :
  ∃ phase,
    phase_at_tick (default_four_way 30 5) 100 = Ok phase
    ∧ (first_exceeding (default_four_way 30 5)
         (100 `mod` cycle_length (default_four_way 30 5)) phase
       ∨ (none_exceeding (default_four_way 30 5)
            (100 `mod` cycle_length (default_four_way 30 5))
          ∧ last (phases (default_four_way 30 5)) = Some phase)).
Proof.
  apply (phase_at_tick_first_exceeding (default_four_way 30 5) 100).
  - discriminate.
  - vm_compute. discriminate.
Defined.

(** C2, as stated, fails: the four-way plan built with durations of zero
    ticks has a non-empty phase list, and its lookup divides by zero
    instead of returning a phase. *)
Lemma phase_at_tick_zero_cycle_raises :
  phases (default_four_way 0 0) ≠ []
  ∧ phase_at_tick (default_four_way 0 0) 7 = Raise ZeroDivisionError.
Proof. split; [discriminate | reflexivity]. Qed.

(** The fallback is taken by a plan of negative durations: no cumulative
    end exceeds the offset, and the last phase is returned. *)
Example phase_at_tick_falls_back :
  phase_at_tick
    (mkSignalPlan [mkSignalPhase {[NORTH; SOUTH]} (-1) GREEN;
                   mkSignalPhase {[EAST; WEST]} (-1) GREEN]) 4
  = Ok (mkSignalPhase {[EAST; WEST]} (-1) GREEN).
Proof. reflexivity. Qed.

(** C3. For every tick, intersection and direction, [request_preemption(d)]
    followed by [release_preemption()] and [update(intersection, T)] gives
    the signal states and the returned phase that [update(intersection, T)]
    gives on a controller that never entered preemption; this also holds
    when updates ran on the intersection while the preemption was held. *)
Theorem release_restores_normal_mode c d i tick :
  update (release_preemption (request_preemption c d)) i tick
  = update (FixedTimeController_init (plan c)) i tick
  ∧ ∀ tick0 phase0 i0,
      update (request_preemption c d) i tick0 = Ok (phase0, i0) →
      update (release_preemption (request_preemption c d)) i0 tick
      = update (FixedTimeController_init (plan c)) i tick.
Proof.
  split; [reflexivity|].
  intros tick0 phase0 i0 Hheld.
  apply update_junction in Hheld.
  change (release_preemption (request_preemption c d))
    with (FixedTimeController_init (plan c)).
  by apply update_forgets.
Qed.

(** A preemption for EAST held over tick 3 and released before tick 4. *)
Lemma release_restores_normal_mode_witness :
  let c := FixedTimeController_init (default_four_way 30 5) in
  let i := Intersection_init "I-0-0" (0, 0) in
  update (request_preemption c EAST) i 3 = Ok (_apply_preemption i EAST)
  ∧ update (release_preemption (request_preemption c EAST))
      (_apply_preemption i EAST).2 4
    = update c i 4.
Proof.
  intros c i.
  assert (Hheld : update (request_preemption c EAST) i 3
                  = Ok (_apply_preemption i EAST)) by reflexivity.
  split; [exact Hheld|].
  exact (proj2 (release_restores_normal_mode c EAST i 4) 3 _ _ Hheld).
Defined.

Lemma Ok_inj {A : Type} (a b : A) : Ok a = Ok b → a = b.
Proof. intros H. by injection H. Qed.

Lemma request_twice_same_iff c d1 d2 i tick :
  update (request_preemption (request_preemption c d1) d2) i tick
  = update (request_preemption c d1) i tick ↔ d1 = d2.
Proof.
  split; [|by intros ->].
  intros Heq.
  assert (Hd : signal_states (_apply_preemption i d2).2 !! d1
               = signal_states (_apply_preemption i d1).2 !! d1).
  { change (update (request_preemption (request_preemption c d1) d2) i tick)
      with (Ok (_apply_preemption i d2)) in Heq.
    change (update (request_preemption c d1) i tick)
      with (Ok (_apply_preemption i d1)) in Heq.
    apply Ok_inj in Heq. by rewrite Heq. }
  rewrite !_apply_preemption_lookup in Hd.
  rewrite (decide_True (P := d1 = d1)) in Hd by done.
  by destruct (decide (d1 = d2)).
Qed.

(** C4 (as the code has it). For every pair of directions d1, d2: after
    [request_preemption(d1)], and before any release, a second call
    [request_preemption(d2)] replaces the held direction: every subsequent
    update behaves as if d2 alone had been requested, holding d2 GREEN and
    every other direction RED. The second call changes nothing exactly when
    d2 is d1. *)
Theorem second_request_replaces_direction c d1 d2 i tick :
  update (request_preemption (request_preemption c d1) d2) i tick
  = update (request_preemption c d2) i tick
  ∧ (∃ i',
       update (request_preemption (request_preemption c d1) d2) i tick
       = Ok (mkSignalPhase {[d2]} 0 GREEN, i')
       ∧ ∀ d, signal_states i' !! d
              = Some (if decide (d = d2) then GREEN else RED))
  ∧ (update (request_preemption (request_preemption c d1) d2) i tick
     = update (request_preemption c d1) i tick ↔ d1 = d2).
Proof.
  split; [reflexivity|]. split.
  - eexists. split; [reflexivity|]. intros d.
    apply (_apply_preemption_lookup i d2 d).
  - apply request_twice_same_iff.
Qed.

(** WEST requested twice. *)
Lemma second_request_replaces_direction_witness :
  let c := FixedTimeController_init (default_four_way 30 5) in
  let i := Intersection_init "I-0-0" (0, 0) in
  update (request_preemption (request_preemption c WEST) WEST) i 9
  = update (request_preemption c WEST) i 9.
Proof.
  intros c i.
  exact (proj2 (proj2 (proj2 (second_request_replaces_direction c WEST WEST i 9)))
           eq_refl).
Defined.

(** C4, as stated, fails: with NORTH held, a second request for EAST is not
    ignored; the next update shows EAST GREEN and NORTH RED. *)
Lemma second_request_not_ignored :
  let c := FixedTimeController_init (default_four_way 30 5) in
  let i := Intersection_init "I-0-0" (0, 0) in
  ∃ i',
    update (request_preemption (request_preemption c NORTH) EAST) i 0
    = Ok (mkSignalPhase {[EAST]} 0 GREEN, i')
    ∧ signal_states i' !! NORTH = Some RED
    ∧ signal_states i' !! EAST = Some GREEN
    ∧ update (request_preemption (request_preemption c NORTH) EAST) i 0
      ≠ update (request_preemption c NORTH) i 0.
Proof.
  intros c i. eexists. split; [reflexivity|].
  split; [reflexivity|]. split; [reflexivity|].
  intros Heq. by apply request_twice_same_iff in Heq.
Qed.

(** ** Roads *)

Lemma Road_post_init_cells r :
  cells r = [] →
  length (cells (Road_post_init r)) = Z.to_nat (num_cells r).
Proof.
  intros Hc. unfold Road_post_init, py_range. rewrite Hc. cbn [cells].
  by rewrite !length_fmap, length_seq.
Qed.

Lemma occupied_cells_bounds r :
  0 ≤ occupied_cells r ≤ Z.of_nat (length (cells r)).
Proof.
  unfold occupied_cells.
  pose proof (length_filter (λ c, is_empty c = false) (cells r)). lia.
Qed.

(** ** Rounding to a double *)

Lemma round_half_even_le (n d K : Z) :
  0 < d → n ≤ K * d → round_half_even n d ≤ K.
Proof.
  intros Hd Hn. unfold round_half_even.
  pose proof (Z.div_mod n d ltac:(lia)) as Hdiv.
  pose proof (Z.mod_pos_bound n d Hd) as Hmod.
  assert (Hq : n / d ≤ K) by nia.
  assert (Hq1 : 0 < n mod d → n / d + 1 ≤ K) by nia.
  repeat case_match; lia.
Qed.

Lemma round_half_even_ge (n d K : Z) :
  0 < d → K * d ≤ n → K ≤ round_half_even n d.
Proof.
  intros Hd Hn. unfold round_half_even.
  pose proof (Z.div_mod n d ltac:(lia)) as Hdiv.
  pose proof (Z.mod_pos_bound n d Hd) as Hmod.
  assert (Hq : K ≤ n / d) by nia.
  repeat case_match; lia.
Qed.

Lemma floor_log2_quot_le (n d : Z) :
  0 < n → 0 < d → 0 ≤ floor_log2_quot n d →
  d * 2 ^ floor_log2_quot n d ≤ n.
Proof.
  intros Hn Hd. unfold floor_log2_quot.
  set (k := Z.log2 n - Z.log2 d).
  destruct (Z.log2_spec n Hn) as [Hn1 _].
  destruct (Z.log2_spec d Hd) as [_ Hd2].
  pose proof (Z.log2_nonneg n). pose proof (Z.log2_nonneg d).
  destruct (0 <=? k) eqn:Hk.
  - destruct (d * 2 ^ k <=? n) eqn:Hle; [lia|].
    intros Hk1.
    assert (Hpow : 2 ^ Z.log2 n = 2 ^ Z.succ (Z.log2 d) * 2 ^ (k - 1)).
    { rewrite <- Z.pow_add_r by lia. f_equal. lia. }
    assert (0 < 2 ^ (k - 1)) by (apply Z.pow_pos_nonneg; lia).
    nia.
  - destruct (d <=? n * 2 ^ (- k)); lia.
Qed.

Lemma scale2_le (m e N : Z) :
  (0 ≤ e → m * 2 ^ e ≤ N) → (e < 0 → m ≤ N * 2 ^ (- e)) →
  (scale2 m e <= inject_Z N)%Q.
Proof.
  intros Hpos Hneg. unfold scale2. destruct (0 <=? e) eqn:He.
  - rewrite <- Zle_Qle. apply Hpos. lia.
  - assert (0 < 2 ^ (- e)) by (apply Z.pow_pos_nonneg; lia).
    unfold Qle, inject_Z. cbn [Qnum Qden].
    rewrite Z2Pos.id by done. specialize (Hneg ltac:(lia)). lia.
Qed.

Lemma scale2_ge (m e N : Z) :
  (0 ≤ e → N ≤ m * 2 ^ e) → (e < 0 → N * 2 ^ (- e) ≤ m) →
  (inject_Z N <= scale2 m e)%Q.
Proof.
  intros Hpos Hneg. unfold scale2. destruct (0 <=? e) eqn:He.
  - rewrite <- Zle_Qle. apply Hpos. lia.
  - assert (0 < 2 ^ (- e)) by (apply Z.pow_pos_nonneg; lia).
    unfold Qle, inject_Z. cbn [Qnum Qden].
    rewrite Z2Pos.id by done. specialize (Hneg ltac:(lia)). lia.
Qed.

(** No quotient rounds beyond a whole number of at most 53 bits that bounds it:
    such a number is a double. *)
Lemma nearest_double_le (n d N : Z) :
  0 ≤ n → 0 < d → 0 ≤ N ≤ 2 ^ 53 → n ≤ N * d →
  ∃ q, nearest_double n d = Some q ∧ (0 <= q <= inject_Z N)%Q.
Proof.
  intros Hn Hd HN Hle. unfold nearest_double.
  destruct (n =? 0) eqn:Hz.
  { exists 0%Q. split; [done|]. split; [done|].
    change 0%Q with (inject_Z 0). rewrite <- Zle_Qle. lia. }
  set (l := floor_log2_quot n d).
  set (e := Z.max (l - 52) (-1074)).
  assert (Hcase : e ≤ 0 ∨ (e = 1 ∧ n = 2 ^ 53 * d ∧ N = 2 ^ 53)).
  { destruct (decide (e ≤ 0)) as [|Hpos]; [by left|]. right.
    assert (Hl : 0 ≤ l) by lia.
    pose proof (floor_log2_quot_le n d ltac:(lia) Hd Hl) as Hlow.
    fold l in Hlow.
    assert (Hl53 : l ≤ 53).
    { destruct (decide (l ≤ 53)) as [|Hbig]; [done|]. exfalso.
      assert (2 ^ 54 ≤ 2 ^ l) by (apply Z.pow_le_mono_r; lia). nia. }
    assert (l = 53) as Hl' by lia.
    rewrite Hl' in Hlow. split; [lia|]. nia. }
  destruct Hcase as [He|(He & Hn' & HN')].
  - set (m := if 0 <=? e then round_half_even n (d * 2 ^ e)
              else round_half_even (n * 2 ^ (- e)) d).
    assert (H2 : 0 < 2 ^ (- e)) by (apply Z.pow_pos_nonneg; lia).
    assert (Hm : 0 ≤ m ≤ N * 2 ^ (- e)).
    { unfold m. destruct (0 <=? e) eqn:He0.
      - assert (e = 0) as -> by lia.
        change (2 ^ 0) with 1. change (2 ^ (- 0)) with 1.
        split; [apply round_half_even_ge | apply round_half_even_le]; lia.
      - split; [apply round_half_even_ge | apply round_half_even_le]; nia. }
    assert (Hno : (0 <=? e) && (2 ^ 1024 <=? m * 2 ^ e) = false).
    { destruct (0 <=? e) eqn:He0; [|done].
      assert (e = 0) as He00 by lia. rewrite He00 in *.
      change (2 ^ 0) with 1 in *. change (2 ^ (- 0)) with 1 in *.
      apply andb_false_intro2, Z.leb_gt.
      assert (2 ^ 53 < 2 ^ 1024) by (apply Z.pow_lt_mono_r; lia). lia. }
    rewrite Hno. exists (scale2 m e). split; [done|]. split.
    + change 0%Q with (inject_Z 0). apply scale2_ge; intros; nia.
    + apply scale2_le; intros; [|lia].
      assert (e = 0) as He00 by lia. rewrite He00 in *.
      change (2 ^ 0) with 1. change (2 ^ (- 0)) with 1 in *. lia.
  - rewrite He, Hn', HN'. cbn [Z.leb Z.compare andb].
    assert (Hm : round_half_even (2 ^ 53 * d) (d * 2 ^ 1) = 2 ^ 52).
    { apply Z.le_antisymm;
        [apply round_half_even_le | apply round_half_even_ge]; lia. }
    rewrite Hm. exists (scale2 (2 ^ 52) 1). split; [done|]. done.
Qed.

Lemma nearest_double_ge (n d N : Z) q :
  0 ≤ n → 0 < d → 0 ≤ N ≤ 2 ^ 53 → N * d ≤ n →
  nearest_double n d = Some q → (inject_Z N <= q)%Q.
Proof.
  intros Hn Hd HN Hle. unfold nearest_double.
  destruct (n =? 0) eqn:Hz.
  { intros [= <-]. change 0%Q with (inject_Z 0). rewrite <- Zle_Qle. nia. }
  set (l := floor_log2_quot n d).
  set (e := Z.max (l - 52) (-1074)).
  destruct (_ && _); [done|]. intros [= <-].
  destruct (0 <=? e) eqn:He0.
  - apply scale2_ge; [intros _|lia].
    assert (0 < 2 ^ e) by (apply Z.pow_pos_nonneg; lia).
    destruct (decide (e = 0)) as [He|He].
    + rewrite He. change (2 ^ 0) with 1.
      pose proof (round_half_even_ge n (d * 1) N ltac:(lia) ltac:(lia)). lia.
    + assert (Hl : 0 ≤ l) by lia.
      pose proof (floor_log2_quot_le n d ltac:(lia) Hd Hl) as Hlow.
      fold l in Hlow. assert (l = e + 52) as Hl' by lia. rewrite Hl' in Hlow.
      rewrite Z.pow_add_r in Hlow by lia.
      pose proof (round_half_even_ge n (d * 2 ^ e) (2 ^ 52)
                    ltac:(lia) ltac:(lia)).
      assert (2 ^ 1 ≤ 2 ^ e) by (apply Z.pow_le_mono_r; lia).
      change (2 ^ 1) with 2 in *. change (2 ^ 53) with (2 ^ 52 * 2) in HN.
      nia.
  - assert (H2 : 0 < 2 ^ (- e)) by (apply Z.pow_pos_nonneg; lia).
    apply scale2_ge; [lia|intros _].
    apply round_half_even_ge; nia.
Qed.

Lemma py_truediv_zero (b : Z) : b ≠ 0 → py_truediv 0 b = Ok 0%Q.
Proof. intros Hb. unfold py_truediv. by rewrite bool_decide_eq_false_2. Qed.

Lemma py_truediv_divisor (a b : Z) :
  b ≠ 0 → py_truediv a b ≠ Raise ZeroDivisionError.
Proof.
  intros Hb. unfold py_truediv. rewrite bool_decide_eq_false_2 by done.
  by destruct (nearest_double (Z.abs a) (Z.abs b)).
Qed.

(** The quotient of two ints between whole numbers of at most 53 bits is a
    float between them. *)
Lemma py_truediv_between (a b lo hi : Z) :
  0 < b → - 2 ^ 53 ≤ lo → hi ≤ 2 ^ 53 → lo * b ≤ a ≤ hi * b →
  ∃ q, py_truediv a b = Ok q ∧ (inject_Z lo <= q <= inject_Z hi)%Q.
Proof.
  intros Hb Hlo Hhi [Hl Hh]. unfold py_truediv.
  rewrite bool_decide_eq_false_2 by lia.
  rewrite (Z.abs_eq b), (Z.sgn_pos b), Z.mul_1_r by lia.
  assert (Hlohi : lo ≤ hi) by nia.
  destruct (Z_lt_le_dec a 0) as [Hneg|Hpos].
  - rewrite (Z.abs_neq a), (Z.sgn_neg a) by lia.
    assert (lo < 0) by nia.
    destruct (nearest_double_le (- a) b (- lo)) as (q & Hq & Hq0 & Hqlo);
      [lia..|].
    rewrite Hq. eexists. split; [done|]. rewrite Qred_correct.
    assert (Hopp : (inject_Z (-1) * q == - q)%Q) by (unfold inject_Z; ring).
    rewrite Hopp. rewrite inject_Z_opp in Hqlo. split; [lra|].
    destruct (Z_lt_le_dec hi 0) as [Hhneg|Hhpos].
    + pose proof (nearest_double_ge (- a) b (- hi) q
                    ltac:(lia) Hb ltac:(lia) ltac:(lia) Hq) as Hge.
      rewrite inject_Z_opp in Hge. lra.
    + assert (0 <= inject_Z hi)%Q
        by (change 0%Q with (inject_Z 0); by rewrite <- Zle_Qle).
      lra.
  - rewrite (Z.abs_eq a) by lia.
    assert (0 ≤ hi) by nia.
    destruct (nearest_double_le a b hi) as (q & Hq & Hq0 & Hqhi); [lia..|].
    rewrite Hq. eexists. split; [done|]. rewrite Qred_correct.
    destruct (decide (a = 0)) as [->|Hne].
    + assert (Hz : (inject_Z (Z.sgn 0) * q == 0)%Q) by (unfold inject_Z; simpl; ring).
      rewrite Hz.
      assert (inject_Z lo <= 0)%Q
        by (change 0%Q with (inject_Z 0); rewrite <- Zle_Qle; nia).
      lra.
    + rewrite (Z.sgn_pos a) by lia.
      assert (Hone : (inject_Z 1 * q == q)%Q) by (unfold inject_Z; ring).
      rewrite Hone. split; [|done].
      destruct (Z_lt_le_dec lo 0) as [Hlneg|Hlpos].
      * assert (inject_Z lo <= 0)%Q
          by (change 0%Q with (inject_Z 0); rewrite <- Zle_Qle; lia).
        lra.
      * apply (nearest_double_ge a b lo q); [lia..|done].
Qed.

(** ** Occupancy of a road *)

(** X28. [Road.occupancy] never raises ZeroDivisionError and is 0.0 when
    [num_cells == 0]. On a road whose cell list holds [num_cells] cells, as
    [__post_init__] builds it when no list is handed in, it returns a float
    in the closed interval from 0.0 to 1.0. *)
Theorem occupancy_unit_interval r :
  occupancy r ≠ Raise ZeroDivisionError
  ∧ (num_cells r = 0 → occupancy r = Ok 0%Q)
  ∧ (length (cells r) = Z.to_nat (num_cells r) →
     ∃ q, occupancy r = Ok q ∧ (0 <= q <= 1)%Q).
Proof.
  unfold occupancy. split; [|split].
  - case_bool_decide; [done | by apply py_truediv_divisor].
  - intros Hz. by rewrite bool_decide_eq_true_2.
  - intros Hlen. case_bool_decide as Hz.
    { exists 0%Q. split; [done|]. lra. }
    pose proof (occupied_cells_bounds r) as Hocc.
    destruct (Z_lt_le_dec (num_cells r) 0) as [Hneg|Hpos].
    + assert (occupied_cells r = 0) as -> by lia.
      rewrite py_truediv_zero by done. eexists. split; [done|]. lra.
    + destruct (py_truediv_between (occupied_cells r) (num_cells r) 0 1)
        as (q & Hq & Hq01); [lia..|].
      exists q. split; [done|]. exact Hq01.
Qed.

(** A road of two cells, one of them occupied: half full. *)
Lemma occupancy_unit_interval_witness :
  let v := mkVehicle "V-1" "I-0-0" "I-0-1" CAR (Some "R-0") 1 0 false 0 in
  let r := mkRoad "R-0" "I-0-0" "I-0-1" 2 1 [mkCell 0 None; mkCell 1 (Some v)] in
  length (cells r) = Z.to_nat (num_cells r)
  ∧ occupancy r = Ok (1 # 2)%Q
  ∧ ∃ q, occupancy r = Ok q ∧ (0 <= q <= 1)%Q.
Proof.
  intros v r.
  assert (Hlen : length (cells r) = Z.to_nat (num_cells r)) by reflexivity.
  split; [exact Hlen|]. split; [reflexivity|].
  exact (proj2 (proj2 (occupancy_unit_interval r)) Hlen).
Defined.

(** C10. [Road.occupancy] leaves the interval its docstring gives. The
    constructor keeps a cell list it is handed, whatever [num_cells] says,
    and [occupancy] divides the occupied cells of that list by
    [num_cells]: a road of one cell that was handed two occupied cells
    reports 2.0. *)
Theorem occupancy_above_one :
  let v1 := mkVehicle "V-1" "I-0-0" "I-0-1" CAR (Some "R-0") 0 0 false 0 in
  let v2 := mkVehicle "V-2" "I-0-0" "I-0-1" CAR (Some "R-0") 1 0 false 0 in
  let cs := [mkCell 0 (Some v1); mkCell 1 (Some v2)] in
  let r := mkRoad "R-0" "I-0-0" "I-0-1" 1 1 cs in
  Road_init "R-0" "I-0-0" "I-0-1" 1 1 cs = Ok r
  ∧ occupancy r = Ok 2%Q
  ∧ ¬ (2 <= 1)%Q.
Proof.
  intros v1 v2 cs r.
  split; [reflexivity|]. split; [reflexivity|].
  unfold Qle. simpl. lia.
Qed.

(** C7 (as the code has it). Neither an empty signal plan nor a road with
    zero cells is rejected at construction: both constructors return for
    every argument. An empty plan is rejected when a phase is looked up:
    [phase_at_tick] raises [ValueError] at every tick, and with it every
    normal-mode update of a controller that runs the plan. A road with zero
    cells is built with an empty cell list and reports occupancy 0.0. *)
Theorem degenerate_configuration_constructs :
  (∀ ps, SignalPlan_init ps = Ok (mkSignalPlan ps))
  ∧ (∀ rid src dst n speed cs, returns (Road_init rid src dst n speed cs))
  ∧ (∀ tick, phase_at_tick (mkSignalPlan []) tick = Raise ValueError)
  ∧ (∀ i tick,
       update (FixedTimeController_init (mkSignalPlan [])) i tick
       = Raise ValueError)
  ∧ (∀ rid src dst speed,
       Road_init rid src dst 0 speed [] = Ok (mkRoad rid src dst 0 speed [])
       ∧ occupancy (mkRoad rid src dst 0 speed []) = Ok 0%Q).
Proof.
  split; [done|]. split; [by eexists|]. split; [done|]. split; [done|].
  intros. by split.
Qed.

(** C7, as stated, fails: the empty plan and a road of zero cells are both
    constructed. *)
Lemma empty_plan_and_zero_cell_road_construct :
  SignalPlan_init [] = Ok (mkSignalPlan [])
  ∧ Road_init "R-0" "I-0-0" "I-0-1" 0 1 []
    = Ok (mkRoad "R-0" "I-0-0" "I-0-1" 0 1 []).
Proof. split; reflexivity. Qed.

(** ** Emergency vehicles *)

Lemma route_index_advance_n v (n : nat) :
  route_index (Nat.iter n advance_route v) = route_index v + Z.of_nat n
  ∧ route (Nat.iter n advance_route v) = route v.
Proof.
  induction n as [|n [IHi IHr]]; [split; [simpl; lia | done]|].
  rewrite Nat.iter_succ. cbn [advance_route route_index route].
  split; [lia | done].
Qed.

Lemma py_getitem_in_range {A : Type} (l : list A) (i : Z) :
  0 ≤ i < Z.of_nat (length l) →
  ∃ x, l !! Z.to_nat i = Some x ∧ py_getitem l i = Ok x.
Proof.
  intros Hi. unfold py_getitem. cbv zeta.
  rewrite (bool_decide_eq_false_2 (i < 0)) by lia.
  rewrite bool_decide_eq_true_2 by lia.
  destruct (l !! Z.to_nat i) as [x|] eqn:Hx; [eauto|].
  apply lookup_ge_None in Hx. lia.
Qed.

Lemma next_intersection_None v :
  next_intersection v = Ok None
  ↔ Z.of_nat (length (route v)) ≤ route_index v.
Proof.
  unfold next_intersection. case_bool_decide as Hlt.
  - split; [|lia]. destruct (py_getitem _ _); discriminate.
  - split; [lia|done].
Qed.

Lemma next_intersection_Some v :
  0 ≤ route_index v < Z.of_nat (length (route v)) →
  ∃ x, route v !! Z.to_nat (route_index v) = Some x
       ∧ next_intersection v = Ok (Some x).
Proof.
  intros Hi. unfold next_intersection.
  rewrite bool_decide_eq_true_2 by lia.
  destruct (py_getitem_in_range (route v) (route_index v) Hi) as (x & Hx & ->).
  eauto.
Qed.

(** C9 (as the code has it). For every emergency vehicle and any sequence of
    [advance_route] calls, [route_index] never decreases: each call adds
    one to it and leaves the route alone. [advance_route] itself does not
    bound it: it stays within the length of the route as long as the call is
    made only while [route_index < len(route)]. [next_intersection] is None
    exactly when [route_index >= len(route)], and returns
    [route[route_index]] whenever [route_index < len(route)]: the element at
    that position when [0 <= route_index], and what Python's indexing gives
    for a negative index. *)
Theorem route_index_monotone v (n : nat) :
  route_index (Nat.iter n advance_route v) = route_index v + Z.of_nat n
  ∧ route (Nat.iter n advance_route v) = route v
  ∧ route_index v ≤ route_index (Nat.iter n advance_route v)
  ∧ (route_index v < Z.of_nat (length (route v)) →
     route_index (advance_route v) ≤ Z.of_nat (length (route (advance_route v))))
  ∧ (next_intersection v = Ok None
     ↔ Z.of_nat (length (route v)) ≤ route_index v)
  ∧ (0 ≤ route_index v < Z.of_nat (length (route v)) →
     ∃ x, route v !! Z.to_nat (route_index v) = Some x
          ∧ next_intersection v = Ok (Some x))
  ∧ (route_index v < Z.of_nat (length (route v)) →
     next_intersection v
     = (x ←! py_getitem (route v) (route_index v); Ok (Some x))).
Proof.
  destruct (route_index_advance_n v n) as [Hi Hr].
  split; [done|]. split; [done|]. split; [lia|]. split; [|split; [|split]].
  - cbn [advance_route route_index route]. lia.
  - apply next_intersection_None.
  - apply next_intersection_Some.
  - intros Hlt. unfold next_intersection. by rewrite bool_decide_eq_true_2.
Qed.

(** A route of three intersections, advanced once and then once more. *)
Lemma route_index_monotone_witness :
  let v := EmergencyVehicle_init "EV-1" "I-0-0" "I-0-2"
             ["I-0-0"; "I-0-1"; "I-0-2"] 4 in
  0 ≤ route_index (advance_route v) < Z.of_nat (length (route (advance_route v)))
  ∧ next_intersection (advance_route v) = Ok (Some "I-0-1")
  ∧ route_index (advance_route (advance_route v)) ≤ 3.
Proof.
  intros v.
  assert (Hin : 0 ≤ route_index (advance_route v)
                < Z.of_nat (length (route (advance_route v))))
    by (vm_compute; split; [discriminate | reflexivity]).
  split; [exact Hin|]. split; [reflexivity|].
  exact (proj1 (proj2 (proj2 (proj2 (route_index_monotone (advance_route v) 0))))
           (proj2 Hin)).
Defined.

(** C9, as stated, fails: on a vehicle with a route of one intersection, two
    calls of [advance_route] take [route_index] past the length of the
    route, where [next_intersection] is None although the index differs
    from that length. *)
Lemma route_index_overruns :
  let v := EmergencyVehicle_init "EV-1" "I-0-0" "I-0-0" ["I-0-0"] 0 in
  let v2 := advance_route (advance_route v) in
  Z.of_nat (length (route v2)) < route_index v2
  ∧ next_intersection v2 = Ok None
  ∧ route_index v2 ≠ Z.of_nat (length (route v2)).
Proof. intros v v2. vm_compute. repeat split; discriminate. Qed.

(** ** The preemption manager *)

Section PreemptionManagerFacts.
Context {C : Type} `{!SignalController C}.
Implicit Types (m : PreemptionManager C) (event : EmergencyDetected).
Implicit Types (iid : IntersectionId) (events : list EmergencyDetected).

Lemma detected_while_active m event held :
  _active m !! ed_intersection_id event = Some held →
  _on_emergency_detected m event = (m, []).
Proof. unfold _on_emergency_detected. by intros ->. Qed.

Lemma detected_unknown_controller m event :
  _controllers m !! ed_intersection_id event = None →
  _on_emergency_detected m event = (m, []).
Proof.
  unfold _on_emergency_detected. intros ->.
  by destruct (_active m !! ed_intersection_id event).
Qed.

Lemma detected_first m event controller :
  _active m !! ed_intersection_id event = None →
  _controllers m !! ed_intersection_id event = Some controller →
  _on_emergency_detected m event
  = ({| _controllers :=
          <[ed_intersection_id event :=
              ctl_request_preemption controller (ed_approach_direction event)]>
            (_controllers m);
        _active :=
          <[ed_intersection_id event :=
              mkActivePreemption (ed_vehicle_id event)
                (ed_intersection_id event) (ed_approach_direction event)]>
            (_active m) |},
     [ CallRequestPreemption (ed_intersection_id event)
         (ed_approach_direction event);
       Publish (PreemptionStarted (ed_tick event) (ed_vehicle_id event)
                  (ed_intersection_id event) (ed_approach_direction event)) ]).
Proof. unfold _on_emergency_detected. by intros -> ->. Qed.

Lemma first_detection_cons iid event events :
  first_detection iid (event :: events)
  = if decide (ed_intersection_id event = iid) then Some event
    else first_detection iid events.
Proof.
  unfold first_detection. cbn [List.find].
  case_bool_decide; by case_decide.
Qed.

Lemma count_actions_app f (a1 a2 : list action) :
  count_actions f (a1 ++ a2) = (count_actions f a1 + count_actions f a2)%nat.
Proof. unfold count_actions. by rewrite List.filter_app, length_app. Qed.

Lemma deliver_cons m event events :
  deliver m (event :: events)
  = ((deliver (_on_emergency_detected m event).1 events).1,
     (_on_emergency_detected m event).2
     ++ (deliver (_on_emergency_detected m event).1 events).2).
Proof.
  unfold deliver. cbn [fmap list_fmap manager_run manager_step].
  destruct (_on_emergency_detected m event) as [m1 acts1].
  change (list_fmap _ _ Detected events) with (Detected <$> events).
  cbn [fst snd]. by destruct (manager_run m1 (Detected <$> events)).
Qed.

(** What a sequence of detections leaves at one intersection. *)
Lemma deliver_at m events iid :
  _active (deliver m events).1 !! iid = expected_entry m iid events
  ∧ count_actions (is_started_at iid) (deliver m events).2
    = (if starts_at m iid events then 1 else 0)%nat
  ∧ count_actions (is_request_at iid) (deliver m events).2
    = (if starts_at m iid events then 1 else 0)%nat.
Proof.
  revert m. induction events as [|event events IH]; intros m.
  - unfold expected_entry, starts_at. cbn.
    destruct (_active m !! iid), (_controllers m !! iid); done.
  - rewrite deliver_cons. cbn [fst snd].
    rewrite !count_actions_app.
    destruct (_active m !! ed_intersection_id event) as [held|] eqn:Hact;
      [|destruct (_controllers m !! ed_intersection_id event)
          as [controller|] eqn:Hctl].
    + rewrite (detected_while_active _ _ _ Hact). cbn [fst snd].
      destruct (IH m) as (-> & -> & ->).
      unfold expected_entry, starts_at. rewrite first_detection_cons.
      destruct (decide (ed_intersection_id event = iid)) as [<-|Hne];
        [by rewrite Hact | done].
    + rewrite (detected_first _ _ _ Hact Hctl). cbn [fst snd].
      match goal with |- context [deliver ?m1 events] =>
        destruct (IH m1) as (-> & -> & ->) end.
      unfold expected_entry, starts_at, count_actions.
      cbn [_active _controllers List.filter is_started_at is_request_at].
      rewrite first_detection_cons.
      destruct (decide (ed_intersection_id event = iid)) as [<-|Hne].
      * rewrite !lookup_insert_eq, Hact, Hctl.
        rewrite !bool_decide_eq_true_2 by done. done.
      * rewrite !lookup_insert_ne by done.
        rewrite !bool_decide_eq_false_2 by done. done.
    + rewrite (detected_unknown_controller _ _ Hctl). cbn [fst snd].
      destruct (IH m) as (-> & -> & ->).
      unfold expected_entry, starts_at. rewrite first_detection_cons.
      destruct (decide (ed_intersection_id event = iid)) as [<-|Hne];
        [by rewrite Hact, Hctl | done].
Qed.

Lemma filed_one_entry m :
  filed_by_intersection m → one_entry_per_intersection m.
Proof.
  intros Hfiled k1 k2 e1 e2 H1 H2 Hsame.
  assert (k1 = k2) as <-.
  { by rewrite <- (Hfiled _ _ H1), <- (Hfiled _ _ H2). }
  split; [done | congruence].
Qed.

Lemma manager_step_filed m call :
  filed_by_intersection m → filed_by_intersection (manager_step m call).1.
Proof.
  intros Hfiled. destruct call as [event|iid tick]; cbn [manager_step].
  - destruct (_active m !! ed_intersection_id event) as [held|] eqn:Hact;
      [by rewrite (detected_while_active _ _ _ Hact)|].
    destruct (_controllers m !! ed_intersection_id event)
      as [controller|] eqn:Hctl;
      [|by rewrite (detected_unknown_controller _ _ Hctl)].
    rewrite (detected_first _ _ _ Hact Hctl). cbn [fst].
    intros k entry. cbn [_active].
    destruct (decide (ed_intersection_id event = k)) as [<-|Hne].
    + rewrite lookup_insert_eq. by intros [= <-].
    + rewrite lookup_insert_ne by done. apply Hfiled.
  - unfold release.
    destruct (_active m !! iid) as [held|] eqn:Hact; [|done].
    assert (Hdel : ∀ k entry,
              delete iid (_active m) !! k = Some entry →
              ap_intersection_id entry = k).
    { intros k entry [_ Hk]%lookup_delete_Some. by apply Hfiled. }
    by destruct (_controllers m !! iid).
Qed.

Lemma manager_run_filed m calls :
  filed_by_intersection m → filed_by_intersection (manager_run m calls).1.
Proof.
  revert m. induction calls as [|call calls IH]; intros m Hfiled; [done|].
  cbn [manager_run].
  pose proof (manager_step_filed m call Hfiled) as Hstep.
  destruct (manager_step m call) as [m1 acts1]. cbn [fst] in Hstep.
  specialize (IH m1 Hstep).
  by destruct (manager_run m1 calls) as [m2 acts2].
Qed.

Lemma init_filed (controllers : gmap IntersectionId C) :
  filed_by_intersection (PreemptionManager_init controllers).
Proof. intros k entry. cbn. by rewrite lookup_empty. Qed.

(** C5. The manager holds at most one active preemption per intersection
    at all times: after any sequence of detections and releases on a
    fresh manager, no two entries name the same intersection. A detection
    at an intersection that already has an active preemption changes no
    state and causes no action: no [request_preemption] call and no
    event. Over any sequence of detections, the entry at an intersection
    is the one already held or else the one made from the first detection
    there, if its controller is known; exactly one [PreemptionStarted]
    and one [request_preemption] go out for it in that case, and none
    otherwise. *)
Theorem preemption_exclusivity (controllers : gmap IntersectionId C) :
  (∀ calls,
     one_entry_per_intersection
       (manager_run (PreemptionManager_init controllers) calls).1)
  ∧ (∀ m event held,
       _active m !! ed_intersection_id event = Some held →
       _on_emergency_detected m event = (m, []))
  ∧ (∀ m events iid,
       _active (deliver m events).1 !! iid = expected_entry m iid events
       ∧ count_actions (is_started_at iid) (deliver m events).2
         = (if starts_at m iid events then 1 else 0)%nat
       ∧ count_actions (is_request_at iid) (deliver m events).2
         = (if starts_at m iid events then 1 else 0)%nat).
Proof.
  split; [|split].
  - intros calls. apply filed_one_entry, manager_run_filed, init_filed.
  - apply detected_while_active.
  - apply deliver_at.
Qed.

(** C6. For every intersection id with no active preemption recorded,
    [release(intersection_id, tick)] returns without raising, leaves the
    controllers and the active-preemption map as they were, and causes no
    action: no [release_preemption] call and no event. *)
Theorem release_without_preemption_is_noop m iid tick :
  _active m !! iid = None → release m iid tick = (m, []).
Proof.
  intros Hnone. unfold release.
  destruct (_active m !! iid) as [preemption|] eqn:Hpop; [discriminate|].
  reflexivity.
Qed.
End PreemptionManagerFacts.

(** Two ambulances detected at the same junction, EV-1 first. *)
Lemma preemption_exclusivity_witness :
  let m1 := (deliver (PreemptionManager_init one_junction) [first_ambulance]).1 in
  _active m1 !! "I-0-0" = Some (mkActivePreemption "EV-1" "I-0-0" NORTH)
  ∧ _on_emergency_detected m1 second_ambulance = (m1, [])
  ∧ count_actions (is_started_at "I-0-0")
      (deliver (PreemptionManager_init one_junction)
         [first_ambulance; second_ambulance]).2 = 1%nat.
Proof.
  intros m1.
  assert (Hheld : _active m1 !! ed_intersection_id second_ambulance
                  = Some (mkActivePreemption "EV-1" "I-0-0" NORTH))
    by (vm_compute; reflexivity).
  split; [exact Hheld|]. split.
  - exact (proj1 (proj2 (preemption_exclusivity one_junction))
             m1 second_ambulance _ Hheld).
  - exact (proj1 (proj2 (proj2 (proj2 (preemption_exclusivity one_junction))
                           (PreemptionManager_init one_junction)
                           [first_ambulance; second_ambulance] "I-0-0"))).
Defined.

(** A release on a fresh manager. *)
Lemma release_without_preemption_is_noop_witness :
  _active (PreemptionManager_init one_junction) !! "I-0-0" = None
  ∧ release (PreemptionManager_init one_junction) "I-0-0" 5
    = (PreemptionManager_init one_junction, []).
Proof.
  assert (Hnone : _active (PreemptionManager_init one_junction) !! "I-0-0" = None)
    by reflexivity.
  split; [exact Hnone|].
  exact (release_without_preemption_is_noop
           (PreemptionManager_init one_junction) "I-0-0" 5 Hnone).
Defined.

(** ** Walks of the adjacency listing *)

Section Walks.
Variable net : RoadNetwork.
Implicit Types (p : list IntersectionId) (a b x y : IntersectionId).

Lemma is_walk_cons2 a b p :
  is_walk net (a :: b :: p) ↔ b ∈ neighbors net a ∧ is_walk net (b :: p).
Proof. done. Qed.

Lemma is_walk_snoc p y x :
  is_walk net p → last p = Some y → x ∈ neighbors net y →
  is_walk net (p ++ [x]).
Proof.
  induction p as [|a p IH]; [done|].
  destruct p as [|b p].
  - intros _ [= ->] Hx. by apply (is_walk_cons2 y x []).
  - intros [Hab Hw]%is_walk_cons2 Hl Hx. rewrite last_cons_cons in Hl.
    apply (is_walk_cons2 a b (p ++ [x])). split; [done|]. by apply IH.
Qed.

Lemma is_walk_snoc_inv p x :
  p ≠ [] → is_walk net (p ++ [x]) →
  is_walk net p ∧ ∃ y, last p = Some y ∧ x ∈ neighbors net y.
Proof.
  induction p as [|a p IH]; [done|]. intros _.
  destruct p as [|b p].
  - intros [Hx _]%(is_walk_cons2 a x []). split; [done|]. by exists a.
  - intros [Hab Hw]%(is_walk_cons2 a b (p ++ [x])).
    destruct (IH ltac:(done) Hw) as (Hw' & y & Hy & Hx).
    split; [by apply is_walk_cons2|].
    exists y. by rewrite last_cons_cons.
Qed.

Lemma hops_of_path a b p :
  path_between net a b p → hops net a (length p - 1) b.
Proof.
  intros (Hhd & Hlast & Hwalk). revert b Hhd Hlast Hwalk.
  induction p as [|x p IH] using rev_ind; intros b Hhd Hlast Hwalk; [done|].
  rewrite last_snoc in Hlast. injection Hlast as ->.
  destruct (decide (p = [])) as [->|Hne].
  - injection Hhd as ->. apply hops_here.
  - destruct (is_walk_snoc_inv p b Hne Hwalk) as (Hw & y & Hy & Hb).
    destruct p as [|c p]; [done|]. cbn [head app] in Hhd.
    specialize (IH y Hhd Hy Hw).
    rewrite length_app. cbn [length] in *.
    replace (S (length p) + 1 - 1)%nat with (S (S (length p) - 1)) by lia.
    by apply hops_next with y.
Qed.

Lemma neighbors_in_neighbor_ids a x :
  x ∈ neighbors net a → x ∈ neighbor_ids net.
Proof.
  unfold neighbors, neighbor_ids.
  destruct (_adjacency net !! a) as [l|] eqn:Ha; cbn [default].
  - intros Hx. apply list_elem_of_bind. exists (a, l).
    split; [done|]. by apply elem_of_map_to_list.
  - by intros ?%elem_of_nil.
Qed.
End Walks.

(** ** One pass over the neighbours *)

Lemma expand_Found to_id path nbrs visited queue r :
  expand to_id path nbrs visited queue = Found r →
  r = path ++ [to_id] ∧ to_id ∈ nbrs.
Proof.
  revert visited queue.
  induction nbrs as [|n nbrs IH]; intros visited queue; cbn [expand]; [done|].
  destruct (decide (n ∈ visited)).
  - intros Hr. destruct (IH _ _ Hr) as [-> ?]. split; [done | by right].
  - destruct (decide (n = to_id)) as [->|].
    + intros [= <-]. split; [done | by left].
    + intros Hr. destruct (IH _ _ Hr) as [-> ?]. split; [done | by right].
Qed.

Lemma expand_Continue to_id path nbrs visited queue visited' queue' :
  expand to_id path nbrs visited queue = Continue visited' queue' →
  ∃ news,
    queue' = queue ++ ((λ n, path ++ [n]) <$> news)
    ∧ (∀ x, x ∈ visited' ↔ x ∈ visited ∨ x ∈ news)
    ∧ (∀ n, n ∈ news → n ∈ nbrs ∧ (n ∉ visited) ∧ n ≠ to_id)
    ∧ (∀ n, n ∈ nbrs → n ∈ visited').
Proof.
  revert visited queue.
  induction nbrs as [|n nbrs IH]; intros visited queue; cbn [expand].
  - intros [= <- <-]. exists []. rewrite app_nil_r.
    split; [done|]. split; [set_solver|]. split; set_solver.
  - destruct (decide (n ∈ visited)) as [Hin|Hnin].
    + intros Hc. destruct (IH _ _ Hc) as (news & -> & Hv & Hnews & Hall).
      exists news. split; [done|]. split; [done|]. split.
      * intros x Hx. destruct (Hnews x Hx) as (?&?&?). split; [by right | done].
      * intros x [->|Hx]%elem_of_cons; [apply Hv; by left | by apply Hall].
    + destruct (decide (n = to_id)) as [->|Hne]; [done|].
      intros Hc. destruct (IH _ _ Hc) as (news & -> & Hv & Hnews & Hall).
      exists (n :: news). split; [by rewrite <- app_assoc|]. split; [|split].
      * intros x. rewrite Hv. set_solver.
      * intros x [->|Hx]%elem_of_cons.
        -- split; [by left | done].
        -- destruct (Hnews x Hx) as (?&Hnv&?).
           split; [by right|]. split; [set_solver | done].
      * intros x [->|Hx]%elem_of_cons; [|by apply Hall].
        apply Hv. left. set_solver.
Qed.

Lemma expand_measure (U : gset IntersectionId)
    to_id path nbrs visited queue visited' queue' :
  (∀ n, n ∈ nbrs → n ∈ U) →
  expand to_id path nbrs visited queue = Continue visited' queue' →
  (size (U ∖ visited') + length queue' = size (U ∖ visited) + length queue)%nat.
Proof.
  revert visited queue.
  induction nbrs as [|n nbrs IH]; intros visited queue HU; cbn [expand].
  - by intros [= <- <-].
  - assert (HU' : ∀ x, x ∈ nbrs → x ∈ U) by (intros; apply HU; by right).
    destruct (decide (n ∈ visited)) as [Hin|Hnin]; [by apply IH|].
    destruct (decide (n = to_id)) as [->|Hne]; [done|].
    intros Hc. rewrite (IH _ _ HU' Hc), length_app. cbn [length].
    assert (Hsplit : U ∖ visited = {[n]} ∪ (U ∖ ({[n]} ∪ visited))).
    { apply set_eq. intros x. pose proof (HU n ltac:(by left)).
      destruct (decide (x = n)); set_solver. }
    assert (Hsz : size (U ∖ visited) = S (size (U ∖ ({[n]} ∪ visited)))).
    { rewrite Hsplit, size_union by set_solver. by rewrite size_singleton. }
    lia.
Qed.

Lemma size_list_to_set_le (l : list IntersectionId) :
  (size (list_to_set l : gset IntersectionId) ≤ length l)%nat.
Proof.
  induction l as [|a l IH]; cbn [list_to_set length].
  - by rewrite size_empty.
  - rewrite size_union_alt, size_singleton.
    pose proof (subseteq_size
      ((list_to_set l : gset IntersectionId) ∖ {[a]}) (list_to_set l)
      ltac:(set_solver)).
    lia.
Qed.

(** ** The search loop *)

Section Search.
Variable net : RoadNetwork.
Variables from_id to_id : IntersectionId.

Abbreviation inv := (bfs_inv net from_id to_id).
Abbreviation universe :=
  (list_to_set (neighbor_ids net) : gset IntersectionId).

Lemma bfs_inv_init : from_id ≠ to_id → inv 0 {[from_id]} [[from_id]] [].
Proof.
  intros Hne. split.
  - intros p ->%list_elem_of_singleton.
    split; [done|]. split; [done|]. exists from_id. split; [done | set_solver].
  - set_solver.
  - set_solver.
  - by intros p ->%list_elem_of_singleton.
  - by intros p ?%elem_of_nil.
  - intros v ->%elem_of_singleton. right. exists [from_id].
    split; [set_solver | done].
  - intros k x Hh Hk. assert (k = 0)%nat as -> by lia.
    inversion Hh; subst. set_solver.
  - by intros p y k ?%elem_of_nil.
Qed.

(** When the paths of [m] hops are used up, those of [m + 1] hops are
    next in the queue. *)
Lemma bfs_inv_rotate m visited qb :
  inv m visited [] qb → inv (S m) visited qb [].
Proof.
  intros [Hpaths Hfrom Hto _ Hlb Hfront Hnear Hfar]. split.
  - intros p Hp. rewrite app_nil_r in Hp. by apply Hpaths.
  - done.
  - done.
  - done.
  - by intros p ?%elem_of_nil.
  - intros v Hv. rewrite app_nil_r. by apply Hfront.
  - intros k x Hh Hk.
    destruct (decide (k ≤ m)%nat) as [Hle|Hgt]; [by apply (Hnear k)|].
    assert (k = S m) as -> by lia.
    inversion Hh as [|k' y x' Hy Hx]; subst.
    destruct (Hfront y (Hnear m y Hy ltac:(lia))) as [Hclosed|(p & Hp & Hl)].
    + by apply Hclosed.
    + pose proof (Hfar p y m Hp Hl Hy). lia.
  - by intros p y k ?%elem_of_nil.
Qed.

Lemma bfs_inv_step m visited path current qa qb visited' queue' :
  inv m visited (path :: qa) qb →
  last path = Some current →
  expand to_id path (neighbors net current) visited (qa ++ qb)
  = Continue visited' queue' →
  ∃ qb', queue' = qa ++ qb' ∧ inv m visited' qa qb'.
Proof.
  intros [Hpaths Hfrom Hto Hla Hlb Hfront Hnear Hfar] Hlast Hexp.
  apply expand_Continue in Hexp as (news & -> & Hv & Hnews & Hall).
  exists (qb ++ ((λ n, path ++ [n]) <$> news)).
  split; [by rewrite app_assoc|].
  destruct (Hpaths path ltac:(by left)) as (Hhd & Hwalk & _).
  assert (Hnew : ∀ p, p ∈ (λ n, path ++ [n]) <$> news →
            ∃ n, p = path ++ [n] ∧ n ∈ news).
  { by intros p ?%list_elem_of_fmap. }
  split.
  - intros p [Hp|[Hp|Hp]%elem_of_app]%elem_of_app.
    + destruct (Hpaths p) as (? & ? & y & ? & ?);
        [right; apply elem_of_app; by left|].
      split; [done|]. split; [done|]. exists y. split; [done|].
      apply Hv. by left.
    + destruct (Hpaths p) as (? & ? & y & ? & ?);
        [right; apply elem_of_app; by right|].
      split; [done|]. split; [done|]. exists y. split; [done|].
      apply Hv. by left.
    + destruct (Hnew p Hp) as (n & -> & Hn).
      destruct (Hnews n Hn) as (Hnb & _ & _).
      split; [by destruct path|].
      split; [by apply is_walk_snoc with current|].
      exists n. split; [apply last_snoc|]. apply Hv. by right.
  - apply Hv. by left.
  - intros [?|Hn]%Hv; [done|]. by destruct (Hnews to_id Hn) as (_ & _ & ?).
  - intros p Hp. apply Hla. by right.
  - intros p [Hp|Hp]%elem_of_app; [by apply Hlb|].
    destruct (Hnew p Hp) as (n & -> & Hn).
    rewrite length_app, (Hla path ltac:(by left)). simpl. lia.
  - intros v [Hvis|Hn]%Hv.
    + destruct (Hfront v Hvis) as [Hclosed|(p & Hp & Hl)].
      * left. intros x Hx. apply Hv. left. by apply Hclosed.
      * apply elem_of_cons in Hp as [->|Hp].
        -- left. intros x Hx. apply Hall. congruence.
        -- right. exists p. split; [|done].
           rewrite app_assoc. apply elem_of_app. by left.
    + right. exists (path ++ [v]). split; [|apply last_snoc].
      apply elem_of_app. right. apply elem_of_app. right.
      by apply (list_elem_of_fmap_2 (λ n, path ++ [n])).
  - intros k x Hh Hk. apply Hv. left. by apply (Hnear k).
  - intros p y k [Hp|Hp]%elem_of_app Hl Hh; [by apply (Hfar p y)|].
    destruct (Hnew p Hp) as (n & -> & Hn).
    rewrite last_snoc in Hl. injection Hl as ->.
    destruct (Hnews y Hn) as (_ & Hny & _).
    destruct (decide (k ≤ m)%nat) as [Hle|Hgt]; [|lia].
    by pose proof (Hnear k y Hh Hle).
Qed.

Lemma bfs_inv_found m visited path current qa qb r :
  inv m visited (path :: qa) qb →
  last path = Some current →
  expand to_id path (neighbors net current) visited (qa ++ qb) = Found r →
  path_between net from_id to_id r
  ∧ ∀ p, path_between net from_id to_id p → (length r ≤ length p)%nat.
Proof.
  intros [Hpaths Hfrom Hto Hla Hlb Hfront Hnear Hfar] Hlast Hexp.
  apply expand_Found in Hexp as [-> Hnb].
  destruct (Hpaths path ltac:(by left)) as (Hhd & Hwalk & _).
  split.
  - split; [by destruct path|]. split; [apply last_snoc|].
    by apply is_walk_snoc with current.
  - intros p Hp. apply hops_of_path in Hp.
    rewrite length_app, (Hla path ltac:(by left)). cbn [length].
    destruct (decide (length p - 1 ≤ m)%nat) as [Hle|Hgt]; [|lia].
    by pose proof (Hnear _ _ Hp Hle).
Qed.

Lemma bfs_inv_exhausted m visited :
  inv m visited [] [] → ∀ p, ¬ path_between net from_id to_id p.
Proof.
  intros [Hpaths Hfrom Hto Hla Hlb Hfront Hnear Hfar] p Hp.
  assert (Hreach : ∀ k x, hops net from_id k x → x ∈ visited).
  { intros k x Hh. induction Hh as [|k y x Hy IH Hx]; [done|].
    destruct (Hfront y IH) as [Hclosed|(q & ?%elem_of_nil & _)]; [|done].
    by apply Hclosed. }
  apply hops_of_path in Hp. by apply Hreach in Hp.
Qed.

Lemma bfs_round fuel m visited path qa qb :
  (∀ m' visited' qa' qb',
     inv m' visited' qa' qb' →
     (size (universe ∖ visited') + length (qa' ++ qb') < fuel)%nat →
     ∃ r, bfs_loop fuel net to_id visited' (qa' ++ qb') = Some (Ok r)
          ∧ shortest_or_none net from_id to_id r) →
  inv m visited (path :: qa) qb →
  (size (universe ∖ visited) + length ((path :: qa) ++ qb) < S fuel)%nat →
  ∃ r, bfs_loop (S fuel) net to_id visited ((path :: qa) ++ qb) = Some (Ok r)
       ∧ shortest_or_none net from_id to_id r.
Proof.
  intros IH Hinv Hfuel. cbn [bfs_loop app].
  destruct (inv_paths _ _ _ _ _ _ _ Hinv path ltac:(by left))
    as (_ & _ & current & Hlast & _).
  unfold py_last. rewrite Hlast.
  destruct (expand to_id path (neighbors net current) visited (qa ++ qb))
    as [r|visited' queue'] eqn:Hexp.
  - exists r. split; [done|]. right. by apply (bfs_inv_found _ _ _ _ _ _ _ Hinv Hlast).
  - pose proof (expand_measure universe _ _ _ _ _ _ _
      (λ n Hn, proj2 (elem_of_list_to_set _ _)
                 (neighbors_in_neighbor_ids net current n Hn)) Hexp) as Hmeasure.
    destruct (bfs_inv_step _ _ _ _ _ _ _ _ Hinv Hlast Hexp) as (qb' & -> & Hinv').
    apply (IH _ _ _ _ Hinv'). cbn [length app] in Hfuel. lia.
Qed.

Lemma bfs_loop_correct fuel m visited qa qb :
  inv m visited qa qb →
  (size (universe ∖ visited) + length (qa ++ qb) < fuel)%nat →
  ∃ r, bfs_loop fuel net to_id visited (qa ++ qb) = Some (Ok r)
       ∧ shortest_or_none net from_id to_id r.
Proof.
  revert m visited qa qb.
  induction fuel as [|fuel IH]; intros m visited qa qb Hinv Hfuel; [lia|].
  destruct qa as [|path qa].
  - destruct qb as [|path qb].
    + exists []. split; [done|]. left. split; [done|].
      by apply (bfs_inv_exhausted m visited).
    + apply bfs_inv_rotate in Hinv.
      replace ([] ++ path :: qb) with ((path :: qb) ++ []) in *
        by (by rewrite app_nil_r).
      by apply (bfs_round fuel (S m)).
  - by apply (bfs_round fuel m).
Qed.

Lemma bfs_rounds_suffice :
  (size (universe ∖ {[from_id]}) + length ([[from_id]] ++ [])
   < bfs_rounds net)%nat.
Proof.
  unfold bfs_rounds. cbn [length app].
  pose proof (size_list_to_set_le (neighbor_ids net)).
  pose proof (subseteq_size (universe ∖ {[from_id]}) universe
                ltac:(set_solver)).
  lia.
Qed.

Lemma shortest_path_search :
  from_id ≠ to_id →
  ∃ r, shortest_path net from_id to_id = Some (Ok r)
       ∧ shortest_or_none net from_id to_id r.
Proof.
  intros Hne. unfold shortest_path. rewrite decide_False by done.
  apply (bfs_loop_correct _ 0 {[from_id]} [[from_id]] []).
  - by apply bfs_inv_init.
  - apply bfs_rounds_suffice.
Qed.
End Search.

(** ** Networks built by [add_intersection] and [add_road] *)

Lemma neighbors_add_intersection net i a :
  neighbors (add_intersection net i) a = neighbors net a.
Proof.
  unfold neighbors, add_intersection, setdefault_append. cbn [_adjacency].
  destruct (decide (intersection_id i = a)) as [->|Hne].
  - by rewrite lookup_insert_eq, app_nil_r.
  - by rewrite lookup_insert_ne.
Qed.

Lemma neighbors_add_road net r a :
  neighbors (add_road net r) a
  = neighbors net a
    ++ (if decide (from_intersection r = a) then [to_intersection r] else []).
Proof.
  unfold neighbors, add_road, setdefault_append. cbn [_adjacency].
  destruct (decide (from_intersection r = a)) as [->|Hne].
  - rewrite lookup_insert_eq. cbn [from_option id]. by rewrite fmap_app.
  - by rewrite lookup_insert_ne, app_nil_r.
Qed.

(** In a network so built, one hop of the adjacency listing is one road that
    was added. *)
Lemma built_neighbors rs net :
  built_from rs net →
  ∀ a b, b ∈ neighbors net a
         ↔ ∃ r, r ∈ rs ∧ from_intersection r = a ∧ to_intersection r = b.
Proof.
  induction 1 as [|rs net i _ IH|rs net r _ IH]; intros a b.
  - unfold neighbors, empty_network. cbn [_adjacency]. rewrite lookup_empty.
    cbn. split; [by intros ?%elem_of_nil | by intros (? & ?%elem_of_nil & _)].
  - rewrite neighbors_add_intersection. apply IH.
  - rewrite neighbors_add_road, elem_of_app, IH. split.
    + intros [(r' & Hr' & ? & ?)|Hb].
      * exists r'. split; [|done]. apply elem_of_app. by left.
      * destruct (decide (from_intersection r = a)) as [<-|];
          [|by apply elem_of_nil in Hb].
        apply list_elem_of_singleton in Hb as ->.
        exists r. split; [|done]. apply elem_of_app. right. by left.
    + intros (r' & [Hr'|Hr']%elem_of_app & Ha & Hb).
      * left. by exists r'.
      * apply list_elem_of_singleton in Hr' as ->.
        right. rewrite decide_True by done. rewrite <- Hb. by left.
Qed.

Lemma built_foldl_add_road rs0 net rs :
  built_from rs0 net → built_from (rs0 ++ rs) (foldl add_road net rs).
Proof.
  revert rs0 net. induction rs as [|r rs IH]; intros rs0 net Hb; cbn [foldl].
  - by rewrite app_nil_r.
  - replace (rs0 ++ r :: rs) with ((rs0 ++ [r]) ++ rs)
      by (by rewrite <- app_assoc).
    apply IH. by constructor.
Qed.

Lemma grid_2x2_built : built_from grid_2x2_roads grid_2x2.
Proof.
  apply (built_foldl_add_road []). repeat constructor.
Qed.

(** ** The order of discovery *)

Lemma index_of_cons_ne (y x : IntersectionId) l :
  y ≠ x → index_of (y :: l) x = S (index_of l x).
Proof. intros Hne. cbn [index_of]. by rewrite decide_False. Qed.

Lemma StronglySorted_on {A} (R1 R2 : relation A) (l : list A) :
  (∀ x y, x ∈ l → y ∈ l → R1 x y → R2 x y) →
  StronglySorted R1 l → StronglySorted R2 l.
Proof.
  induction l as [|x l IH]; intros Himp; [constructor|].
  rewrite !StronglySorted_cons, !Forall_forall. intros [Hx Hl]. split.
  - intros y Hy. apply Himp; [by left | by right | by apply Hx].
  - apply IH; [|done]. intros y z Hy Hz. apply Himp; by right.
Qed.
Section Discovery.
Variable net : RoadNetwork.
Implicit Types (p q w : list IntersectionId) (a b x y : IntersectionId).

Abbreviation before := (λ p q, discovered_before net p q = true).

Lemma discovered_before_cons a x p y q :
  discovered_before net (a :: x :: p) (a :: y :: q)
  = if decide (x = y) then discovered_before net (x :: p) (y :: q)
    else bool_decide (index_of (neighbors net a) x
                      < index_of (neighbors net a) y)%nat.
Proof. cbn [discovered_before]. by rewrite bool_decide_eq_true_2. Qed.

Lemma discovered_before_inv p q :
  before p q →
  ∃ a x p' y q', p = a :: x :: p' ∧ q = a :: y :: q'.
Proof.
  destruct p as [|a [|x p']], q as [|b [|y q']]; cbn [discovered_before];
    rewrite ?andb_false_r; try done.
  intros [Hab _]%andb_prop. apply bool_decide_eq_true in Hab as ->.
  by exists b, x, p', y, q'.
Qed.

Lemma discovered_before_snoc p q x y :
  before p q → before (p ++ [x]) (q ++ [y]).
Proof.
  revert q. induction p as [|a p IH]; intros q Hpq; [done|].
  apply discovered_before_inv in Hpq as Hshape.
  destruct Hshape as (a' & x' & p' & y' & q' & [= -> ->] & ->).
  rewrite discovered_before_cons in Hpq.
  cbn [app]. rewrite discovered_before_cons.
  destruct (decide (x' = y')) as [->|Hne]; [|done].
  by apply (IH (y' :: q')).
Qed.

Lemma discovered_before_last p c x y :
  last p = Some c →
  (index_of (neighbors net c) x < index_of (neighbors net c) y)%nat →
  before (p ++ [x]) (p ++ [y]).
Proof.
  intros Hlast Hlt. induction p as [|a p IH]; [done|].
  destruct p as [|b p].
  - injection Hlast as ->. cbn [app]. rewrite discovered_before_cons.
    rewrite decide_False by (intros ->; lia). by apply bool_decide_eq_true.
  - rewrite last_cons_cons in Hlast. cbn [app].
    rewrite discovered_before_cons, decide_True by done. by apply IH.
Qed.

Lemma discovered_before_trans p q w :
  before p q → before q w → before p w.
Proof.
  revert q w. induction p as [|a p IH]; intros q w Hpq Hqw; [done|].
  apply discovered_before_inv in Hpq as Hshape.
  destruct Hshape as (a' & x & p' & y & q' & [= -> ->] & ->).
  apply discovered_before_inv in Hqw as Hshape.
  destruct Hshape as (a'' & y' & q'' & z & w' & [= -> -> ->] & ->).
  rewrite discovered_before_cons in *.
  destruct (decide (x = y')) as [->|Hxy], (decide (y' = z)) as [->|Hyz].
  - by apply (IH (z :: q'')).
  - done.
  - by rewrite decide_False.
  - apply bool_decide_eq_true in Hpq, Hqw.
    rewrite decide_False by (intros ->; lia).
    apply bool_decide_eq_true. lia.
Qed.

Lemma discovered_before_irrefl p : discovered_before net p p = false.
Proof.
  induction p as [|a p IH]; [done|]. destruct p as [|x p].
  - cbn [discovered_before]. by rewrite andb_false_r.
  - by rewrite discovered_before_cons, decide_True.
Qed.

(** The tie-break leaves one path: two paths of one length cannot both be
    discovered before every other. *)
Lemma first_discovered_unique from_id to_id r r' :
  first_discovered net from_id to_id r →
  first_discovered net from_id to_id r' →
  path_between net from_id to_id r → path_between net from_id to_id r' →
  length r = length r' → r = r'.
Proof.
  intros Hr Hr' Hp Hp' Hlen.
  destruct (Hr r' Hp' ltac:(done)) as [->|Hlt]; [done|].
  destruct (Hr' r Hp Hlen) as [->|Hgt]; [done|].
  pose proof (discovered_before_trans _ _ _ Hlt Hgt) as Hrefl.
  cbv beta in Hrefl. by rewrite discovered_before_irrefl in Hrefl.
Qed.
End Discovery.

(** One pass over the neighbours queues what it discovers in the order of
    the adjacency list. *)
Lemma expand_Continue_order to_id path nbrs visited queue visited' queue' :
  expand to_id path nbrs visited queue = Continue visited' queue' →
  ∃ news,
    queue' = queue ++ ((λ n, path ++ [n]) <$> news)
    ∧ (∀ n, n ∈ news → n ∈ nbrs ∧ (n ∉ visited))
    ∧ StronglySorted (λ n n', index_of nbrs n < index_of nbrs n')%nat news.
Proof.
  revert visited queue.
  induction nbrs as [|n nbrs IH]; intros visited queue; cbn [expand].
  - intros [= <- <-]. exists []. rewrite app_nil_r.
    split; [done|]. split; [by intros n ?%elem_of_nil | constructor].
  - assert (Hshift : ∀ news,
              (∀ x, x ∈ news → x ≠ n) →
              StronglySorted (λ x x', index_of nbrs x < index_of nbrs x')%nat news →
              StronglySorted
                (λ x x', index_of (n :: nbrs) x < index_of (n :: nbrs) x')%nat news).
    { intros news Hne. apply StronglySorted_on. intros x y Hx Hy Hlt.
      rewrite !index_of_cons_ne by (apply not_eq_sym; by apply Hne). lia. }
    destruct (decide (n ∈ visited)) as [Hin|Hnin].
    + intros Hc. destruct (IH _ _ Hc) as (news & -> & Hnews & Hsorted).
      exists news. split; [done|]. split.
      * intros x Hx. destruct (Hnews x Hx). split; [by right | done].
      * apply Hshift; [|done]. intros x Hx ->. by destruct (Hnews n Hx).
    + destruct (decide (n = to_id)) as [->|Hne]; [done|].
      intros Hc. destruct (IH _ _ Hc) as (news & -> & Hnews & Hsorted).
      assert (Hfresh : ∀ x, x ∈ news → x ≠ n).
      { intros x Hx ->. destruct (Hnews n Hx) as [_ Hn]. set_solver. }
      exists (n :: news). split; [by rewrite <- app_assoc|]. split.
      * intros x [->|Hx]%elem_of_cons; [split; [by left | done]|].
        destruct (Hnews x Hx) as [? Hxv]. split; [by right | set_solver].
      * apply StronglySorted_cons. split; [|by apply Hshift].
        apply Forall_forall. intros x Hx.
        rewrite (index_of_cons_ne n x) by (apply not_eq_sym; by apply Hfresh).
        cbn [index_of]. rewrite decide_True by done. lia.
Qed.

(** ** The search loop, in order *)

Section SearchOrder.
Variable net : RoadNetwork.
Variables from_id to_id : IntersectionId.

Abbreviation inv := (bfs_inv net from_id to_id).
Abbreviation order := (bfs_order net from_id).
Abbreviation before := (λ p q, discovered_before net p q = true).

Abbreviation first_discovered := (first_discovered net from_id to_id).

Lemma bfs_order_init : order [[from_id]] [].
Proof.
  split.
  - repeat constructor.
  - constructor.
  - by intros p q ?%elem_of_nil.
  - intros p w ->%list_elem_of_singleton Hhd _ Hlen _. left.
    destruct w as [|a [|b w]]; try done. by injection Hhd as ->.
Qed.

Lemma bfs_order_rotate qb : order [] qb → order qb [].
Proof.
  intros [Ha Hb Hab Hfirst]. split; [done | constructor | |].
  - by intros p q ?%elem_of_nil.
  - intros p w Hp. apply Hfirst. by rewrite app_nil_r in Hp.
Qed.

(** The path at the head of the queue comes before every other walk of
    its length that ends where something is still to be discovered. *)
Lemma bfs_order_current m visited path qa qb w y x :
  inv m visited (path :: qa) qb → order (path :: qa) qb →
  head w = Some from_id → is_walk net w → length w = S m →
  last w = Some y → x ∈ neighbors net y → x ∉ visited →
  w = path ∨ before path w.
Proof.
  intros [Hpaths Hfrom Hto Hla Hlb Hfront Hnear Hfar] [Ha Hb Hab Hfirst]
    Hhd Hwalk Hlen Hlast Hx Hnv.
  assert (Hhops : hops net from_id m y).
  { replace m with (length w - 1)%nat by lia. by apply hops_of_path. }
  destruct (Hfront y (Hnear m y Hhops ltac:(lia))) as [Hclosed|(p & Hp & Hl)].
  { destruct Hnv. by apply Hclosed. }
  apply elem_of_app in Hp as [Hp|Hp];
    [|pose proof (Hfar p y m Hp Hl Hhops); lia].
  assert (Hpw : w = p ∨ before p w).
  { apply Hfirst; [apply elem_of_app; by left | done | done | | congruence].
    rewrite Hlen. symmetry. by apply Hla. }
  apply elem_of_cons in Hp as [->|Hp]; [done|].
  right. apply StronglySorted_cons in Ha as [Hhead _].
  rewrite Forall_forall in Hhead. specialize (Hhead p Hp).
  destruct Hpw as [->|Hpw]; [done|]. by apply discovered_before_trans with p.
Qed.

(** A walk of one hop more, ending at something not yet visited, does not
    come before the extension of the path at the head of the queue. *)
Lemma bfs_order_extend m visited path qa qb w x :
  inv m visited (path :: qa) qb → order (path :: qa) qb →
  head w = Some from_id → is_walk net w → length w = S (S m) →
  last w = Some x → x ∉ visited →
  w = path ++ [x] ∨ before (path ++ [x]) w.
Proof.
  intros Hinv Hord Hhd Hwalk Hlen Hlast Hnv.
  destruct w as [|z w _] using rev_ind; [done|].
  rewrite last_snoc in Hlast. injection Hlast as ->.
  rewrite length_app in Hlen. cbn [length] in Hlen.
  assert (Hne : w ≠ []) by (intros ->; cbn in Hlen; lia).
  destruct (is_walk_snoc_inv net w x Hne Hwalk) as (Hw & y & Hy & Hxy).
  assert (Hhw : head w = Some from_id) by (by destruct w).
  destruct (bfs_order_current m visited path qa qb w y x Hinv Hord
              Hhw Hw ltac:(lia) Hy Hxy Hnv) as [->|Hlt].
  - by left.
  - right. by apply discovered_before_snoc.
Qed.

Lemma bfs_order_step m visited path current qa qb visited' queue' :
  inv m visited (path :: qa) qb → order (path :: qa) qb →
  last path = Some current →
  expand to_id path (neighbors net current) visited (qa ++ qb)
  = Continue visited' queue' →
  ∃ qb', queue' = qa ++ qb' ∧ order qa qb'.
Proof.
  intros Hinv Hord Hlast Hexp.
  pose proof Hinv as [Hpaths Hfrom Hto Hla Hlb Hfront Hnear Hfar].
  pose proof Hord as [Ha Hb Hab Hfirst].
  apply expand_Continue_order in Hexp as (news & -> & Hnews & Hsorted).
  exists (qb ++ ((λ n, path ++ [n]) <$> news)).
  split; [by rewrite app_assoc|].
  apply StronglySorted_cons in Ha as [Hhead Hqa].
  rewrite Forall_forall in Hhead.
  assert (Hnew : ∀ p, p ∈ (λ n, path ++ [n]) <$> news →
            ∃ n, p = path ++ [n] ∧ n ∈ news).
  { by intros p ?%list_elem_of_fmap. }
  split.
  - done.
  - apply StronglySorted_app. split; [|split; [done|]].
    + intros p q Hp Hq. destruct (Hnew q Hq) as (n & -> & Hn).
      pose proof (Hab p path Hp ltac:(by left)) as Hlt.
      pose proof (Hlb p Hp) as Hlen.
      destruct p as [|z rp _] using rev_ind; [done|].
      rewrite removelast_last in Hlt. by apply discovered_before_snoc.
    + eapply StronglySorted_fmap; [|exact Hsorted].
      intros n n' Hlt. by apply discovered_before_last with current.
  - intros p q [Hp|Hp]%elem_of_app Hq.
    + apply Hab; [done | by right].
    + destruct (Hnew p Hp) as (n & -> & _). rewrite removelast_last.
      by apply Hhead.
  - intros p w [Hp|[Hp|Hp]%elem_of_app]%elem_of_app Hhw Hww Hlen Hlw.
    + apply Hfirst; [|done..]. right. apply elem_of_app. by left.
    + apply Hfirst; [|done..]. apply elem_of_app. by right.
    + destruct (Hnew p Hp) as (n & -> & Hn). destruct (Hnews n Hn) as [_ Hnv].
      rewrite last_snoc in Hlw.
      rewrite length_app, (Hla path ltac:(by left)) in Hlen.
      cbn [length] in Hlen.
      apply (bfs_order_extend m visited path qa qb); [done..|lia|done|done].
Qed.

Lemma bfs_order_found m visited path current qa qb r :
  inv m visited (path :: qa) qb → order (path :: qa) qb →
  last path = Some current →
  expand to_id path (neighbors net current) visited (qa ++ qb) = Found r →
  first_discovered r.
Proof.
  intros Hinv Hord Hlast Hexp p (Hhd & Hlp & Hwp) Hlen.
  apply expand_Found in Hexp as [-> Hnb].
  rewrite length_app, (inv_len_a _ _ _ _ _ _ _ Hinv path ltac:(by left)) in Hlen.
  cbn [length] in Hlen.
  apply (bfs_order_extend m visited path qa qb); [done..|lia|done|].
  apply (inv_to _ _ _ _ _ _ _ Hinv).
Qed.

Lemma bfs_round_first fuel m visited path qa qb r :
  (∀ m' visited' qa' qb' r',
     inv m' visited' qa' qb' → order qa' qb' →
     bfs_loop fuel net to_id visited' (qa' ++ qb') = Some (Ok r') →
     first_discovered r') →
  inv m visited (path :: qa) qb → order (path :: qa) qb →
  bfs_loop (S fuel) net to_id visited ((path :: qa) ++ qb) = Some (Ok r) →
  first_discovered r.
Proof.
  intros IH Hinv Hord. cbn [bfs_loop app].
  destruct (inv_paths _ _ _ _ _ _ _ Hinv path ltac:(by left))
    as (_ & _ & current & Hlast & _).
  unfold py_last. rewrite Hlast.
  destruct (expand to_id path (neighbors net current) visited (qa ++ qb))
    as [r0|visited' queue'] eqn:Hexp.
  - intros [= <-]. by apply (bfs_order_found _ _ _ _ _ _ _ Hinv Hord Hlast).
  - destruct (bfs_inv_step _ _ _ _ _ _ _ _ _ _ _ Hinv Hlast Hexp)
      as (qb' & -> & Hinv').
    destruct (bfs_order_step _ _ _ _ _ _ _ _ Hinv Hord Hlast Hexp)
      as (qb'' & Heq & Hord').
    apply app_inv_head in Heq as <-. by apply (IH _ _ _ _ _ Hinv' Hord').
Qed.

Lemma bfs_loop_first fuel m visited qa qb r :
  inv m visited qa qb → order qa qb →
  bfs_loop fuel net to_id visited (qa ++ qb) = Some (Ok r) →
  first_discovered r.
Proof.
  revert m visited qa qb r.
  induction fuel as [|fuel IH]; intros m visited qa qb r Hinv Hord; [done|].
  destruct qa as [|path qa].
  - destruct qb as [|path qb].
    + intros [= <-] p (Hhd & _) Hlen. by destruct p.
    + apply bfs_inv_rotate in Hinv. apply bfs_order_rotate in Hord.
      replace ([] ++ path :: qb) with ((path :: qb) ++ [])
        by (by rewrite app_nil_r).
      by apply (bfs_round_first fuel (S m)).
  - by apply (bfs_round_first fuel m).
Qed.

Lemma shortest_path_first r :
  shortest_path net from_id to_id = Some (Ok r) → first_discovered r.
Proof.
  unfold shortest_path. destruct (decide (from_id = to_id)) as [->|Hne].
  - intros [= <-] p (Hhd & _) Hlen. left.
    destruct p as [|a [|b p]]; try done. by injection Hhd as ->.
  - apply (bfs_loop_first _ 0 {[from_id]} [[from_id]] []).
    + by apply bfs_inv_init.
    + apply bfs_order_init.
Qed.
End SearchOrder.

Lemma is_walk_lookup net (p : list IntersectionId) (i : nat) x y :
  is_walk net p → p !! i = Some x → p !! S i = Some y →
  y ∈ neighbors net x.
Proof.
  revert i. induction p as [|a p IH]; intros i Hw Hx Hy; [done|].
  destruct p as [|b p]; [done|].
  apply is_walk_cons2 in Hw as [Hab Hw].
  destruct i as [|i].
  - injection Hx as ->. by injection Hy as ->.
  - by apply (IH i).
Qed.

(** ** Claims about routing *)

(** C8. For every network and every pair of intersection ids,
    [shortest_path] returns: it gives [[from_id]] when the two are equal;
    otherwise, when a directed path exists, it gives a path from [from_id]
    to [to_id] in which every consecutive pair is one hop of the adjacency
    listing, and no path between the two has fewer hops; and it gives the
    empty list exactly when no path exists. Among the paths of that least
    number of hops it gives the one discovered first: where another such
    path parts from it, the next intersection of the result stands earlier
    in the adjacency list of the intersection they share. In a network
    built by [add_intersection] and [add_road], every hop of the result is
    a road that was added. *)
Theorem shortest_path_correct net from_id to_id :
  ∃ r,
    shortest_path net from_id to_id = Some (Ok r)
    ∧ (from_id = to_id → r = [from_id])
    ∧ (from_id ≠ to_id →
       (∃ p, path_between net from_id to_id p) →
       path_between net from_id to_id r
       ∧ ∀ p, path_between net from_id to_id p → (length r ≤ length p)%nat)
    ∧ (r = [] ↔ ¬ ∃ p, path_between net from_id to_id p)
    ∧ (∀ p, path_between net from_id to_id p → length p = length r →
            p = r ∨ discovered_before net r p = true)
    ∧ (∀ rs, built_from rs net →
       ∀ (i : nat) x y, r !! i = Some x → r !! S i = Some y →
         ∃ road, road ∈ rs ∧ from_intersection road = x
                 ∧ to_intersection road = y).
Proof.
  assert (Hroads : ∀ r, is_walk net r →
            ∀ rs, built_from rs net →
            ∀ (i : nat) x y, r !! i = Some x → r !! S i = Some y →
              ∃ road, road ∈ rs ∧ from_intersection road = x
                      ∧ to_intersection road = y).
  { intros r Hw rs Hrs i x y Hx Hy. apply (built_neighbors rs net Hrs).
    by apply (is_walk_lookup net r i). }
  destruct (decide (from_id = to_id)) as [->|Hne].
  - exists [to_id].
    assert (Hr : shortest_path net to_id to_id = Some (Ok [to_id])).
    { unfold shortest_path. by rewrite decide_True. }
    split; [done|]. split; [done|]. split; [done|]. split; [|split].
    + split; [done|]. intros Hno. exfalso. apply Hno. by exists [to_id].
    + by apply shortest_path_first.
    + by apply Hroads.
  - destruct (shortest_path_search net from_id to_id Hne)
      as (r & Hr & [[-> Hnone]|[Hpath Hmin]]).
    + exists []. split; [done|]. split; [done|]. split; [|split; [|split]].
      * intros _ [p Hp]. by destruct (Hnone p).
      * split; [|done]. intros _ [p Hp]. by destruct (Hnone p).
      * by apply shortest_path_first.
      * by apply Hroads.
    + exists r. split; [done|]. split; [done|]. split; [done|].
      split; [|split].
      * split; [|intros Hno; exfalso; apply Hno; by exists r].
        intros ->. by destruct Hpath as [? _].
      * by apply shortest_path_first.
      * apply Hroads. by destruct Hpath as (_ & _ & ?).
Qed.

(** Between equally short paths the one found first wins: the adjacency
    list of I-0-0 names I-1-0 before I-0-1. *)
Example shortest_path_first_discovered :
  shortest_path grid_2x2 "I-0-0" "I-1-1"
  = Some (Ok ["I-0-0"; "I-1-0"; "I-1-1"]).
Proof. vm_compute. reflexivity. Qed.

(** The two-by-two grid, corner to opposite corner: of the two paths of
    two hops, the one by way of I-1-0 is returned, and the one by way of
    I-0-1 is discovered after it. *)
Lemma shortest_path_correct_witness :
  ("I-0-0" : IntersectionId) ≠ "I-1-1"
  ∧ path_between grid_2x2 "I-0-0" "I-1-1" ["I-0-0"; "I-0-1"; "I-1-1"]
  ∧ ∃ r, shortest_path grid_2x2 "I-0-0" "I-1-1" = Some (Ok r)
         ∧ r = ["I-0-0"; "I-1-0"; "I-1-1"]
         ∧ path_between grid_2x2 "I-0-0" "I-1-1" r
         ∧ (length r ≤ 3)%nat
         ∧ discovered_before grid_2x2 r ["I-0-0"; "I-0-1"; "I-1-1"] = true.
Proof.
  assert (Hne : ("I-0-0" : IntersectionId) ≠ "I-1-1") by discriminate.
  assert (Hp : path_between grid_2x2 "I-0-0" "I-1-1"
                 ["I-0-0"; "I-0-1"; "I-1-1"]).
  { split; [reflexivity|]. split; [reflexivity|].
    vm_compute. repeat split; repeat constructor. }
  split; [exact Hne|]. split; [exact Hp|].
  destruct (shortest_path_correct grid_2x2 "I-0-0" "I-1-1")
    as (r & Hr & _ & Hfound & _ & Hfirst & _).
  assert (Hc : shortest_path grid_2x2 "I-0-0" "I-1-1"
               = Some (Ok ["I-0-0"; "I-1-0"; "I-1-1"]))
    by (vm_compute; reflexivity).
  assert (Hrc : r = ["I-0-0"; "I-1-0"; "I-1-1"]) by congruence.
  exists r. split; [exact Hr|]. split; [exact Hrc|].
  destruct (Hfound Hne (ex_intro _ _ Hp)) as [Hpath Hmin].
  split; [exact Hpath|]. split; [exact (Hmin _ Hp)|].
  destruct (Hfirst _ Hp) as [Heq|Hlt].
  - by rewrite Hrc.
  - rewrite Hrc in Heq. discriminate Heq.
  - exact Hlt.
Defined.

(** * Further properties of the code *)

(** ** Directions *)

(** X1. [Direction.opposite] is an involution without fixed point that
    stays on the axis, and two directions share an axis exactly when they
    are equal or opposite. *)
Theorem opposite_axis (d d' : Direction) :
  opposite (opposite d) = d
  ∧ opposite d ≠ d
  ∧ axis (opposite d) = axis d
  ∧ (axis d = axis d' ↔ d' = d ∨ d' = opposite d).
Proof.
  split; [by destruct d|]. split; [by destruct d|]. split; [by destruct d|].
  split.
  - destruct d, d'; cbn; intros Hax; try discriminate Hax; auto.
  - by intros [->| ->]; destruct d.
Qed.

(** ** The cycle of a plan *)

Lemma sum_durations_app (ps qs : list SignalPhase) :
  foldr Z.add 0 (duration <$> ps ++ qs)
  = foldr Z.add 0 (duration <$> ps) + foldr Z.add 0 (duration <$> qs).
Proof.
  induction ps as [|p0 ps IH]; [done|].
  cbn [app fmap list_fmap foldr] in *. rewrite IH. lia.
Qed.

Lemma sum_durations_nonneg (ps : list SignalPhase) :
  (∀ ph, ph ∈ ps → 0 ≤ duration ph) →
  0 ≤ foldr Z.add 0 (duration <$> ps).
Proof.
  induction ps as [|p0 ps IH]; intros Hnn; [done|].
  cbn [fmap list_fmap foldr].
  pose proof (Hnn p0 ltac:(by left)).
  pose proof (IH (λ ph Hph, Hnn ph ltac:(by right))). lia.
Qed.

Lemma cumulative_end_start p (k : nat) phase :
  phases p !! k = Some phase →
  cumulative_end p k = cumulative_start p k + duration phase.
Proof.
  intros Hk. unfold cumulative_end, cumulative_start.
  rewrite (take_S_r _ _ _ Hk), sum_durations_app. simpl. lia.
Qed.

Lemma phase_at_tick_in_plan p tick phase :
  phase_at_tick p tick = Ok phase → phase ∈ phases p.
Proof.
  unfold phase_at_tick, py_mod.
  destruct (phases p) as [|first rest] eqn:Hps; [done|].
  case_bool_decide; cbn [bind]; [done|].
  destruct (scan_phases _ 0 (first :: rest)) as [ph|] eqn:Hscan.
  - intros [= <-]. apply scan_phases_Some in Hscan as (k & Hk & _).
    by apply list_elem_of_lookup_2 in Hk.
  - intros [= <-]. apply last_Some_elem_of.
    by apply (List_last_Some (first :: rest) first).
Qed.

Lemma phase_at_tick_shift p tick (k : Z) :
  phase_at_tick p (tick + k * cycle_length p) = phase_at_tick p tick.
Proof.
  unfold phase_at_tick, py_mod.
  destruct (phases p) as [|first rest]; [done|].
  case_bool_decide; [done|]. cbn [bind].
  by rewrite Z_mod_plus_full.
Qed.

(** X2. The fixed-time schedule is periodic: a tick and the same tick any
    whole number of cycle lengths away, before or after, give the same
    phase lookup and the same update, exceptions included. *)
Theorem update_periodic c i tick (k : Z) :
  phase_at_tick (plan c) (tick + k * cycle_length (plan c))
  = phase_at_tick (plan c) tick
  ∧ update c i (tick + k * cycle_length (plan c)) = update c i tick.
Proof.
  split; [apply phase_at_tick_shift|].
  unfold update. by rewrite phase_at_tick_shift.
Qed.

(** X3. In a plan whose durations are all non-negative and do not sum to
    zero, the lookup never falls back: it returns the phase whose window of
    the cycle, from the durations before it up to its own, contains
    [tick mod cycle_length]; a phase of zero ticks is never returned. *)
Theorem phase_at_tick_window p tick :
  (∀ ph, ph ∈ phases p → 0 ≤ duration ph) →
  cycle_length p ≠ 0 →
  ∃ (k : nat) phase,
    phases p !! k = Some phase
    ∧ phase_at_tick p tick = Ok phase
    ∧ cumulative_start p k ≤ tick `mod` cycle_length p
      < cumulative_start p k + duration phase
    ∧ 0 < duration phase.
Proof.
  intros Hnn Hc.
  pose proof (sum_durations_nonneg _ Hnn) as Hsum.
  fold (cycle_length p) in Hsum.
  pose proof (Z.mod_pos_bound tick (cycle_length p) ltac:(lia)) as Hoff.
  unfold phase_at_tick, py_mod.
  destruct (phases p) as [|first rest] eqn:Hps;
    [by unfold cycle_length in Hc; rewrite Hps in Hc|].
  rewrite bool_decide_eq_false_2 by done. cbn [bind].
  destruct (scan_phases _ 0 (first :: rest)) as [phase|] eqn:Hscan.
  - apply scan_phases_Some in Hscan as (k & Hk & Hex & Hmin).
    rewrite <- Hps in Hk, Hex, Hmin.
    fold (cumulative_end p k) in Hex.
    rewrite (cumulative_end_start p k phase Hk) in Hex.
    assert (Hstart : cumulative_start p k ≤ tick `mod` cycle_length p).
    { destruct k as [|k]; [unfold cumulative_start; simpl; lia|].
      specialize (Hmin k ltac:(lia)).
      change (foldr Z.add 0 (duration <$> take (S k) (phases p)))
        with (cumulative_start p (S k)) in Hmin. lia. }
    exists k, phase. split; [by rewrite <- Hps|]. split; [done|]. lia.
  - pose proof (scan_phases_None _ _ _ Hscan (length rest)
                  ltac:(simpl; lia)) as Hlast.
    rewrite firstn_all2 in Hlast by (simpl; lia).
    rewrite <- Hps in Hlast. fold (cycle_length p) in Hlast. lia.
Qed.

(** The default plan at tick 33 is three ticks into its YELLOW phase. *)
Lemma phase_at_tick_window_witness :
  ∃ (k : nat) phase,
    phases (default_four_way 30 5) !! k = Some phase
    ∧ phase_at_tick (default_four_way 30 5) 33 = Ok phase
    ∧ cumulative_start (default_four_way 30 5) k
      ≤ 33 `mod` cycle_length (default_four_way 30 5)
      < cumulative_start (default_four_way 30 5) k + duration phase
    ∧ 0 < duration phase.
Proof.
  apply (phase_at_tick_window (default_four_way 30 5) 33).
  - intros ph Hph. unfold default_four_way in Hph. cbn [phases] in Hph.
    repeat (apply elem_of_cons in Hph as [->|Hph]; [cbn; lia|]).
    by apply elem_of_nil in Hph.
  - vm_compute. discriminate.
Defined.

(** ** What an update shows *)

Lemma update_shows c i tick phase i' :
  update c i tick = Ok (phase, i') →
  ∀ d, signal_states i' !! d
       = Some (if decide (d ∈ green_directions phase) then state phase else RED).
Proof.
  destruct (preempting c) as [d0|] eqn:Hp.
  - rewrite (update_preempting _ _ _ _ Hp). intros Hup d.
    injection Hup as <- <-.
    pose proof (_apply_preemption_lookup i d0 d) as Hl.
    unfold _apply_preemption in Hl. cbn [snd] in Hl. rewrite Hl.
    cbn [green_directions state].
    destruct (decide (d = d0)) as [->|Hne].
    + rewrite decide_True; [done | set_solver].
    + rewrite decide_False; [done | set_solver].
  - rewrite (update_normal _ _ _ Hp). intros Hup d.
    apply bind_Ok in Hup as (ph & _ & [= <- <-]). apply _apply_phase_lookup.
Qed.

Lemma update_phase_origin c i tick phase i' :
  update c i tick = Ok (phase, i') →
  (∃ d, phase = mkSignalPhase {[d]} 0 GREEN)
  ∨ phase ∈ phases (plan c).
Proof.
  destruct (preempting c) as [d0|] eqn:Hp.
  - rewrite (update_preempting _ _ _ _ Hp). intros Hup.
    injection Hup as <- _. left. by exists d0.
  - rewrite (update_normal _ _ _ Hp). intros Hup.
    apply bind_Ok in Hup as (ph & Hph & [= <- _]).
    right. by apply phase_at_tick_in_plan in Hph.
Qed.

(** X4. A controller that runs the default four-way plan, whatever its
    durations and whether or not a preemption is held, never lights both
    axes at once: after an update, any two directions showing GREEN or
    YELLOW lie on the same axis. *)
Theorem default_plan_axes_never_conflict g y c i tick phase i' d1 d2 :
  plan c = default_four_way g y →
  update c i tick = Ok (phase, i') →
  d1 ∈ lit_directions i' → d2 ∈ lit_directions i' →
  axis d1 = axis d2.
Proof.
  intros Hplan Hup H1 H2.
  pose proof (update_shows _ _ _ _ _ Hup) as Hshow.
  assert (Hlit : ∀ d, d ∈ lit_directions i' → d ∈ green_directions phase).
  { intros d Hd. apply elem_of_lit_directions in Hd. rewrite Hshow in Hd.
    destruct (decide (d ∈ green_directions phase)); [done|].
    by destruct Hd as [[=]|[=]]. }
  apply Hlit in H1, H2.
  destruct (update_phase_origin _ _ _ _ _ Hup) as [[d ->]|Hin].
  - cbn [green_directions] in H1, H2.
    apply elem_of_singleton in H1, H2. by subst.
  - rewrite Hplan in Hin. unfold default_four_way in Hin. cbn [phases] in Hin.
    repeat (apply elem_of_cons in Hin as [->|Hin];
            [cbn [green_directions] in H1, H2;
             apply elem_of_union in H1 as [H1|H1];
             apply elem_of_union in H2 as [H2|H2];
             apply elem_of_singleton in H1, H2; by subst|]).
    by apply elem_of_nil in Hin.
Qed.

(** The default plan at tick 40 lights EAST and WEST. *)
Lemma default_plan_axes_never_conflict_witness :
  let c := FixedTimeController_init (default_four_way 30 5) in
  let i := Intersection_init "I-0-0" (0, 0) in
  let phase := mkSignalPhase {[EAST; WEST]} 30 GREEN in
  update c i 40 = Ok (phase, _apply_phase i phase)
  ∧ EAST ∈ lit_directions (_apply_phase i phase)
  ∧ WEST ∈ lit_directions (_apply_phase i phase)
  ∧ axis EAST = axis WEST.
Proof.
  intros c i phase.
  assert (Hup : update c i 40 = Ok (phase, _apply_phase i phase))
    by reflexivity.
  assert (HE : EAST ∈ lit_directions (_apply_phase i phase)).
  { apply elem_of_lit_directions. left. reflexivity. }
  assert (HW : WEST ∈ lit_directions (_apply_phase i phase)).
  { apply elem_of_lit_directions. left. reflexivity. }
  split; [exact Hup|]. split; [exact HE|]. split; [exact HW|].
  exact (default_plan_axes_never_conflict 30 5 c i 40 _ _ EAST WEST
           eq_refl Hup HE HW).
Defined.

(** X5. After an update, [Intersection.is_green] holds for a direction
    exactly when the returned phase applies to it and is tagged GREEN: a
    YELLOW phase lets no direction pass, and neither does any direction
    outside the phase. *)
Theorem is_green_after_update c i tick phase i' d :
  update c i tick = Ok (phase, i') →
  is_green i' d = applies_to phase d && bool_decide (state phase = GREEN).
Proof.
  intros Hup. unfold is_green, applies_to.
  rewrite (update_shows _ _ _ _ _ Hup d).
  destruct (decide (d ∈ green_directions phase)) as [Hd|Hd].
  - rewrite (bool_decide_eq_true_2 (d ∈ _)) by done. cbn [andb].
    by destruct (state phase).
  - rewrite (bool_decide_eq_false_2 (d ∈ _)) by done. done.
Qed.

(** In the YELLOW phase of the default plan NORTH is lit but not green. *)
Lemma is_green_after_update_witness :
  let c := FixedTimeController_init (default_four_way 30 5) in
  let i := Intersection_init "I-0-0" (0, 0) in
  let phase := mkSignalPhase {[NORTH; SOUTH]} 5 YELLOW in
  update c i 31 = Ok (phase, _apply_phase i phase)
  ∧ is_green (_apply_phase i phase) NORTH = false.
Proof.
  intros c i phase.
  assert (Hup : update c i 31 = Ok (phase, _apply_phase i phase))
    by reflexivity.
  split; [exact Hup|].
  exact (is_green_after_update c i 31 _ _ NORTH Hup).
Defined.

(** ** Cells of a road *)

Lemma length_vehicles_cells (cs : list Cell) :
  length (omap vehicle cs)
  = length (filter (λ c, is_empty c = false) cs).
Proof.
  induction cs as [|c cs IH]; [done|].
  rewrite filter_cons. cbn [omap list_omap].
  change (list_omap _ _ vehicle cs) with (omap vehicle cs).
  destruct (decide (is_empty c = false)) as [He|He];
    unfold is_empty in He; destruct (vehicle c) as [v|]; try done;
    cbn [length]; by rewrite IH.
Qed.

Lemma is_full_cells (cs : list Cell) :
  forallb (λ c, negb (is_empty c)) cs = true
  ↔ length (filter (λ c, is_empty c = false) cs) = length cs.
Proof.
  induction cs as [|c cs IH]; [done|].
  rewrite filter_cons. cbn [forallb].
  pose proof (length_filter (λ c, is_empty c = false) cs) as Hle.
  destruct (is_empty c) eqn:Hc.
  - rewrite decide_False by done. cbn [negb andb length]. split; [done|lia].
  - rewrite decide_True by done. cbn [negb andb length]. rewrite IH. lia.
Qed.

(** X6. On every road, [vehicles] lists as many vehicles as [occupancy]
    counts occupied cells, and [is_full] holds exactly when that number is
    the number of cells; a road without cells is therefore full, at
    occupancy 0.0. *)
Theorem road_full_iff_all_occupied r :
  Z.of_nat (length (vehicles r)) = occupied_cells r
  ∧ (is_full r = true ↔ occupied_cells r = Z.of_nat (length (cells r)))
  ∧ (cells r = [] →
     is_full r = true ∧ vehicles r = []
     ∧ ∃ q, occupancy r = Ok q ∧ (q == 0)%Q).
Proof.
  unfold vehicles, occupied_cells, is_full. split; [|split].
  - by rewrite length_vehicles_cells.
  - rewrite is_full_cells. lia.
  - intros Hc. rewrite Hc. split; [done|]. split; [done|].
    unfold occupancy, py_truediv, occupied_cells. rewrite Hc.
    case_bool_decide; [by exists 0%Q|].
    eexists. split; [done|]. unfold Qeq, Qdiv, Qmult, inject_Z. simpl. lia.
Qed.

(** A road of zero cells. *)
Lemma road_full_iff_all_occupied_witness :
  let r := mkRoad "R-0" "I-0-0" "I-0-1" 0 1 [] in
  cells r = [] ∧ is_full r = true ∧ occupancy r = Ok 0%Q.
Proof.
  intros r. assert (Hc : cells r = []) by reflexivity.
  split; [exact Hc|].
  split; [|reflexivity].
  exact (proj1 (proj2 (proj2 (road_full_iff_all_occupied r)) Hc)).
Defined.

(** X7. [Road.clear] empties every cell and nothing else: the road keeps
    its id, its two intersections, its [num_cells] and its speed limit, the
    cells keep their number and indices, no vehicle is left, the occupancy
    is zero, the road is full only if it has no cells, and clearing twice
    is clearing once. *)
Theorem clear_empties_road r :
  (road_id (clear r) = road_id r
   ∧ from_intersection (clear r) = from_intersection r
   ∧ to_intersection (clear r) = to_intersection r
   ∧ num_cells (clear r) = num_cells r
   ∧ speed_limit (clear r) = speed_limit r)
  ∧ index <$> cells (clear r) = index <$> cells r
  ∧ vehicles (clear r) = []
  ∧ occupied_cells (clear r) = 0
  ∧ (∃ q, occupancy (clear r) = Ok q ∧ (q == 0)%Q)
  ∧ (is_full (clear r) = true ↔ cells r = [])
  ∧ clear (clear r) = clear r.
Proof.
  assert (Hveh : vehicles (clear r) = []).
  { unfold vehicles, clear. cbn [cells].
    induction (cells r) as [|c cs IH]; [done|]. by cbn. }
  assert (Hocc : occupied_cells (clear r) = 0).
  { unfold occupied_cells. rewrite <- length_vehicles_cells.
    fold (vehicles (clear r)). by rewrite Hveh. }
  split; [done|].
  split; [|split; [done|split; [done|split; [|split]]]].
  - unfold clear. cbn [cells]. rewrite <- list_fmap_compose.
    by apply list_fmap_ext.
  - unfold occupancy, py_truediv. rewrite Hocc. cbn [clear num_cells].
    case_bool_decide; [by exists 0%Q|].
    eexists. split; [done|]. unfold Qeq, Qdiv, Qmult, inject_Z. simpl. lia.
  - unfold is_full. rewrite is_full_cells.
    assert (Hz : length (filter (λ c, is_empty c = false) (cells (clear r)))
                 = 0%nat) by (unfold occupied_cells in Hocc; lia).
    rewrite Hz. unfold clear. cbn [cells]. rewrite length_fmap.
    destruct (cells r); simpl; split; (done || discriminate).
  - unfold clear. cbn [cells road_id from_intersection to_intersection
                        num_cells speed_limit].
    f_equal. rewrite <- list_fmap_compose. by apply list_fmap_ext.
Qed.

Lemma built_cells_lookup (n : Z) (j : nat) :
  (j < Z.to_nat n)%nat →
  ((λ i, mkCell i None) <$> py_range n) !! j = Some (mkCell (Z.of_nat j) None).
Proof.
  intros Hj. unfold py_range.
  by rewrite !list_lookup_fmap, lookup_seq_lt.
Qed.

Lemma built_cells_length (n : Z) :
  length ((λ i, mkCell i None) <$> py_range n) = Z.to_nat n.
Proof. unfold py_range. by rewrite !length_fmap, length_seq. Qed.

(** X8. On a road built without a cell list, [cell_at(i)] is the empty cell
    numbered [i] for [0 <= i < num_cells], the empty cell numbered
    [num_cells + i] for a negative [i] down to [-num_cells], and raises
    IndexError for every other index; with [num_cells <= 0] it always
    raises. *)
Theorem cell_at_built_road rid src dst n speed (i : Z) :
  cell_at (Road_post_init (mkRoad rid src dst n speed [])) i
  = if decide (0 ≤ i < n) then Ok (mkCell i None)
    else if decide (- n ≤ i < 0) then Ok (mkCell (n + i) None)
    else Raise IndexError.
Proof.
  unfold cell_at, Road_post_init, py_getitem. cbn [cells num_cells].
  rewrite built_cells_length.
  destruct (decide (0 ≤ i < n)) as [Hin|Hout].
  - rewrite (bool_decide_eq_false_2 (i < 0)) by lia.
    rewrite bool_decide_eq_true_2 by lia.
    rewrite built_cells_lookup by lia. by rewrite Z2Nat.id by lia.
  - destruct (decide (- n ≤ i < 0)) as [Hneg|Hnone].
    + rewrite (bool_decide_eq_true_2 (i < 0)) by lia.
      rewrite bool_decide_eq_true_2 by lia.
      rewrite built_cells_lookup by lia.
      do 2 f_equal. lia.
    + case_bool_decide as Hlt; [|done].
      exfalso. case_bool_decide; lia.
Qed.

(** ** Following a route *)

(** X9. On a newly constructed emergency vehicle, the calls
    [next_intersection], [advance_route], [next_intersection], ... read the
    route in order: after [k] advances the next intersection is the
    route's entry number [k], and None once [k] has reached the length of
    the route. *)
Theorem next_intersection_reads_route vid o d r t (k : nat) :
  next_intersection (Nat.iter k advance_route (EmergencyVehicle_init vid o d r t))
  = Ok (r !! k).
Proof.
  destruct (route_index_advance_n (EmergencyVehicle_init vid o d r t) k)
    as [Hi Hr].
  cbn [EmergencyVehicle_init route_index route] in Hi, Hr.
  unfold next_intersection. rewrite Hi, Hr.
  case_bool_decide as Hlt.
  - destruct (py_getitem_in_range r (0 + Z.of_nat k) ltac:(lia))
      as (x & Hx & ->).
    cbn [bind]. rewrite <- Hx. do 2 f_equal. lia.
  - symmetry. f_equal. apply lookup_ge_None. lia.
Qed.

(** ** Roads of a built network *)

Lemma built_adjacency rs net :
  built_from rs net →
  ∀ a, default [] (_adjacency net !! a)
       = (λ r, (to_intersection r, road_id r))
         <$> filter (λ r, from_intersection r = a) rs.
Proof.
  induction 1 as [|rs net i _ IH|rs net r _ IH]; intros a.
  - unfold empty_network. cbn [_adjacency]. by rewrite lookup_empty.
  - unfold add_intersection, setdefault_append. cbn [_adjacency].
    destruct (decide (intersection_id i = a)) as [->|Hne].
    + rewrite lookup_insert_eq. cbn [from_option id].
      by rewrite app_nil_r.
    + by rewrite lookup_insert_ne.
  - unfold add_road, setdefault_append. cbn [_adjacency].
    rewrite filter_app, fmap_app, <- IH.
    destruct (decide (from_intersection r = a)) as [Heq|Hne].
    + rewrite Heq, lookup_insert_eq. cbn [from_option id].
      rewrite filter_cons, decide_True by done. by rewrite filter_nil.
    + rewrite lookup_insert_ne by done.
      rewrite filter_cons, decide_False by done.
      by rewrite filter_nil, app_nil_r.
Qed.

Lemma built_roads rs net :
  built_from rs net →
  ∀ k, roads net !! k = last (filter (λ r, road_id r = k) rs).
Proof.
  induction 1 as [|rs net i _ IH|rs net r _ IH]; intros k.
  - unfold empty_network. cbn [roads]. by rewrite lookup_empty.
  - apply IH.
  - unfold add_road. cbn [roads]. rewrite filter_app.
    destruct (decide (road_id r = k)) as [Heq|Hne].
    + rewrite Heq, lookup_insert_eq.
      rewrite filter_cons, decide_True by done.
      by rewrite filter_nil, last_snoc.
    + rewrite lookup_insert_ne by done.
      rewrite filter_cons, decide_False by done.
      by rewrite filter_nil, app_nil_r.
Qed.

Lemma find_road_joined roads to_id (l : list Road) :
  find_road roads to_id ((λ r, (to_intersection r, road_id r)) <$> l)
  = match List.find (λ r, bool_decide (to_intersection r = to_id)) l with
    | None => inr None
    | Some r0 =>
        match roads !! road_id r0 with
        | Some r => inr (Some r)
        | None => inl (KeyError (road_id r0))
        end
    end.
Proof.
  induction l as [|r l IH]; [done|].
  cbn [fmap list_fmap find_road List.find].
  change (list_fmap _ _ ?f l) with (f <$> l).
  destruct (decide (to_intersection r = to_id)) as [Heq|Hne].
  - by rewrite bool_decide_eq_true_2.
  - by rewrite bool_decide_eq_false_2.
Qed.

Lemma NoDup_fmap_eq {A B : Type} (f : A → B) (l : list A) (x y : A) :
  NoDup (f <$> l) → x ∈ l → y ∈ l → f x = f y → x = y.
Proof.
  induction l as [|a l IH]; [by intros _ ?%elem_of_nil|].
  rewrite fmap_cons, NoDup_cons.
  intros [Ha Hnd] [->|Hx]%elem_of_cons [->|Hy]%elem_of_cons Hf; [done| | |].
  - destruct Ha. rewrite Hf. by apply list_elem_of_fmap_2.
  - destruct Ha. rewrite <- Hf. by apply list_elem_of_fmap_2.
  - by apply IH.
Qed.

(** X10. On a network built by [add_intersection] and [add_road],
    [road_between] never raises KeyError; it returns None exactly when the
    second intersection is not a neighbour of the first; and when no two
    added roads share an id, the road it returns is an added road that
    leaves the first intersection and reaches the second. *)
Theorem road_between_built rs net a b :
  built_from rs net →
  (∃ found, road_between net a b = inr found)
  ∧ (road_between net a b = inr None ↔ b ∉ neighbors net a)
  ∧ (NoDup (road_id <$> rs) →
     ∀ r, road_between net a b = inr (Some r) →
          r ∈ rs ∧ from_intersection r = a ∧ to_intersection r = b).
Proof.
  intros Hb. unfold road_between, neighbors.
  rewrite (built_adjacency _ _ Hb a), find_road_joined.
  set (l := filter (λ r, from_intersection r = a) rs).
  destruct (List.find (λ r, bool_decide (to_intersection r = b)) l)
    as [r0|] eqn:Hfind.
  - apply List.find_some in Hfind as [Hin Hto].
    apply list_elem_of_In, list_elem_of_filter in Hin as [Hfrom Hin].
    apply bool_decide_eq_true_1 in Hto.
    rewrite (built_roads _ _ Hb (road_id r0)).
    assert (Hmem : r0 ∈ filter (λ r, road_id r = road_id r0) rs)
      by (by apply list_elem_of_filter).
    destruct (last (filter (λ r, road_id r = road_id r0) rs))
      as [r'|] eqn:Hlast;
      [|apply last_None in Hlast; rewrite Hlast in Hmem;
        by apply elem_of_nil in Hmem].
    split; [by eexists|]. split.
    + split; [done|]. intros Hnot. destruct Hnot.
      rewrite <- list_fmap_compose. rewrite <- Hto.
      apply (list_elem_of_fmap_2 (fst ∘ (λ r, (to_intersection r, road_id r)))).
      by apply list_elem_of_filter.
    + intros Hnd r [= <-].
      apply last_Some_elem_of, list_elem_of_filter in Hlast as [Hid Hin'].
      assert (r' = r0) as -> by (by apply (NoDup_fmap_eq road_id rs)).
      done.
  - split; [by eexists|]. split; [|done].
    split; [|done]. intros _ Hin.
    rewrite <- list_fmap_compose in Hin.
    apply list_elem_of_fmap in Hin as (r & Hr & Hin). cbn in Hr.
    apply list_elem_of_In in Hin.
    pose proof (List.find_none _ _ Hfind r Hin) as Hno. cbn in Hno.
    by rewrite bool_decide_eq_true_2 in Hno.
Qed.

(** The road east out of I-0-0 on the two-by-two grid. *)
Lemma road_between_built_witness :
  built_from grid_2x2_roads grid_2x2
  ∧ NoDup (road_id <$> grid_2x2_roads)
  ∧ road_between grid_2x2 "I-0-0" "I-0-1"
    = inr (Some (grid_road "R-I-0-0-E" "I-0-0" "I-0-1"))
  ∧ from_intersection (grid_road "R-I-0-0-E" "I-0-0" "I-0-1") = "I-0-0".
Proof.
  assert (Hnd : NoDup (road_id <$> grid_2x2_roads)).
  { apply (bool_decide_unpack (NoDup (road_id <$> grid_2x2_roads))).
    vm_compute. exact I. }
  assert (Hrb : road_between grid_2x2 "I-0-0" "I-0-1"
                = inr (Some (grid_road "R-I-0-0-E" "I-0-0" "I-0-1")))
    by (vm_compute; reflexivity).
  split; [exact grid_2x2_built|]. split; [exact Hnd|]. split; [exact Hrb|].
  exact (proj1 (proj2 (proj2 (proj2
           (road_between_built grid_2x2_roads grid_2x2 "I-0-0" "I-0-1"
              grid_2x2_built)) Hnd _ Hrb))).
Defined.

(** With a road id used twice, [road_between] hands out the later road,
    which need not join the two intersections. *)
Example road_between_reused_id :
  let net := add_road (add_road empty_network
                         (mkRoad "R" "I-0-0" "I-0-1" 3 1 []))
                      (mkRoad "R" "I-1-0" "I-1-1" 3 1 []) in
  road_between net "I-0-0" "I-0-1"
  = inr (Some (mkRoad "R" "I-1-0" "I-1-1" 3 1 [])).
Proof. vm_compute. reflexivity. Qed.

(** ** Cutting and joining walks *)

Lemma is_walk_app_inv net (l1 l2 : list IntersectionId) :
  is_walk net (l1 ++ l2) → is_walk net l1 ∧ is_walk net l2.
Proof.
  induction l1 as [|a l1 IH]; [done|].
  destruct l1 as [|b l1].
  - destruct l2 as [|c l2]; [done|].
    by intros [_ ?]%(is_walk_cons2 net a c l2).
  - intros [Hab Hw]%(is_walk_cons2 net a b (l1 ++ l2)).
    destruct (IH Hw) as [H1 H2]. split; [|done].
    by apply is_walk_cons2.
Qed.

Lemma is_walk_join net (l1 l2 : list IntersectionId) x :
  is_walk net (l1 ++ [x]) → is_walk net (x :: l2) →
  is_walk net (l1 ++ x :: l2).
Proof.
  induction l1 as [|a l1 IH]; [done|].
  destruct l1 as [|b l1].
  - intros [Hx _]%(is_walk_cons2 net a x []) Hw.
    by apply (is_walk_cons2 net a x l2).
  - intros [Hab Hw1]%(is_walk_cons2 net a b (l1 ++ [x])) Hw2.
    apply (is_walk_cons2 net a b (l1 ++ x :: l2)). split; [done|].
    by apply IH.
Qed.

Lemma is_walk_mono net net' (p : list IntersectionId) :
  (∀ a x, x ∈ neighbors net a → x ∈ neighbors net' a) →
  is_walk net p → is_walk net' p.
Proof.
  intros Hsub. induction p as [|a p IH]; [done|].
  destruct p as [|b p]; [done|].
  intros [Hab Hw]%is_walk_cons2. apply is_walk_cons2. split; [by apply Hsub|].
  by apply IH.
Qed.

Lemma repeated_split (l : list IntersectionId) :
  ¬ NoDup l → ∃ l1 x l2 l3, l = l1 ++ x :: l2 ++ x :: l3.
Proof.
  induction l as [|a l IH]; [by intros []; constructor|].
  intros Hdup. destruct (decide (a ∈ l)) as [Hin|Hnin].
  - apply list_elem_of_split in Hin as (l2 & l3 & ->). by exists [], a, l2, l3.
  - destruct IH as (l1 & x & l2 & l3 & ->).
    { intros Hnd. apply Hdup. by constructor. }
    by exists (a :: l1), x, l2, l3.
Qed.

(** What [shortest_path] returns, for equal ids as well. *)
Lemma shortest_path_spec net a b :
  ∃ r, shortest_path net a b = Some (Ok r) ∧ shortest_or_none net a b r.
Proof.
  destruct (decide (a = b)) as [->|Hne];
    [|by apply shortest_path_search].
  exists [b]. unfold shortest_path. rewrite decide_True by done.
  split; [done|]. right. split; [done|].
  intros p (Hhd & _ & _). destruct p; [done|]. simpl. lia.
Qed.

Lemma shortest_path_some net a b p0 :
  path_between net a b p0 →
  ∃ r, shortest_path net a b = Some (Ok r)
       ∧ path_between net a b r
       ∧ ∀ p, path_between net a b p → (length r ≤ length p)%nat.
Proof.
  intros Hp0.
  destruct (shortest_path_spec net a b) as (r & Hr & [[_ Hnone]|Hsome]).
  - by destruct (Hnone p0).
  - by exists r.
Qed.

Lemma shortest_path_found net a b r :
  shortest_path net a b = Some (Ok r) → r ≠ [] →
  path_between net a b r
  ∧ ∀ p, path_between net a b p → (length r ≤ length p)%nat.
Proof.
  intros Hr Hne.
  destruct (shortest_path_spec net a b) as (r' & Hr' & [[-> _]|Hsome]).
  - congruence.
  - by replace r with r' by congruence.
Qed.

(** ** Further properties of routing *)

(** X11. Adding a road or an intersection to a network never loses a
    route: wherever [shortest_path] found a path before, it finds one
    after, and one that is not longer. *)
Theorem shortest_path_never_longer net a b r :
  shortest_path net a b = Some (Ok r) → r ≠ [] →
  (∀ road, ∃ r',
     shortest_path (add_road net road) a b = Some (Ok r')
     ∧ r' ≠ [] ∧ (length r' ≤ length r)%nat)
  ∧ (∀ i, ∃ r',
       shortest_path (add_intersection net i) a b = Some (Ok r')
       ∧ r' ≠ [] ∧ (length r' ≤ length r)%nat).
Proof.
  intros Hr Hne.
  destruct (shortest_path_found _ _ _ _ Hr Hne) as [(Hhd & Hlast & Hw) _].
  assert (Hgrow : ∀ net',
            (∀ x y, y ∈ neighbors net x → y ∈ neighbors net' x) →
            ∃ r', shortest_path net' a b = Some (Ok r')
                  ∧ r' ≠ [] ∧ (length r' ≤ length r)%nat).
  { intros net' Hsub.
    assert (Hp : path_between net' a b r).
    { split; [done|]. split; [done|]. by apply (is_walk_mono net). }
    destruct (shortest_path_some _ _ _ _ Hp) as (r' & Hr' & Hp' & Hmin).
    exists r'. split; [done|]. split; [|by apply Hmin].
    intros ->. by destruct Hp' as [? _]. }
  split.
  - intros road. apply Hgrow. intros x y Hy.
    rewrite neighbors_add_road. apply elem_of_app. by left.
  - intros i. apply Hgrow. intros x y Hy.
    by rewrite neighbors_add_intersection.
Qed.

(** A road from I-0-0 straight to I-1-1 shortens the route across the
    grid. *)
Lemma shortest_path_never_longer_witness :
  let diagonal := mkRoad "R-diagonal" "I-0-0" "I-1-1" 3 1 [] in
  shortest_path grid_2x2 "I-0-0" "I-1-1"
  = Some (Ok ["I-0-0"; "I-1-0"; "I-1-1"])
  ∧ ∃ r', shortest_path (add_road grid_2x2 diagonal) "I-0-0" "I-1-1"
          = Some (Ok r')
          ∧ (length r' ≤ 3)%nat.
Proof.
  intros diagonal.
  assert (Hr : shortest_path grid_2x2 "I-0-0" "I-1-1"
               = Some (Ok ["I-0-0"; "I-1-0"; "I-1-1"]))
    by (vm_compute; reflexivity).
  split; [exact Hr|].
  destruct (proj1 (shortest_path_never_longer grid_2x2 "I-0-0" "I-1-1" _ Hr
                     ltac:(discriminate)) diagonal) as (r' & Hr' & _ & Hle).
  exists r'. split; [exact Hr' | exact Hle].
Defined.

(** X12. The path [shortest_path] returns visits no intersection twice. *)
Theorem shortest_path_simple net a b r :
  shortest_path net a b = Some (Ok r) → NoDup r.
Proof.
  intros Hr. destruct (decide (r = [])) as [->|Hne]; [constructor|].
  destruct (shortest_path_found _ _ _ _ Hr Hne) as [(Hhd & Hlast & Hw) Hmin].
  destruct (decide (NoDup r)) as [|Hdup]; [done|]. exfalso.
  apply repeated_split in Hdup as (l1 & x & l2 & l3 & ->).
  assert (Hshort : path_between net a b (l1 ++ x :: l3)).
  { split; [by destruct l1|]. split.
    - rewrite last_app_cons in Hlast |- *.
      change (x :: l2 ++ x :: l3) with ((x :: l2) ++ x :: l3) in Hlast.
      by rewrite last_app_cons in Hlast.
    - apply is_walk_join.
      + replace (l1 ++ x :: l2 ++ x :: l3)
          with ((l1 ++ [x]) ++ l2 ++ x :: l3) in Hw
          by (by rewrite <- app_assoc).
        by apply is_walk_app_inv in Hw as [? _].
      + replace (l1 ++ x :: l2 ++ x :: l3)
          with ((l1 ++ x :: l2) ++ x :: l3) in Hw
          by (by rewrite <- app_assoc).
        by apply is_walk_app_inv in Hw as [_ ?]. }
  specialize (Hmin _ Hshort). rewrite !length_app in Hmin.
  cbn [length] in Hmin. rewrite length_app in Hmin. cbn [length] in Hmin. lia.
Qed.

(** The route across the two-by-two grid. *)
Lemma shortest_path_simple_witness :
  shortest_path grid_2x2 "I-0-0" "I-1-1" = Some (Ok ["I-0-0"; "I-1-0"; "I-1-1"])
  ∧ NoDup (["I-0-0"; "I-1-0"; "I-1-1"] : list IntersectionId).
Proof.
  assert (Hr : shortest_path grid_2x2 "I-0-0" "I-1-1"
               = Some (Ok ["I-0-0"; "I-1-0"; "I-1-1"]))
    by (vm_compute; reflexivity).
  split; [exact Hr|].
  exact (shortest_path_simple grid_2x2 "I-0-0" "I-1-1" _ Hr).
Defined.

Lemma shortest_path_cut net a c p (k : nat) b :
  shortest_path net a c = Some (Ok p) → p !! k = Some b →
  ∃ pre suf,
    p = pre ++ b :: suf ∧ length pre = k
    ∧ path_between net a b (pre ++ [b])
    ∧ path_between net b c (b :: suf)
    ∧ ∀ q, path_between net a c q → (length p ≤ length q)%nat.
Proof.
  intros Hp Hk.
  assert (Hne : p ≠ []) by (by intros ->).
  destruct (shortest_path_found _ _ _ _ Hp Hne) as [(Hhd & Hlast & Hw) Hmin].
  exists (take k p), (drop (S k) p).
  pose proof (take_drop_middle _ _ _ Hk) as Hsplit.
  split; [done|]. split.
  { rewrite length_take. apply lookup_lt_Some in Hk. lia. }
  rewrite <- Hsplit in Hhd, Hlast, Hw.
  split; [|split; [|done]].
  - split; [by destruct (take k p)|]. split; [apply last_snoc|].
    replace (take k p ++ b :: drop (S k) p)
      with ((take k p ++ [b]) ++ drop (S k) p) in Hw
      by (by rewrite <- app_assoc).
    by apply is_walk_app_inv in Hw as [? _].
  - split; [done|]. split; [by rewrite last_app_cons in Hlast|].
    by apply is_walk_app_inv in Hw as [_ ?].
Qed.

Lemma shortest_path_prefix net a c p (k : nat) b :
  shortest_path net a c = Some (Ok p) → p !! k = Some b →
  ∃ q, shortest_path net a b = Some (Ok q) ∧ length q = S k.
Proof.
  intros Hp Hk.
  destruct (shortest_path_cut _ _ _ _ _ _ Hp Hk)
    as (pre & suf & -> & Hlen & Hpre & Hsuf & Hmin).
  destruct (shortest_path_some _ _ _ _ Hpre) as (q & Hq & Hqp & Hqmin).
  exists q. split; [done|].
  pose proof (Hqmin _ Hpre) as Hle. rewrite length_app in Hle.
  cbn [length] in Hle.
  destruct Hqp as (Hqh & Hql & Hqw).
  apply last_Some in Hql as [q0 ->].
  assert (Hjoin : path_between net a c (q0 ++ b :: suf)).
  { split; [by destruct q0|]. split.
    - rewrite last_app_cons. by destruct Hsuf as (_ & ? & _).
    - apply is_walk_join; [done|]. by destruct Hsuf as (_ & _ & ?). }
  specialize (Hmin _ Hjoin). rewrite !length_app in *.
  cbn [length] in *. lia.
Qed.

Lemma shortest_path_suffix net a c p (k : nat) b :
  shortest_path net a c = Some (Ok p) → p !! k = Some b →
  ∃ q, shortest_path net b c = Some (Ok q)
       ∧ head q = Some b ∧ (length q + k = length p)%nat.
Proof.
  intros Hp Hk.
  destruct (shortest_path_cut _ _ _ _ _ _ Hp Hk)
    as (pre & suf & -> & Hlen & Hpre & Hsuf & Hmin).
  destruct (shortest_path_some _ _ _ _ Hsuf) as (q & Hq & Hqp & Hqmin).
  exists q. split; [done|].
  pose proof (Hqmin _ Hsuf) as Hle. cbn [length] in Hle.
  destruct Hqp as (Hqh & Hql & Hqw). split; [done|].
  apply head_Some in Hqh as [q1 ->].
  assert (Hjoin : path_between net a c (pre ++ b :: q1)).
  { split.
    - destruct Hpre as (Hh & _ & _). by destruct pre.
    - split; [by rewrite last_app_cons|].
      apply is_walk_join; [|done]. by destruct Hpre as (_ & _ & ?). }
  specialize (Hmin _ Hjoin). rewrite !length_app in *.
  cbn [length] in *. lia.
Qed.

(** X13. Every intersection on the path [shortest_path] returns is reached
    as early as possible and leaves as little as possible to go: if [b] is
    entry number [k] of the path from [a] to [c], the shortest path from
    [a] to [b] has [k + 1] intersections and the one from [b] to [c] has
    the remaining [len(path) - k]. *)
Theorem shortest_path_through net a c p (k : nat) b :
  shortest_path net a c = Some (Ok p) → p !! k = Some b →
  (∃ q, shortest_path net a b = Some (Ok q) ∧ length q = S k)
  ∧ (∃ q, shortest_path net b c = Some (Ok q)
          ∧ (length q + k = length p)%nat).
Proof.
  intros Hp Hk. split; [by apply (shortest_path_prefix net a c p)|].
  destruct (shortest_path_suffix _ _ _ _ _ _ Hp Hk) as (q & Hq & _ & Hlen).
  by exists q.
Qed.

(** I-1-0 is the middle of the route across the two-by-two grid. *)
Lemma shortest_path_through_witness :
  shortest_path grid_2x2 "I-0-0" "I-1-1" = Some (Ok ["I-0-0"; "I-1-0"; "I-1-1"])
  ∧ (∃ q, shortest_path grid_2x2 "I-0-0" "I-1-0" = Some (Ok q)
          ∧ length q = 2%nat)
  ∧ (∃ q, shortest_path grid_2x2 "I-1-0" "I-1-1" = Some (Ok q)
          ∧ (length q + 1 = 3)%nat).
Proof.
  assert (Hr : shortest_path grid_2x2 "I-0-0" "I-1-1"
               = Some (Ok ["I-0-0"; "I-1-0"; "I-1-1"]))
    by (vm_compute; reflexivity).
  split; [exact Hr|].
  exact (shortest_path_through grid_2x2 "I-0-0" "I-1-1" _ 1 "I-1-0" Hr eq_refl).
Defined.

(** ** The emergency router *)

Lemma as_vehicle_advance_n v (n : nat) :
  as_vehicle (Nat.iter n advance_route v) = as_vehicle v.
Proof. induction n as [|n IH]; [done|]. by rewrite Nat.iter_succ. Qed.

Lemma next_intersection_at v (k : nat) :
  route_index v = Z.of_nat k → next_intersection v = Ok (route v !! k).
Proof.
  intros Hi. unfold next_intersection. rewrite Hi.
  case_bool_decide as Hlt.
  - destruct (py_getitem_in_range (route v) (Z.of_nat k) ltac:(lia))
      as (x & Hx & ->).
    cbn [bind]. by rewrite <- Hx, Nat2Z.id.
  - symmetry. f_equal. apply lookup_ge_None. lia.
Qed.

(** X14. Routing again never changes what is left to drive. For an
    emergency vehicle that carries the route [shortest_path] gave it and
    has passed [k] of its intersections, [compute_route] returns a route
    that starts at the next intersection of the carried route and has as
    many intersections as the carried route has left; for a vehicle that
    has passed none it returns the carried route itself, the empty route
    of an unreachable destination included. *)
Theorem compute_route_en_route net vid entry dest rt t :
  shortest_path net entry dest = Some (Ok rt) →
  compute_route net (EmergencyVehicle_init vid entry dest rt t)
  = Some (Ok (mkRoute vid rt))
  ∧ ∀ (k : nat) (x : IntersectionId),
      rt !! k = Some x → x ≠ "" →
      ∃ p,
        compute_route net
          (Nat.iter k advance_route (EmergencyVehicle_init vid entry dest rt t))
        = Some (Ok (mkRoute vid p))
        ∧ head p = Some x
        ∧ Route_length (mkRoute vid p) = Z.of_nat (length rt) - Z.of_nat k.
Proof.
  intros Hrt. split.
  - unfold compute_route, route_origin.
    rewrite (next_intersection_at _ 0) by done.
    cbn [bind EmergencyVehicle_init route as_vehicle origin destination
         vehicle_id].
    destruct rt as [|x rt'] eqn:Hshape; cbn [lookup list_lookup].
    + by rewrite Hrt.
    + destruct (shortest_path_found _ _ _ _ Hrt ltac:(done)) as [(Hhd & _) _].
      injection Hhd as ->.
      destruct (decide (entry = "")); by rewrite Hrt.
  - intros k x Hk Hx.
    destruct (shortest_path_suffix _ _ _ _ _ _ Hrt Hk) as (q & Hq & Hhd & Hlen).
    exists q. unfold compute_route, route_origin.
    destruct (route_index_advance_n (EmergencyVehicle_init vid entry dest rt t) k)
      as [Hi Hr].
    rewrite (next_intersection_at _ k) by (rewrite Hi; simpl; lia).
    rewrite Hr, as_vehicle_advance_n.
    cbn [bind EmergencyVehicle_init route as_vehicle origin destination
         vehicle_id].
    rewrite Hk, decide_False by done. rewrite Hq.
    split; [done|]. split; [done|].
    unfold Route_length. cbn [path]. lia.
Qed.

(** An ambulance half way across the two-by-two grid. *)
Lemma compute_route_en_route_witness :
  let rt : list IntersectionId := ["I-0-0"; "I-1-0"; "I-1-1"] in
  shortest_path grid_2x2 "I-0-0" "I-1-1" = Some (Ok rt)
  ∧ ∃ p,
      compute_route grid_2x2
        (Nat.iter 1 advance_route
           (EmergencyVehicle_init "EV-1" "I-0-0" "I-1-1" rt 0))
      = Some (Ok (mkRoute "EV-1" p))
      ∧ head p = Some "I-1-0"
      ∧ Route_length (mkRoute "EV-1" p) = 3 - 1.
Proof.
  intros rt.
  assert (Hr : shortest_path grid_2x2 "I-0-0" "I-1-1" = Some (Ok rt))
    by (vm_compute; reflexivity).
  split; [exact Hr|].
  exact (proj2 (compute_route_en_route grid_2x2 "EV-1" "I-0-0" "I-1-1" rt 0 Hr)
           1%nat "I-1-0" eq_refl ltac:(discriminate)).
Defined.

(** ** Further properties of the preemption manager *)

Section PreemptionManagerMore.
Context {C : Type} `{!SignalController C}.
Implicit Types (m : PreemptionManager C) (event : EmergencyDetected).
Implicit Types (iid : IntersectionId) (calls : list (@manager_call)).

Lemma release_active m iid tick held :
  _active m !! iid = Some held →
  release m iid tick
  = (match _controllers m !! iid with
     | Some controller =>
         {| _controllers :=
              <[iid := ctl_release_preemption controller]> (_controllers m);
            _active := delete iid (_active m) |}
     | None =>
         {| _controllers := _controllers m;
            _active := delete iid (_active m) |}
     end,
     match _controllers m !! iid with
     | Some _ => [CallReleasePreemption iid]
     | None => []
     end ++ [Publish (PreemptionEnded tick (ap_vehicle_id held) iid)]).
Proof.
  unfold release. intros ->. by destruct (_controllers m !! iid).
Qed.

Lemma manager_step_balance m call iid :
  (count_actions (is_started_at iid) (manager_step m call).2 + held_at m iid
   = count_actions (is_ended_at iid) (manager_step m call).2
     + held_at (manager_step m call).1 iid)%nat.
Proof.
  destruct call as [event|k tick]; cbn [manager_step].
  - destruct (_active m !! ed_intersection_id event) as [held|] eqn:Hact;
      [by rewrite (detected_while_active _ _ _ Hact)|].
    destruct (_controllers m !! ed_intersection_id event)
      as [controller|] eqn:Hctl;
      [|by rewrite (detected_unknown_controller _ _ Hctl)].
    rewrite (detected_first _ _ _ Hact Hctl).
    unfold held_at, count_actions.
    cbn [fst snd _active List.filter is_started_at is_ended_at].
    destruct (decide (ed_intersection_id event = iid)) as [<-|Hne].
    + rewrite lookup_insert_eq, Hact.
      by rewrite bool_decide_eq_true_2 by done.
    + rewrite lookup_insert_ne by done.
      by rewrite bool_decide_eq_false_2 by done.
  - destruct (_active m !! k) as [held|] eqn:Hact.
    + rewrite (release_active _ _ _ _ Hact).
      unfold held_at, count_actions.
      destruct (_controllers m !! k);
        cbn [fst snd _active app List.filter is_started_at is_ended_at];
        (destruct (decide (k = iid)) as [<-|Hne];
         [rewrite lookup_delete_eq, Hact;
          by rewrite bool_decide_eq_true_2 by done
         |rewrite lookup_delete_ne by done;
          by rewrite bool_decide_eq_false_2 by done]).
    + unfold release. by rewrite Hact.
Qed.

(** X15. Over any sequence of detections and releases, from any state of
    the manager, the [PreemptionStarted] and [PreemptionEnded] events of an
    intersection balance: those started, plus the preemption held at the
    outset, are those ended plus the preemption held at the end. From a
    fresh manager, the number started is thus the number ended, plus one
    exactly while a preemption is held. *)
Theorem started_ended_balance m calls iid :
  (count_actions (is_started_at iid) (manager_run m calls).2 + held_at m iid
   = count_actions (is_ended_at iid) (manager_run m calls).2
     + held_at (manager_run m calls).1 iid)%nat.
Proof.
  revert m. induction calls as [|call calls IH]; intros m; [done|].
  cbn [manager_run].
  pose proof (manager_step_balance m call iid) as Hstep.
  destruct (manager_step m call) as [m1 acts1]. cbn [fst snd] in Hstep.
  specialize (IH m1).
  destruct (manager_run m1 calls) as [m2 acts2]. cbn [fst snd] in *.
  rewrite !count_actions_app. lia.
Qed.

Lemma manager_step_controllers m call iid :
  is_Some (_controllers (manager_step m call).1 !! iid)
  ↔ is_Some (_controllers m !! iid).
Proof.
  destruct call as [event|k tick]; cbn [manager_step].
  - destruct (_active m !! ed_intersection_id event) as [held|] eqn:Hact;
      [by rewrite (detected_while_active _ _ _ Hact)|].
    destruct (_controllers m !! ed_intersection_id event)
      as [controller|] eqn:Hctl;
      [|by rewrite (detected_unknown_controller _ _ Hctl)].
    rewrite (detected_first _ _ _ Hact Hctl). cbn [fst _controllers].
    destruct (decide (ed_intersection_id event = iid)) as [<-|Hne].
    + rewrite lookup_insert_eq, Hctl. by split; eauto.
    + by rewrite lookup_insert_ne.
  - destruct (_active m !! k) as [held|] eqn:Hact;
      [|unfold release; by rewrite Hact].
    rewrite (release_active _ _ _ _ Hact).
    destruct (_controllers m !! k) as [controller|] eqn:Hctl;
      cbn [fst _controllers]; [|done].
    destruct (decide (k = iid)) as [<-|Hne].
    + rewrite lookup_insert_eq, Hctl. by split; eauto.
    + by rewrite lookup_insert_ne.
Qed.

Lemma manager_run_controllers m calls iid :
  is_Some (_controllers (manager_run m calls).1 !! iid)
  ↔ is_Some (_controllers m !! iid).
Proof.
  revert m. induction calls as [|call calls IH]; intros m; [done|].
  cbn [manager_run].
  pose proof (manager_step_controllers m call iid) as Hstep.
  destruct (manager_step m call) as [m1 acts1]. cbn [fst] in Hstep.
  specialize (IH m1).
  destruct (manager_run m1 calls) as [m2 acts2]. cbn [fst] in *.
  by rewrite IH.
Qed.

(** X16. [PreemptionEnded] names the vehicle that was granted the
    preemption: when a detection opens a preemption at an intersection
    with a known controller, then whatever detections follow, a release
    there calls [release_preemption] on that controller, publishes one
    [PreemptionEnded] carrying the first vehicle's id, and leaves no
    preemption at the intersection. *)
Theorem release_ends_first_vehicle m event events tick :
  _active m !! ed_intersection_id event = None →
  is_Some (_controllers m !! ed_intersection_id event) →
  let m' := (deliver m (event :: events)).1 in
  (release m' (ed_intersection_id event) tick).2
  = [ CallReleasePreemption (ed_intersection_id event);
      Publish (PreemptionEnded tick (ed_vehicle_id event)
                 (ed_intersection_id event)) ]
  ∧ _active (release m' (ed_intersection_id event) tick).1
      !! ed_intersection_id event = None.
Proof.
  intros Hact Hctl m'.
  destruct (deliver_at m (event :: events) (ed_intersection_id event))
    as (Hentry & _).
  fold m' in Hentry.
  unfold expected_entry in Hentry. rewrite Hact in Hentry.
  destruct Hctl as [controller Hctl]. rewrite Hctl in Hentry.
  rewrite first_detection_cons, decide_True in Hentry by done.
  assert (Hctl' : is_Some (_controllers m' !! ed_intersection_id event)).
  { apply manager_run_controllers. by eexists. }
  destruct Hctl' as [controller' Hctl'].
  rewrite (release_active _ _ _ _ Hentry), Hctl'.
  cbn [fst snd _active ap_vehicle_id app]. split; [done|].
  apply lookup_delete_eq.
Qed.
End PreemptionManagerMore.

(** Two ambulances at one junction, the first one released. *)
Lemma release_ends_first_vehicle_witness :
  let m0 := PreemptionManager_init one_junction in
  let m' := (deliver m0 [first_ambulance; second_ambulance]).1 in
  _active m0 !! "I-0-0" = None
  ∧ (release m' "I-0-0" 20).2
    = [ CallReleasePreemption "I-0-0";
        Publish (PreemptionEnded 20 "EV-1" "I-0-0") ].
Proof.
  intros m0 m'.
  assert (Hact : _active m0 !! ed_intersection_id first_ambulance = None)
    by reflexivity.
  assert (Hctl : is_Some (_controllers m0 !! ed_intersection_id first_ambulance))
    by (eexists; reflexivity).
  split; [exact Hact|].
  exact (proj1 (release_ends_first_vehicle m0 first_ambulance
                  [second_ambulance] 20 Hact Hctl)).
Defined.

Lemma shared_step_in_step handed σ0 m σ call :
  Shared.unshared handed →
  controllers_in_step handed σ0 m σ →
  controllers_in_step handed σ0
    (Shared.manager_step m σ call).1.1 (Shared.manager_step m σ call).1.2.
Proof.
  intros Hun [Hdict Hstep]. destruct call as [event|k tick];
    cbn [Shared.manager_step].
  - unfold Shared._on_emergency_detected.
    destruct (Shared._active m !! ed_intersection_id event) as [held|] eqn:Hact;
      [done|].
    destruct (Shared._controllers m !! ed_intersection_id event)
      as [l0|] eqn:Hctl; [|done].
    rewrite Hdict in Hctl. split; [done|].
    intros iid l c Hl. cbn [fst snd Shared._active].
    destruct (decide (l = l0)) as [->|Hne].
    + rewrite (Hun _ _ _ Hl Hctl), lookup_alter_eq, lookup_insert_eq.
      destruct (σ !! l0) as [c'|] eqn:Hc'; [|done]. intros [= <-].
      split; [done|].
      destruct (Hstep _ _ _ Hctl Hc') as (_ & c0 & ? & ?). by exists c0.
    + rewrite lookup_alter_ne by done.
      rewrite lookup_insert_ne
        by (intros Heq; rewrite Heq in Hctl; congruence).
      by apply Hstep.
  - unfold Shared.release.
    destruct (Shared._active m !! k) as [held|] eqn:Hact; [|done].
    destruct (Shared._controllers m !! k) as [l0|] eqn:Hctl;
      rewrite Hdict in Hctl; (split; [done|]);
      intros iid l c Hl; cbn [fst snd Shared._active].
    + destruct (decide (l = l0)) as [->|Hne].
      * rewrite (Hun _ _ _ Hl Hctl), lookup_alter_eq, lookup_delete_eq.
        destruct (σ !! l0) as [c'|] eqn:Hc'; [|done]. intros [= <-].
        split; [done|].
        destruct (Hstep _ _ _ Hctl Hc') as (_ & c0 & ? & ?). by exists c0.
      * rewrite lookup_alter_ne by done.
        rewrite lookup_delete_ne by (intros ->; congruence).
        by apply Hstep.
    + rewrite lookup_delete_ne by (intros ->; congruence). by apply Hstep.
Qed.

Lemma shared_run_in_step handed σ0 m σ calls :
  Shared.unshared handed →
  controllers_in_step handed σ0 m σ →
  controllers_in_step handed σ0
    (Shared.manager_run m σ calls).1.1 (Shared.manager_run m σ calls).1.2.
Proof.
  intros Hun. revert m σ.
  induction calls as [|call calls IH]; intros m σ Hstep; [done|].
  cbn [Shared.manager_run].
  pose proof (shared_step_in_step handed σ0 m σ call Hun Hstep) as Hone.
  destruct (Shared.manager_step m σ call) as [[m1 σ1] acts1].
  cbn [fst snd] in Hone. specialize (IH m1 σ1 Hone).
  by destruct (Shared.manager_run m1 σ1 calls) as [[m2 σ2] acts2].
Qed.

(** What the manager records and does to the outside does not depend on
    the controller objects: held by reference or by value, under the same
    intersections, the active preemptions and the actions are the same. *)
Lemma shared_step_by_value {C : Type} `{!SignalController C}
    (mv : PreemptionManager C) (ms : Shared.PreemptionManager)
    (σ : gmap Shared.ref C) call :
  dom (_controllers mv) = dom (Shared._controllers ms) →
  _active mv = Shared._active ms →
  dom (_controllers (manager_step mv call).1)
  = dom (Shared._controllers (Shared.manager_step ms σ call).1.1)
  ∧ _active (manager_step mv call).1
    = Shared._active (Shared.manager_step ms σ call).1.1
  ∧ (manager_step mv call).2 = (Shared.manager_step ms σ call).2.
Proof.
  intros Hdom Hact.
  assert (Hget : ∀ k, is_Some (_controllers mv !! k)
                      ↔ is_Some (Shared._controllers ms !! k)).
  { intros k. by rewrite <- !elem_of_dom, Hdom. }
  destruct call as [event|k tick]; cbn [manager_step Shared.manager_step].
  - unfold _on_emergency_detected, Shared._on_emergency_detected.
    rewrite <- Hact.
    destruct (_active mv !! ed_intersection_id event); [done|].
    specialize (Hget (ed_intersection_id event)).
    destruct (_controllers mv !! ed_intersection_id event) as [c|] eqn:Hc,
      (Shared._controllers ms !! ed_intersection_id event) as [l|] eqn:Hl;
      cbn [fst snd _controllers _active Shared._controllers Shared._active].
    + split; [|by rewrite Hact]. rewrite <- Hdom.
      apply set_eq. intros x. rewrite dom_insert, elem_of_union, elem_of_singleton.
      split; [intros [->|?]; [by apply elem_of_dom|done] | by right].
    + destruct (proj1 Hget ltac:(done)) as [? [=]].
    + destruct (proj2 Hget ltac:(done)) as [? [=]].
    + done.
  - unfold release, Shared.release. rewrite <- Hact.
    destruct (_active mv !! k); [|done].
    specialize (Hget k).
    destruct (_controllers mv !! k) as [c|] eqn:Hc,
      (Shared._controllers ms !! k) as [l|] eqn:Hl;
      cbn [fst snd _controllers _active Shared._controllers Shared._active].
    + split; [|done]. rewrite <- Hdom.
      apply set_eq. intros x. rewrite dom_insert, elem_of_union, elem_of_singleton.
      split; [intros [->|?]; [by apply elem_of_dom|done] | by right].
    + destruct (proj1 Hget ltac:(done)) as [? [=]].
    + destruct (proj2 Hget ltac:(done)) as [? [=]].
    + done.
Qed.

Lemma shared_run_by_value {C : Type} `{!SignalController C}
    (mv : PreemptionManager C) (ms : Shared.PreemptionManager)
    (σ : gmap Shared.ref C) calls :
  dom (_controllers mv) = dom (Shared._controllers ms) →
  _active mv = Shared._active ms →
  _active (manager_run mv calls).1
  = Shared._active (Shared.manager_run ms σ calls).1.1
  ∧ (manager_run mv calls).2 = (Shared.manager_run ms σ calls).2.
Proof.
  revert mv ms σ.
  induction calls as [|call calls IH]; intros mv ms σ Hdom Hact; [done|].
  cbn [manager_run Shared.manager_run].
  destruct (shared_step_by_value mv ms σ call Hdom Hact)
    as (Hdom1 & Hact1 & Hacts1).
  destruct (manager_step mv call) as [mv1 actsv1].
  destruct (Shared.manager_step ms σ call) as [[ms1 σ1] actss1].
  cbn [fst snd] in *.
  destruct (IH mv1 ms1 σ1 Hdom1 Hact1) as [Hact2 Hacts2].
  destruct (manager_run mv1 calls) as [mv2 actsv2].
  destruct (Shared.manager_run ms1 σ1 calls) as [[ms2 σ2] actss2].
  cbn [fst snd] in *. by rewrite Hacts1, Hacts2.
Qed.

(** X17. The manager and its fixed-time controllers stay in step, as long
    as no controller object is registered under two intersections. When
    the controllers handed to a fresh manager hold no preemption, then
    after any sequence of detections and releases the manager's dict is
    unchanged, and each controller holds exactly the direction the manager
    has on record for its intersection, and none where the manager has no
    record; its plan is the one it came with. *)
Theorem controllers_follow_manager
    (handed : gmap IntersectionId Shared.ref)
    (σ0 : gmap Shared.ref FixedTimeController) calls iid l c :
  Shared.unshared handed →
  (∀ k l0 c0, handed !! k = Some l0 → σ0 !! l0 = Some c0 →
              preempting c0 = None) →
  let run := Shared.manager_run (Shared.PreemptionManager_init handed) σ0 calls in
  Shared._controllers run.1.1 = handed
  ∧ (handed !! iid = Some l → run.1.2 !! l = Some c →
     preempting c = ap_direction <$> Shared._active run.1.1 !! iid
     ∧ ∃ c0, σ0 !! l = Some c0 ∧ plan c = plan c0).
Proof.
  intros Hun Hfree run.
  destruct (shared_run_in_step handed σ0
              (Shared.PreemptionManager_init handed) σ0 calls Hun)
    as [Hdict Hstep].
  { split; [done|]. intros k l0 c0 Hk Hc0.
    cbn [Shared.PreemptionManager_init Shared._active].
    rewrite lookup_empty. split; [by apply (Hfree k l0)|]. by exists c0. }
  split; [exact Hdict|]. apply Hstep.
Qed.

(** One junction, first ambulance from the north detected. *)
Lemma controllers_follow_manager_witness :
  let run := Shared.manager_run (Shared.PreemptionManager_init one_junction_ref)
               one_controller
               [Detected first_ambulance; Detected second_ambulance] in
  ∃ c, run.1.2 !! 1%positive = Some c ∧ preempting c = Some NORTH.
Proof.
  intros run.
  assert (Hun : Shared.unshared one_junction_ref).
  { intros k1 k2 l0 Hk1 Hk2. unfold one_junction_ref in Hk1, Hk2.
    apply lookup_singleton_Some in Hk1 as [<- _].
    by apply lookup_singleton_Some in Hk2 as [<- _]. }
  assert (Hfree : ∀ k l0 c0, one_junction_ref !! k = Some l0 →
                    one_controller !! l0 = Some c0 → preempting c0 = None).
  { intros k l0 c0 _ Hc0. unfold one_controller in Hc0.
    apply lookup_singleton_Some in Hc0 as [_ <-]. reflexivity. }
  eexists. split; [vm_compute; reflexivity|].
  exact (proj1 (proj2 (controllers_follow_manager one_junction_ref
                         one_controller
                         [Detected first_ambulance; Detected second_ambulance]
                         "I-0-0" 1%positive _ Hun Hfree)
                  eq_refl eq_refl)).
Defined.

(** A controller object registered under two intersections is out of step
    at one of them: a detection at the first makes it hold NORTH, which is
    then what the second intersection's controller holds, with no
    preemption on record there. *)
Example shared_controller_out_of_step :
  let run := Shared.manager_run
               (Shared.PreemptionManager_init two_junctions_one_controller)
               one_controller [Detected first_ambulance] in
  Shared._controllers run.1.1 !! "I-0-1" = Some 1%positive
  ∧ preempting <$> run.1.2 !! 1%positive = Some (Some NORTH)
  ∧ Shared._active run.1.1 !! "I-0-1" = None.
Proof. vm_compute. done. Qed.

(** ** The event bus *)

Lemma py_remove_absent {A : Type} `{EqDecision A} (x : A) (l : list A) :
  x ∉ l → py_remove x l = Raise ValueError.
Proof.
  induction l as [|y l IH]; [done|]. intros Hx. cbn [py_remove].
  rewrite decide_False by (intros ->; apply Hx; by left).
  rewrite IH; [done|]. intros ?. apply Hx. by right.
Qed.

Lemma py_remove_present {A : Type} `{EqDecision A} (x : A) (l : list A) :
  x ∈ l →
  ∃ l1 l2, l = l1 ++ x :: l2 ∧ (x ∉ l1) ∧ py_remove x l = Ok (l1 ++ l2).
Proof.
  induction l as [|y l IH]; [by intros ?%elem_of_nil|].
  intros Hx. cbn [py_remove].
  destruct (decide (y = x)) as [->|Hne].
  - exists [], l. split; [done|]. split; [apply not_elem_of_nil | done].
  - apply elem_of_cons in Hx as [->|Hx]; [done|].
    destruct (IH Hx) as (l1 & l2 & -> & Hl1 & ->).
    exists (y :: l1), l2. split; [done|]. split; [|done].
    intros [->|?]%elem_of_cons; done.
Qed.

Lemma py_remove_snoc {A : Type} `{EqDecision A} (x : A) (l : list A) :
  x ∉ l → py_remove x (l ++ [x]) = Ok l.
Proof.
  induction l as [|y l IH]; intros Hx; cbn [app py_remove].
  - by rewrite decide_True.
  - rewrite decide_False by (intros ->; apply Hx; by left).
    rewrite IH; [done|]. intros ?. apply Hx. by right.
Qed.

Section EventBusFacts.
Context {H : Type} `{EqDecision H}.
Implicit Types (bus : EventBus H) (k : event_kind) (h : H).
Implicit Types (ev : SimulationEvent).

Lemma publish_handlers_of bus ev : publish bus ev = handlers_of bus (type_of ev).
Proof. done. Qed.

Lemma handlers_of_subscribe bus k h k' :
  handlers_of (subscribe bus k h) k'
  = handlers_of bus k' ++ (if decide (k = k') then [h] else []).
Proof.
  unfold handlers_of, subscribe. cbn [_handlers].
  destruct (decide (k = k')) as [->|Hne].
  - by rewrite lookup_insert_eq.
  - by rewrite lookup_insert_ne, app_nil_r.
Qed.

(** X18. After any sequence of subscriptions, publishing an event calls
    the handlers the bus called before, followed by the handlers
    subscribed under the event's own class, in the order of their
    subscription and once per subscription; a handler subscribed under
    another class is not called. *)
Theorem publish_calls_subscribers bus (subs : list (event_kind * H)) ev :
  publish (subscribe_all bus subs) ev
  = publish bus ev ++ (filter (λ kh, kh.1 = type_of ev) subs).*2.
Proof.
  revert bus. induction subs as [|[k h] subs IH]; intros bus.
  - by rewrite filter_nil, app_nil_r.
  - unfold subscribe_all in *. cbn [foldl fst snd]. rewrite IH.
    rewrite !publish_handlers_of, handlers_of_subscribe, filter_cons.
    cbn [fst]. destruct (decide (k = type_of ev)) as [Heq|Hne].
    + by rewrite fmap_cons, <- app_assoc.
    + by rewrite app_nil_r.
Qed.

(** X19. [unsubscribe] raises ValueError exactly when the handler is not
    registered under that class. Otherwise it withdraws the earliest of the
    handler's registrations there and nothing else: events of that class
    reach the remaining handlers in their old order, and events of other
    classes reach whom they reached before. *)
Theorem unsubscribe_earliest bus k h :
  (h ∉ handlers_of bus k → unsubscribe bus k h = Raise ValueError)
  ∧ (h ∈ handlers_of bus k →
     ∃ bus' l1 l2,
       unsubscribe bus k h = Ok bus'
       ∧ handlers_of bus k = l1 ++ h :: l2
       ∧ (h ∉ l1)
       ∧ ∀ ev, publish bus' ev
               = if decide (type_of ev = k) then l1 ++ l2 else publish bus ev).
Proof.
  unfold unsubscribe. split.
  - intros Hnot. by rewrite py_remove_absent.
  - intros Hin. destruct (py_remove_present _ _ Hin) as (l1 & l2 & Hl & Hl1 & ->).
    cbn [bind]. eexists _, l1, l2. split; [done|]. split; [done|].
    split; [done|]. intros ev. unfold publish. cbn [_handlers].
    destruct (decide (type_of ev = k)) as [->|Hne].
    + by rewrite lookup_insert_eq.
    + by rewrite lookup_insert_ne.
Qed.

(** X20. Subscribing a handler and unsubscribing it again never raises,
    and when the handler was not registered under that class before, every
    event reaches exactly the handlers it reached before. *)
Theorem subscribe_unsubscribe bus k h :
  ∃ bus',
    unsubscribe (subscribe bus k h) k h = Ok bus'
    ∧ (h ∉ handlers_of bus k → ∀ ev, publish bus' ev = publish bus ev).
Proof.
  unfold unsubscribe.
  rewrite handlers_of_subscribe, decide_True by done.
  destruct (py_remove_present h (handlers_of bus k ++ [h]))
    as (l1 & l2 & Hl & Hl1 & Hrm); [apply elem_of_app; right; by left|].
  rewrite Hrm. cbn [bind]. eexists. split; [done|].
  intros Hnot ev.
  rewrite (py_remove_snoc h (handlers_of bus k) Hnot) in Hrm.
  apply Ok_inj in Hrm. rewrite <- Hrm.
  unfold publish, subscribe, handlers_of. cbn [_handlers].
  destruct (decide (k = type_of ev)) as [->|Hne].
  - by rewrite lookup_insert_eq.
  - by rewrite !lookup_insert_ne.
Qed.
End EventBusFacts.

(** The metrics handler registered twice around a logger; its first
    registration is withdrawn. *)
Lemma unsubscribe_earliest_witness :
  let bus : EventBus string :=
    subscribe_all EventBus_init
      [ (KPreemptionStarted, "metrics"); (KPreemptionStarted, "log");
        (KPreemptionStarted, "metrics") ] in
  "metrics" ∈ handlers_of bus KPreemptionStarted
  ∧ ∃ bus' l1 l2,
      unsubscribe bus KPreemptionStarted "metrics" = Ok bus'
      ∧ handlers_of bus KPreemptionStarted = l1 ++ "metrics" :: l2
      ∧ ("metrics" ∉ l1)
      ∧ ∀ ev, publish bus' ev
              = if decide (type_of ev = KPreemptionStarted) then l1 ++ l2
                else publish bus ev.
Proof.
  intros bus.
  assert (Hin : "metrics" ∈ handlers_of bus KPreemptionStarted).
  { assert (Hh : handlers_of bus KPreemptionStarted
                 = ["metrics"; "log"; "metrics"]) by (vm_compute; reflexivity).
    rewrite Hh. by left. }
  split; [exact Hin|].
  exact (proj2 (unsubscribe_earliest bus KPreemptionStarted "metrics") Hin).
Defined.

(** A metrics handler comes and goes beside a logger. *)
Lemma subscribe_unsubscribe_witness :
  let bus : EventBus string :=
    subscribe_all EventBus_init [(KPreemptionStarted, "log")] in
  ("metrics" ∉ handlers_of bus KPreemptionStarted)
  ∧ ∃ bus',
      unsubscribe (subscribe bus KPreemptionStarted "metrics")
        KPreemptionStarted "metrics" = Ok bus'
      ∧ ∀ ev, publish bus' ev = publish bus ev.
Proof.
  intros bus.
  assert (Hnot : "metrics" ∉ handlers_of bus KPreemptionStarted).
  { assert (Hh : handlers_of bus KPreemptionStarted = ["log"])
      by (vm_compute; reflexivity).
    rewrite Hh. intros Hin. apply list_elem_of_singleton in Hin.
    discriminate Hin. }
  split; [exact Hnot|].
  destruct (subscribe_unsubscribe bus KPreemptionStarted "metrics")
    as (bus' & Hun & Hpub).
  exists bus'. split; [exact Hun | exact (Hpub Hnot)].
Defined.

(** ** The metrics collector *)

Lemma collect_snoc s events ev :
  collect s (events ++ [ev]) = _on_event (collect s events) ev.
Proof. unfold collect. by rewrite foldl_app. Qed.

Lemma arrival_ticks_snoc events ev :
  arrival_ticks (events ++ [ev])
  = arrival_ticks events
    ++ match ev with
       | EvVehicleArrived _ _ _ total_ticks => [total_ticks]
       | _ => []
       end.
Proof.
  unfold arrival_ticks. rewrite omap_app. f_equal. by destruct ev.
Qed.

Lemma sum_Z_snoc (l : list Z) (x : Z) :
  foldr Z.add 0 (l ++ [x]) = foldr Z.add 0 l + x.
Proof. induction l as [|y l IH]; cbn [app foldr]; lia. Qed.

Lemma collect_arrivals s events :
  total_vehicles_arrived (collect s events)
  = total_vehicles_arrived s + Z.of_nat (length (arrival_ticks events))
  ∧ total_travel_ticks (collect s events)
    = total_travel_ticks s + foldr Z.add 0 (arrival_ticks events).
Proof.
  induction events as [|ev events [IHa IHt]] using rev_ind.
  - cbn. lia.
  - rewrite collect_snoc, arrival_ticks_snoc.
    destruct ev; rewrite ?app_nil_r, ?length_app, ?sum_Z_snoc;
      cbn [_on_event total_vehicles_arrived total_travel_ticks length];
      lia.
Qed.

(** X21. Whatever events the collector's handler is called with, in
    whatever order, the summary counts them: arrivals and their travel
    ticks add up, each [PreemptionStarted] counts once, waiting and
    spawning events count once each, and the emergency vehicles counted
    never outgrow the vehicles spawned. Events of the other classes,
    [PreemptionEnded] among them, change nothing. *)
Theorem collect_counts s events :
  total_vehicles_arrived (collect s events)
  = total_vehicles_arrived s + Z.of_nat (length (arrival_ticks events))
  ∧ total_travel_ticks (collect s events)
    = total_travel_ticks s + foldr Z.add 0 (arrival_ticks events)
  ∧ total_preemptions (collect s events)
    = total_preemptions s
      + Z.of_nat (length (filter (λ ev, type_of ev = KPreemptionStarted) events))
  ∧ total_wait_ticks (collect s events)
    = total_wait_ticks s
      + Z.of_nat (length (filter (λ ev, type_of ev = KVehicleWaiting) events))
  ∧ total_vehicles_spawned (collect s events)
    = total_vehicles_spawned s
      + Z.of_nat (length (filter (λ ev, type_of ev = KVehicleSpawned) events))
  ∧ 0 ≤ total_emergency_vehicles (collect s events) - total_emergency_vehicles s
      ≤ total_vehicles_spawned (collect s events) - total_vehicles_spawned s.
Proof.
  destruct (collect_arrivals s events) as [Ha Ht].
  split; [done|]. split; [done|].
  induction events as [|ev events IH] using rev_ind.
  - cbn. lia.
  - destruct (collect_arrivals s events) as [Ha' Ht'].
    specialize (IH Ha' Ht'). destruct IH as (IHp & IHw & IHs & IHe).
    rewrite !collect_snoc, !filter_app, !length_app, !filter_cons, !filter_nil.
    destruct ev as [? ? ? ? []| | | | | | |];
      cbn [_on_event type_of total_preemptions total_wait_ticks
           total_vehicles_spawned total_emergency_vehicles];
      repeat case_decide; try congruence; cbn [length];
      clear Ha Ht; repeat split; lia.
Qed.

Lemma sum_Z_between (l : list Z) (lo hi : Z) :
  (∀ t, t ∈ l → lo ≤ t ≤ hi) →
  lo * Z.of_nat (length l) ≤ foldr Z.add 0 l ≤ hi * Z.of_nat (length l).
Proof.
  induction l as [|x l IH]; intros Hb; [cbn; lia|].
  pose proof (Hb x ltac:(by left)).
  pose proof (IH (λ t Ht, Hb t ltac:(by right))).
  cbn [length foldr]. lia.
Qed.

(** X22. The averages of a summary never raise ZeroDivisionError: with no
    arrival counted they are 0.0. Once the collector, starting from a
    fresh summary, has seen at least one arrival, and every travel time
    reported lies between two whole numbers of at most 53 bits,
    [average_travel_ticks] returns a float between these two. *)
Theorem average_travel_between events (lo hi : Z) :
  (∀ s, average_travel_ticks s ≠ Raise ZeroDivisionError
        ∧ average_wait_ticks s ≠ Raise ZeroDivisionError)
  ∧ (arrival_ticks events = [] →
     average_travel_ticks (collect MetricsSummary_init events) = Ok 0%Q)
  ∧ (arrival_ticks events ≠ [] →
     (∀ t, t ∈ arrival_ticks events → lo ≤ t ≤ hi) →
     - 2 ^ 53 ≤ lo → hi ≤ 2 ^ 53 →
     ∃ q, average_travel_ticks (collect MetricsSummary_init events) = Ok q
          ∧ (inject_Z lo <= q <= inject_Z hi)%Q).
Proof.
  destruct (collect_arrivals MetricsSummary_init events) as [Ha Ht].
  cbn [MetricsSummary_init total_vehicles_arrived total_travel_ticks] in Ha, Ht.
  split; [|split].
  - intros s. unfold average_travel_ticks, average_wait_ticks.
    split; case_bool_decide; try done; by apply py_truediv_divisor.
  - intros Hnone. unfold average_travel_ticks.
    rewrite Ha, Hnone. by rewrite bool_decide_eq_true_2.
  - intros Hsome Hb Hlo Hhi. unfold average_travel_ticks.
    assert (0 < Z.of_nat (length (arrival_ticks events))).
    { destruct (arrival_ticks events); [done | simpl; lia]. }
    rewrite Ha, Ht. rewrite bool_decide_eq_false_2 by lia.
    apply py_truediv_between; [lia..|]. rewrite !Z.add_0_l.
    by apply sum_Z_between.
Qed.

(** Two arrivals, after 12 and after 20 ticks. *)
Lemma average_travel_between_witness :
  let events := [ EvVehicleArrived 14 "V-1" "I-0-1" 12;
                  EvVehicleWaiting 15 "V-2" "I-0-0";
                  EvVehicleArrived 30 "V-2" "I-0-1" 20 ] in
  arrival_ticks events ≠ []
  ∧ ∃ q, average_travel_ticks (collect MetricsSummary_init events) = Ok q
         ∧ (inject_Z 12 <= q <= inject_Z 20)%Q.
Proof.
  intros events.
  assert (Hsome : arrival_ticks events ≠ []) by discriminate.
  split; [exact Hsome|].
  apply (proj2 (proj2 (average_travel_between events 12 20)) Hsome);
    [|lia..].
  intros t Ht.
  change (arrival_ticks events) with [12; 20] in Ht.
  apply elem_of_cons in Ht as [->|Ht]; [lia|].
  apply list_elem_of_singleton in Ht as ->. lia.
Defined.

(** Beyond 53 bits the average is the nearest float, which may lie below
    every travel time reported, and beyond the largest float the division
    raises. *)
Example average_travel_rounds :
  average_travel_ticks
    (collect MetricsSummary_init [EvVehicleArrived 1 "V-1" "I-0-1" (2 ^ 53 + 1)])
  = Ok (inject_Z (2 ^ 53))
  ∧ average_travel_ticks
      (collect MetricsSummary_init [EvVehicleArrived 1 "V-1" "I-0-1" (10 ^ 400)])
    = Raise OverflowError.
Proof. split; vm_compute; reflexivity. Qed.

(** ** From the manager to the metrics *)

Lemma collect_published_started s (acts : list action) :
  total_preemptions (collect s (published acts))
  = total_preemptions s + Z.of_nat (count_actions is_started acts).
Proof.
  revert s. induction acts as [|a acts IH]; intros s; [cbn; lia|].
  unfold published, collect, count_actions in *.
  destruct a as [| |ev]; cbn [omap list_omap foldl List.filter is_started];
    try apply IH.
  change (list_omap _ _ ?f acts) with (omap f acts).
  rewrite IH. destruct ev; cbn [_on_event total_preemptions length]; lia.
Qed.

Lemma size_delete_held {A : Type} (m : gmap IntersectionId A) k x :
  m !! k = Some x → size m = S (size (delete k m)).
Proof.
  intros Hk. rewrite <- (insert_id m k x Hk) at 1.
  rewrite <- insert_delete_eq.
  by rewrite map_size_insert_None by apply lookup_delete_eq.
Qed.

Section ManagerMetrics.
Context {C : Type} `{!SignalController C}.
Implicit Types (m : PreemptionManager C).

Lemma manager_step_account m (call : @manager_call) :
  (count_actions is_started (manager_step m call).2 + size (_active m)
   = count_actions is_ended (manager_step m call).2
     + size (_active (manager_step m call).1))%nat.
Proof.
  destruct call as [event|k tick]; cbn [manager_step].
  - destruct (_active m !! ed_intersection_id event) as [held|] eqn:Hact;
      [by rewrite (detected_while_active _ _ _ Hact)|].
    destruct (_controllers m !! ed_intersection_id event)
      as [controller|] eqn:Hctl;
      [|by rewrite (detected_unknown_controller _ _ Hctl)].
    rewrite (detected_first _ _ _ Hact Hctl).
    unfold count_actions.
    cbn [fst snd _active List.filter is_started is_ended length].
    rewrite map_size_insert_None by done. lia.
  - destruct (_active m !! k) as [held|] eqn:Hact;
      [|unfold release; by rewrite Hact].
    rewrite (release_active _ _ _ _ Hact).
    rewrite (size_delete_held _ _ _ Hact). unfold count_actions.
    destruct (_controllers m !! k);
      cbn [fst snd _active app List.filter is_started is_ended length]; lia.
Qed.

Lemma manager_run_account m (calls : list (@manager_call)) :
  (count_actions is_started (manager_run m calls).2 + size (_active m)
   = count_actions is_ended (manager_run m calls).2
     + size (_active (manager_run m calls).1))%nat.
Proof.
  revert m. induction calls as [|call calls IH]; intros m; [done|].
  cbn [manager_run].
  pose proof (manager_step_account m call) as Hstep.
  destruct (manager_step m call) as [m1 acts1]. cbn [fst snd] in Hstep.
  specialize (IH m1).
  destruct (manager_run m1 calls) as [m2 acts2]. cbn [fst snd] in *.
  rewrite !count_actions_app. lia.
Qed.

(** X23. The preemption count of the metrics adds up with the manager. If
    a fresh collector receives every event that a fresh manager publishes
    over any sequence of detections and releases, its
    [total_preemptions] is the number of [PreemptionEnded] events
    published plus the number of preemptions the manager still holds. *)
Theorem preemptions_metric_accounts
    (handed : gmap IntersectionId C) (calls : list (@manager_call)) :
  total_preemptions
    (collect MetricsSummary_init
       (published (manager_run (PreemptionManager_init handed) calls).2))
  = Z.of_nat (count_actions is_ended
                (manager_run (PreemptionManager_init handed) calls).2)
    + Z.of_nat (size (_active
                (manager_run (PreemptionManager_init handed) calls).1)).
Proof.
  rewrite collect_published_started.
  pose proof (manager_run_account (PreemptionManager_init handed) calls)
    as Hacc.
  cbn [PreemptionManager_init _active] in Hacc.
  rewrite map_size_empty in Hacc.
  cbn [MetricsSummary_init total_preemptions]. lia.
Qed.
End ManagerMetrics.

(** ** The grid factory *)

Lemma elem_of_py_range (n x : Z) : x ∈ py_range n ↔ 0 ≤ x < n.
Proof.
  unfold py_range. rewrite list_elem_of_fmap. split.
  - intros (k & -> & Hk). apply elem_of_seq in Hk. lia.
  - intros Hx. exists (Z.to_nat x). split; [lia|]. apply elem_of_seq. lia.
Qed.

Lemma for_each_inv {A B : Type} (P : A → Prop)
    (body : A → B → key_error + A) (l : list B) (a : A) :
  P a →
  (∀ a x, x ∈ l → P a → ∃ a', body a x = inr a' ∧ P a') →
  ∃ a', for_each body a l = inr a' ∧ P a'.
Proof.
  revert a. induction l as [|x l IH]; intros a Ha Hbody; [by exists a|].
  destruct (Hbody a x ltac:(by left) Ha) as (a1 & Hx & Ha1).
  cbn [for_each]. rewrite Hx. cbn [key_bind].
  apply IH; [done|]. intros a' y Hy. apply Hbody. by right.
Qed.

Lemma set_outgoing_road_known net iid d rid :
  is_Some (intersections net !! iid) →
  ∃ net', set_outgoing_road net iid d rid = inr net'
          ∧ _adjacency net' = _adjacency net
          ∧ ∀ k, is_Some (intersections net' !! k)
                 ↔ is_Some (intersections net !! k).
Proof.
  intros [i Hi]. unfold set_outgoing_road. rewrite Hi.
  eexists. split; [done|]. split; [done|]. intros k. cbn [intersections].
  destruct (decide (iid = k)) as [<-|Hne].
  - rewrite lookup_insert_eq, Hi. by split; eauto.
  - by rewrite lookup_insert_ne.
Qed.

Lemma set_incoming_road_known net iid d rid :
  is_Some (intersections net !! iid) →
  ∃ net', set_incoming_road net iid d rid = inr net'
          ∧ _adjacency net' = _adjacency net
          ∧ ∀ k, is_Some (intersections net' !! k)
                 ↔ is_Some (intersections net !! k).
Proof.
  intros [i Hi]. unfold set_incoming_road. rewrite Hi.
  eexists. split; [done|]. split; [done|]. intros k. cbn [intersections].
  destruct (decide (iid = k)) as [<-|Hne].
  - rewrite lookup_insert_eq, Hi. by split; eauto.
  - by rewrite lookup_insert_ne.
Qed.

Lemma lay_road_known net src dst heading suffix len :
  is_Some (intersections net !! src) →
  is_Some (intersections net !! dst) →
  ∃ net', lay_road net src dst heading suffix len = inr net'
          ∧ (∀ k, is_Some (intersections net' !! k)
                  ↔ is_Some (intersections net !! k))
          ∧ ∀ a, neighbors net' a
                 = neighbors net a ++ (if decide (src = a) then [dst] else []).
Proof.
  intros Hsrc Hdst. unfold lay_road.
  set (road := Road_post_init (mkRoad _ src dst len 1 [])).
  destruct (set_outgoing_road_known (add_road net road) src heading
              (road_id road) Hsrc) as (net1 & -> & Hadj1 & Hdom1).
  cbn [key_bind].
  destruct (set_incoming_road_known net1 dst (opposite heading)
              (road_id road)) as (net2 & -> & Hadj2 & Hdom2).
  { by apply Hdom1. }
  exists net2. split; [done|]. split.
  - intros k. by rewrite Hdom2, Hdom1.
  - intros a. unfold neighbors at 1. rewrite Hadj2, Hadj1.
    fold (neighbors (add_road net road) a). by rewrite neighbors_add_road.
Qed.

(** A street: the road from [x] to [y] and the road back. *)
Lemma lay_street net x y h1 s1 h2 s2 len :
  is_Some (intersections net !! x) →
  is_Some (intersections net !! y) →
  two_way net →
  ∃ net',
    key_bind (lay_road net x y h1 s1 len)
             (λ net, lay_road net y x h2 s2 len) = inr net'
    ∧ (∀ k, is_Some (intersections net' !! k)
            ↔ is_Some (intersections net !! k))
    ∧ two_way net'.
Proof.
  intros Hx Hy Htwo.
  destruct (lay_road_known net x y h1 s1 len Hx Hy) as (net1 & -> & Hdom1 & Hn1).
  cbn [key_bind].
  destruct (lay_road_known net1 y x h2 s2 len) as (net2 & -> & Hdom2 & Hn2);
    [by apply Hdom1 | by apply Hdom1 |].
  exists net2. split; [done|]. split.
  - intros k. by rewrite Hdom2, Hdom1.
  - intros a b. rewrite !Hn2, !Hn1, !elem_of_app.
    intros [[Hb|Hb]|Hb].
    + left. left. by apply Htwo.
    + destruct (decide (x = a)) as [<-|]; [|by apply elem_of_nil in Hb].
      apply list_elem_of_singleton in Hb as ->.
      right. rewrite decide_True by done. by left.
    + destruct (decide (y = a)) as [<-|]; [|by apply elem_of_nil in Hb].
      apply list_elem_of_singleton in Hb as ->.
      left. right. rewrite decide_True by done. by left.
Qed.

Lemma lay_roads_at_ready rows cols len net r c :
  r ∈ py_range rows → c ∈ py_range cols →
  grid_ready rows cols net →
  ∃ net', lay_roads_at rows cols len net r c = inr net'
          ∧ grid_ready rows cols net'.
Proof.
  intros Hr Hc [Hall Htwo]. unfold lay_roads_at.
  assert (Hsouth : ∃ net1,
            (if decide (r + 1 < rows) then
               key_bind (lay_road net (grid_id r c) (grid_id (r + 1) c)
                           SOUTH "-S" len)
                 (λ net, lay_road net (grid_id (r + 1) c) (grid_id r c)
                           NORTH "-N" len)
             else inr net) = inr net1
            ∧ grid_ready rows cols net1).
  { destruct (decide (r + 1 < rows)) as [Hlt|]; [|by exists net].
    destruct (lay_street net (grid_id r c) (grid_id (r + 1) c)
                SOUTH "-S" NORTH "-N" len) as (net1 & Hnet1 & Hdom & Htwo1);
      [by apply Hall | | done |].
    { apply Hall; [|done]. apply elem_of_py_range.
      apply elem_of_py_range in Hr. lia. }
    exists net1. split; [done|]. split; [|done].
    intros r' c' Hr' Hc'. apply Hdom. by apply Hall. }
  destruct Hsouth as (net1 & -> & [Hall1 Htwo1]). cbn [key_bind].
  destruct (decide (c + 1 < cols)) as [Hlt|]; [|by exists net1].
  destruct (lay_street net1 (grid_id r c) (grid_id r (c + 1))
              EAST "-E" WEST "-W" len) as (net2 & Hnet2 & Hdom & Htwo2);
    [by apply Hall1 | | done |].
  { apply Hall1; [done|]. apply elem_of_py_range.
    apply elem_of_py_range in Hc. lia. }
  exists net2. split; [done|]. split; [|done].
  intros r' c' Hr' Hc'. apply Hdom. by apply Hall1.
Qed.

Lemma add_row_intersections net (r : Z) (cs : list Z) :
  let net' := foldl (λ net c,
                add_intersection net (Intersection_init (grid_id r c) (r, c)))
                net cs in
  (∀ c, c ∈ cs → is_Some (intersections net' !! grid_id r c))
  ∧ (∀ k, is_Some (intersections net !! k) → is_Some (intersections net' !! k))
  ∧ ∀ a, neighbors net' a = neighbors net a.
Proof.
  revert net. induction cs as [|c cs IH]; intros net.
  - cbn. split; [by intros c ?%elem_of_nil|]. by split.
  - cbn [foldl]. cbn zeta in *.
    set (net1 := add_intersection net (Intersection_init (grid_id r c) (r, c))).
    destruct (IH net1) as (Hnew & Hold & Hnb).
    assert (Hkeep : ∀ k, is_Some (intersections net !! k) →
                         is_Some (intersections net1 !! k)).
    { intros k Hk. unfold net1, add_intersection. cbn [intersections].
      destruct (decide (intersection_id (Intersection_init (grid_id r c) (r, c))
                        = k)) as [<-|Hne].
      - rewrite lookup_insert_eq. by eexists.
      - by rewrite lookup_insert_ne. }
    split; [|split].
    + intros c' [->|Hc']%elem_of_cons; [|by apply Hnew].
      apply Hold. unfold net1, add_intersection. cbn [intersections].
      cbn [Intersection_init intersection_id].
      rewrite lookup_insert_eq. by eexists.
    + intros k Hk. by apply Hold, Hkeep.
    + intros a. rewrite Hnb. unfold net1.
      by rewrite neighbors_add_intersection.
Qed.

Lemma add_grid_intersections net (rs cs : list Z) :
  let net' := foldl (λ net r,
                foldl (λ net c,
                  add_intersection net (Intersection_init (grid_id r c) (r, c)))
                  net cs) net rs in
  (∀ r c, r ∈ rs → c ∈ cs → is_Some (intersections net' !! grid_id r c))
  ∧ (∀ k, is_Some (intersections net !! k) → is_Some (intersections net' !! k))
  ∧ ∀ a, neighbors net' a = neighbors net a.
Proof.
  revert net. induction rs as [|r rs IH]; intros net.
  - cbn. split; [by intros r c ?%elem_of_nil|]. by split.
  - cbn [foldl]. cbn zeta in *.
    destruct (add_row_intersections net r cs) as (Hrow & Hkeep & Hnb1).
    cbn zeta in *.
    set (net1 := foldl _ net cs) in *.
    destruct (IH net1) as (Hnew & Hold & Hnb).
    split; [|split].
    + intros r' c' [->|Hr']%elem_of_cons Hc'; [|by apply Hnew].
      by apply Hold, Hrow.
    + intros k Hk. by apply Hold, Hkeep.
    + intros a. by rewrite Hnb, Hnb1.
Qed.

Lemma create_grid_ready rows cols len :
  ∃ net, create_grid rows cols len = inr net ∧ grid_ready rows cols net.
Proof.
  unfold create_grid.
  destruct (add_grid_intersections empty_network (py_range rows)
              (py_range cols)) as (Hall & _ & Hnb).
  cbn zeta in *. set (net0 := foldl _ empty_network (py_range rows)) in *.
  apply (for_each_inv (grid_ready rows cols)).
  - split; [done|]. intros a b. rewrite !Hnb.
    unfold neighbors, empty_network. cbn [_adjacency].
    rewrite !lookup_empty. by intros ?%elem_of_nil.
  - intros net r Hr Hready.
    apply (for_each_inv (grid_ready rows cols)); [done|].
    intros net' c Hc Hready'. by apply lay_roads_at_ready.
Qed.

Lemma for_each_nothing {A B : Type} (a : A) (l : list B) :
  for_each (λ a _, inr a) a l = inr a.
Proof. induction l as [|x l IH]; [done|]. cbn [for_each key_bind]. apply IH. Qed.

Lemma foldl_nothing {A B : Type} (a : A) (l : list B) :
  foldl (λ a _, a) a l = a.
Proof. by induction l. Qed.

(** X24. [create_grid] returns for every size and road length: its dict
    subscripts never raise KeyError. The network has an intersection under
    the name of every grid position, every street of it can be driven both
    ways, and with no rows or no columns it is the empty network. *)
Theorem create_grid_returns rows cols len :
  ∃ net,
    create_grid rows cols len = inr net
    ∧ (∀ r c, 0 ≤ r < rows → 0 ≤ c < cols →
              is_Some (intersections net !! grid_id r c))
    ∧ two_way net
    ∧ (rows ≤ 0 ∨ cols ≤ 0 → net = empty_network).
Proof.
  destruct (create_grid_ready rows cols len) as (net & Hnet & Hall & Htwo).
  exists net. split; [done|]. split; [|split; [done|]].
  - intros r c Hr Hc. apply Hall; by apply elem_of_py_range.
  - intros Hdeg.
    assert (Hempty : create_grid rows cols len = inr empty_network);
      [|rewrite Hempty in Hnet; by injection Hnet].
    unfold create_grid. destruct Hdeg as [Hrows|Hcols].
    + assert (py_range rows = []) as ->
        by (unfold py_range; by rewrite Z2Nat.nonpos by done).
      done.
    + assert (py_range cols = []) as ->
        by (unfold py_range; by rewrite Z2Nat.nonpos by done).
      cbn [foldl for_each]. by rewrite foldl_nothing, for_each_nothing.
Qed.

(** A grid of one row. *)
Lemma create_grid_returns_witness :
  ∃ net,
    create_grid 1 3 2 = inr net
    ∧ is_Some (intersections net !! grid_id 0 2)
    ∧ two_way net.
Proof.
  destruct (create_grid_returns 1 3 2) as (net & Hnet & Hall & Htwo & _).
  exists net. split; [exact Hnet|]. split; [|exact Htwo].
  apply Hall; lia.
Defined.

Lemma is_walk_reverse net (p : list IntersectionId) :
  two_way net → is_walk net p → is_walk net (reverse p).
Proof.
  intros Htwo. induction p as [|a p IH]; [done|].
  destruct p as [|b p]; [done|].
  intros [Hab Hw]%is_walk_cons2. rewrite reverse_cons.
  apply is_walk_snoc with b; [by apply IH | | by apply Htwo].
  by rewrite last_reverse.
Qed.

Lemma path_between_reverse net a b (p : list IntersectionId) :
  two_way net → path_between net a b p → path_between net b a (reverse p).
Proof.
  intros Htwo (Hhd & Hlast & Hw). split; [by rewrite head_reverse|].
  split; [by rewrite last_reverse | by apply is_walk_reverse].
Qed.

Lemma two_way_route_back net a b p :
  two_way net → shortest_path net a b = Some (Ok p) →
  ∃ q, shortest_path net b a = Some (Ok q) ∧ length q = length p.
Proof.
  intros Htwo Hp.
  destruct (shortest_path_spec net a b) as (p' & Hp' & Hspec).
  replace p' with p in * by congruence. clear Hp'.
  destruct (shortest_path_spec net b a) as (q & Hq & Hqspec).
  exists q. split; [done|].
  destruct Hspec as [[-> Hnone]|[Hpath Hmin]],
           Hqspec as [[-> Hqnone]|[Hqpath Hqmin]].
  - done.
  - destruct (Hnone (reverse q)). by apply path_between_reverse.
  - destruct (Hqnone (reverse p)). by apply path_between_reverse.
  - pose proof (Hmin _ (path_between_reverse _ _ _ _ Htwo Hqpath)) as H1.
    pose proof (Hqmin _ (path_between_reverse _ _ _ _ Htwo Hpath)) as H2.
    rewrite length_reverse in H1, H2. lia.
Qed.

(** X25. On every network that [create_grid] builds, the way back is as
    long as the way there: if [shortest_path] returns a path from [a] to
    [b], it returns a path of the same number of intersections from [b] to
    [a], and none where there was none. *)
Theorem grid_route_back rows cols len net a b p :
  create_grid rows cols len = inr net →
  shortest_path net a b = Some (Ok p) →
  ∃ q, shortest_path net b a = Some (Ok q) ∧ length q = length p.
Proof.
  intros Hnet Hp.
  destruct (create_grid_ready rows cols len) as (net' & Hnet' & _ & Htwo).
  replace net' with net in * by congruence.
  by apply two_way_route_back.
Qed.

(** Across the grid of two rows and two columns, and back. *)
Lemma grid_route_back_witness :
  ∃ net q,
    create_grid 2 2 3 = inr net
    ∧ shortest_path net "I-0-0" "I-1-1" = Some (Ok ["I-0-0"; "I-1-0"; "I-1-1"])
    ∧ shortest_path net "I-1-1" "I-0-0" = Some (Ok q)
    ∧ length q = 3%nat.
Proof.
  destruct (create_grid 2 2 3) as [e|net] eqn:Hnet;
    [by vm_compute in Hnet|].
  assert (Hp : shortest_path net "I-0-0" "I-1-1"
               = Some (Ok ["I-0-0"; "I-1-0"; "I-1-1"])).
  { vm_compute in Hnet. injection Hnet as <-. vm_compute. reflexivity. }
  destruct (grid_route_back 2 2 3 net "I-0-0" "I-1-1" _ Hnet Hp)
    as (q & Hq & Hlen).
  exists net, q. split; [reflexivity|]. split; [exact Hp|].
  split; [exact Hq | exact Hlen].
Defined.

(** ** Names of grid positions *)

Lemma pretty_N_go_no_dash (x : N) (s : string) :
  no_dash s → no_dash (pretty_N_go x s).
Proof.
  revert s. induction (N.lt_wf_0 x) as [x _ IH]. intros s Hs.
  destruct (decide (x = 0)%N) as [->|Hx]; [by rewrite pretty_N_go_0|].
  rewrite pretty_N_go_step by lia.
  apply IH; [apply N.div_lt; lia|].
  split; [|done]. unfold pretty_N_char. by repeat case_match.
Qed.

Lemma pretty_Z_no_dash (r : Z) : 0 ≤ r → no_dash (pretty r).
Proof.
  intros Hr. destruct r as [|p|p]; [by split| |lia].
  unfold pretty, pretty_Z, pretty, pretty_positive, pretty, pretty_N.
  rewrite decide_False by done. by apply pretty_N_go_no_dash.
Qed.

Lemma dash_split (s1 s2 t1 t2 : string) :
  no_dash s1 → no_dash s2 →
  s1 +:+ String "-" t1 = s2 +:+ String "-" t2 → s1 = s2 ∧ t1 = t2.
Proof.
  revert s2. induction s1 as [|ch s1 IH]; intros [|ch2 s2]; cbn.
  - intros _ _ [= ->]. done.
  - intros _ [Hch _] [= <- _]. done.
  - intros [Hch _] _ [= -> _]. done.
  - intros [_ H1] [_ H2] [= -> Heq]. by destruct (IH _ H1 H2 Heq) as [-> ->].
Qed.

Lemma grid_id_inj (r c r' c' : Z) :
  0 ≤ r → 0 ≤ r' → grid_id r c = grid_id r' c' → r = r' ∧ c = c'.
Proof.
  intros Hr Hr'. unfold grid_id. cbn. intros [= Heq].
  apply dash_split in Heq as [H1 H2]; [|by apply pretty_Z_no_dash..].
  by apply (inj pretty) in H1, H2.
Qed.

(** ** The streets of a grid *)

Lemma streets_laid_equiv rows cols net0 (L L' : IntersectionId → IntersectionId → Prop) net :
  (∀ a b, L a b ↔ L' a b) →
  streets_laid rows cols net0 L net → streets_laid rows cols net0 L' net.
Proof.
  intros Heq [Hall Hnb]. split; [done|]. intros a b. by rewrite Hnb, Heq.
Qed.

Lemma lay_street_laid net x y h1 s1 h2 s2 len :
  is_Some (intersections net !! x) →
  is_Some (intersections net !! y) →
  ∃ net',
    key_bind (lay_road net x y h1 s1 len)
             (λ net, lay_road net y x h2 s2 len) = inr net'
    ∧ (∀ k, is_Some (intersections net' !! k)
            ↔ is_Some (intersections net !! k))
    ∧ ∀ a b, b ∈ neighbors net' a
             ↔ b ∈ neighbors net a ∨ (a = x ∧ b = y) ∨ (a = y ∧ b = x).
Proof.
  intros Hx Hy.
  destruct (lay_road_known net x y h1 s1 len Hx Hy) as (net1 & -> & Hdom1 & Hn1).
  cbn [key_bind].
  destruct (lay_road_known net1 y x h2 s2 len) as (net2 & -> & Hdom2 & Hn2);
    [by apply Hdom1 | by apply Hdom1 |].
  exists net2. split; [done|]. split.
  - intros k. by rewrite Hdom2, Hdom1.
  - intros a b. rewrite Hn2, Hn1, !elem_of_app.
    destruct (decide (x = a)) as [Hxa|Hxa], (decide (y = a)) as [Hya|Hya];
      rewrite ?list_elem_of_singleton, ?elem_of_nil; naive_solver.
Qed.

Lemma lay_roads_at_laid rows cols len net0 L net r c :
  r ∈ py_range rows → c ∈ py_range cols →
  streets_laid rows cols net0 L net →
  ∃ net', lay_roads_at rows cols len net r c = inr net'
          ∧ streets_laid rows cols net0
              (λ a b, L a b ∨ street_at rows cols r c a b) net'.
Proof.
  intros Hr Hc [Hall Hnb]. unfold lay_roads_at, street_at.
  pose proof (proj1 (elem_of_py_range _ _) Hr) as Hr'.
  pose proof (proj1 (elem_of_py_range _ _) Hc) as Hc'.
  assert (Hsouth : ∃ net1,
            (if decide (r + 1 < rows) then
               key_bind (lay_road net (grid_id r c) (grid_id (r + 1) c)
                           SOUTH "-S" len)
                 (λ net, lay_road net (grid_id (r + 1) c) (grid_id r c)
                           NORTH "-N" len)
             else inr net) = inr net1
            ∧ (∀ k, is_Some (intersections net1 !! k)
                    ↔ is_Some (intersections net !! k))
            ∧ ∀ a b, b ∈ neighbors net1 a
                     ↔ b ∈ neighbors net a
                       ∨ (r + 1 < rows
                          ∧ ((a = grid_id r c ∧ b = grid_id (r + 1) c)
                             ∨ (a = grid_id (r + 1) c ∧ b = grid_id r c)))).
  { destruct (decide (r + 1 < rows)) as [Hlt|Hge].
    - destruct (lay_street_laid net (grid_id r c) (grid_id (r + 1) c)
                  SOUTH "-S" NORTH "-N" len) as (net1 & Hnet1 & Hdom & Hn);
        [by apply Hall | apply Hall; [apply elem_of_py_range; lia | done] |].
      exists net1. split; [done|]. split; [done|].
      intros a b. rewrite Hn. naive_solver.
    - exists net. split; [done|]. split; [done|]. naive_solver. }
  destruct Hsouth as (net1 & -> & Hdom1 & Hn1). cbn [key_bind].
  destruct (decide (c + 1 < cols)) as [Hlt|Hge].
  - destruct (lay_street_laid net1 (grid_id r c) (grid_id r (c + 1))
                EAST "-E" WEST "-W" len) as (net2 & Hnet2 & Hdom & Hn);
      [apply Hdom1; by apply Hall
      |apply Hdom1, Hall; [done | apply elem_of_py_range; lia] |].
    exists net2. split; [done|]. split.
    + intros r0 c0 ? ?. by apply Hdom, Hdom1, Hall.
    + intros a b. rewrite Hn, Hn1, Hnb. naive_solver.
  - exists net1. split; [done|]. split.
    + intros r0 c0 ? ?. by apply Hdom1, Hall.
    + intros a b. rewrite Hn1, Hnb. naive_solver.
Qed.

Lemma for_each_laid {B : Type} rows cols net0
    (S : B → IntersectionId → IntersectionId → Prop)
    (body : RoadNetwork → B → key_error + RoadNetwork) (l : list B) :
  (∀ L net x, x ∈ l → streets_laid rows cols net0 L net →
     ∃ net', body net x = inr net'
             ∧ streets_laid rows cols net0 (λ a b, L a b ∨ S x a b) net') →
  ∀ L net, streets_laid rows cols net0 L net →
    ∃ net', for_each body net l = inr net'
            ∧ streets_laid rows cols net0
                (λ a b, L a b ∨ ∃ x, x ∈ l ∧ S x a b) net'.
Proof.
  induction l as [|x l IH]; intros Hbody L net Hnet.
  - exists net. split; [done|].
    apply (streets_laid_equiv _ _ _ L); [|done].
    intros a b. split; [by left|]. intros [?|(x & ?%elem_of_nil & _)]; done.
  - destruct (Hbody L net x ltac:(by left) Hnet) as (net1 & Hx & Hnet1).
    cbn [for_each]. rewrite Hx. cbn [key_bind].
    destruct (IH (λ L net y Hy, Hbody L net y ltac:(by right)) _ _ Hnet1)
      as (net2 & Hrest & Hnet2).
    exists net2. split; [done|].
    eapply streets_laid_equiv; [|exact Hnet2].
    intros a b. cbn beta. split.
    + intros [[?|?]|(y & Hy & ?)]; [by left | |].
      * right. exists x. split; [by left | done].
      * right. exists y. split; [by right | done].
    + intros [?|(y & [->|Hy]%elem_of_cons & ?)].
      * by left; left.
      * by left; right.
      * right. by exists y.
Qed.

Lemma create_grid_neighbors rows cols len net :
  create_grid rows cols len = inr net →
  ∀ a b, b ∈ neighbors net a
         ↔ ∃ r c, 0 ≤ r < rows ∧ 0 ≤ c < cols ∧ street_at rows cols r c a b.
Proof.
  unfold create_grid.
  destruct (add_grid_intersections empty_network (py_range rows)
              (py_range cols)) as (Hall & _ & Hnb).
  cbn zeta in *. set (net0 := foldl _ empty_network (py_range rows)) in *.
  intros Hnet.
  assert (Hstart : streets_laid rows cols net0 (λ _ _, False) net0).
  { split; [done|]. naive_solver. }
  destruct (for_each_laid rows cols net0
              (λ r a b, ∃ c, c ∈ py_range cols ∧ street_at rows cols r c a b)
              (λ net r, for_each
                 (λ net c, lay_roads_at rows cols len net r c)
                 net (py_range cols))
              (py_range rows)) with (L := λ _ _ : IntersectionId, False)
              (net := net0) as (net' & Hnet' & _ & Hchar); [|done|].
  { intros L net1 r Hr Hnet1.
    apply (for_each_laid rows cols net0 (λ c, street_at rows cols r c));
      [|done].
    intros L' net2 c Hc Hnet2. by apply lay_roads_at_laid. }
  rewrite Hnet' in Hnet. injection Hnet as <-.
  intros a b. rewrite Hchar, Hnb.
  assert (Hnone : neighbors empty_network a = []).
  { unfold neighbors, empty_network. cbn [_adjacency].
    by rewrite lookup_empty. }
  rewrite Hnone. split.
  - intros [Hb|[[]|(r & Hr & c & Hc & Hst)]]; [by apply elem_of_nil in Hb|].
    exists r, c. by rewrite <- !elem_of_py_range.
  - intros (r & c & Hr & Hc & Hst). right. right.
    exists r. split; [by apply elem_of_py_range|].
    exists c. split; [by apply elem_of_py_range | done].
Qed.

Lemma grid_step rows cols len net r c b :
  create_grid rows cols len = inr net →
  0 ≤ r →
  b ∈ neighbors net (grid_id r c) →
  ∃ r' c', 0 ≤ r' < rows ∧ 0 ≤ c' < cols
           ∧ Z.abs (r - r') + Z.abs (c - c') = 1
           ∧ b = grid_id r' c'.
Proof.
  intros Hnet Hr Hb.
  apply (create_grid_neighbors _ _ _ _ Hnet) in Hb
    as (r0 & c0 & Hr0 & Hc0 & [[Hlt [[Ha ->]|[Ha ->]]]|[Hlt [[Ha ->]|[Ha ->]]]]);
    apply grid_id_inj in Ha as [-> ->]; try lia.
  - exists (r0 + 1), c0. repeat split; lia.
  - exists r0, c0. repeat split; lia.
  - exists r0, (c0 + 1). repeat split; lia.
  - exists r0, c0. repeat split; lia.
Qed.

Lemma grid_step_to rows cols len net r c r' c' :
  create_grid rows cols len = inr net →
  0 ≤ r < rows → 0 ≤ c < cols → 0 ≤ r' < rows → 0 ≤ c' < cols →
  Z.abs (r - r') + Z.abs (c - c') = 1 →
  grid_id r' c' ∈ neighbors net (grid_id r c).
Proof.
  intros Hnet Hr Hc Hr' Hc' Hadj.
  apply (create_grid_neighbors _ _ _ _ Hnet).
  assert ((r' = r + 1 ∧ c' = c) ∨ (r = r' + 1 ∧ c' = c)
          ∨ (r' = r ∧ c' = c + 1) ∨ (r' = r ∧ c = c' + 1))
    as [[-> ->]|[[-> ->]|[[-> ->]|[-> ->]]]] by lia.
  - exists r, c. split; [done|]. split; [done|]. left. split; [lia|]. by left.
  - exists r', c. split; [done|]. split; [done|]. left. split; [lia|]. by right.
  - exists r, c. split; [done|]. split; [done|]. right. split; [lia|]. by left.
  - exists r, c'. split; [done|]. split; [done|]. right. split; [lia|]. by right.
Qed.

(** X26. In the network [create_grid] builds, the neighbours of the
    intersection at grid position [(r, c)] are exactly the intersections at
    the grid positions one step north, south, west or east of it. *)
Theorem grid_neighbors rows cols len net r c b :
  create_grid rows cols len = inr net →
  0 ≤ r < rows → 0 ≤ c < cols →
  b ∈ neighbors net (grid_id r c)
  ↔ ∃ r' c', 0 ≤ r' < rows ∧ 0 ≤ c' < cols
             ∧ Z.abs (r - r') + Z.abs (c - c') = 1
             ∧ b = grid_id r' c'.
Proof.
  intros Hnet Hr Hc. split.
  - apply (grid_step rows cols len); [done | lia].
  - intros (r' & c' & Hr' & Hc' & Hadj & ->).
    by apply (grid_step_to rows cols len).
Qed.

(** The middle of a grid of three rows and three columns. *)
Lemma grid_neighbors_witness :
  ∃ net,
    create_grid 3 3 1 = inr net
    ∧ grid_id 1 2 ∈ neighbors net (grid_id 1 1).
Proof.
  destruct (create_grid 3 3 1) as [e|net] eqn:Hnet; [by vm_compute in Hnet|].
  exists net. split; [reflexivity|].
  apply (proj2 (grid_neighbors 3 3 1 net 1 1 (grid_id 1 2) Hnet
                  ltac:(lia) ltac:(lia))).
  exists 1, 2. repeat split; lia.
Defined.

Lemma path_of_hops net a (k : nat) b :
  hops net a k b → ∃ p, path_between net a b p ∧ length p = S k.
Proof.
  induction 1 as [|k y x _ (p & (Hhd & Hlast & Hw) & Hlen) Hx].
  - by exists [a].
  - exists (p ++ [x]). split.
    + split; [by destruct p|]. split; [apply last_snoc|].
      by apply is_walk_snoc with y.
    + rewrite length_app. simpl. lia.
Qed.

Lemma grid_hops_far rows cols len net r c (k : nat) x :
  create_grid rows cols len = inr net →
  0 ≤ r < rows → 0 ≤ c < cols →
  hops net (grid_id r c) k x →
  ∃ r' c', 0 ≤ r' < rows ∧ 0 ≤ c' < cols ∧ x = grid_id r' c'
           ∧ Z.abs (r - r') + Z.abs (c - c') ≤ Z.of_nat k.
Proof.
  intros Hnet Hr Hc. induction 1 as [|k y x _ IH Hx].
  - exists r, c. repeat split; lia.
  - destruct IH as (r1 & c1 & Hr1 & Hc1 & -> & Hd).
    apply (grid_step rows cols len) in Hx
      as (r2 & c2 & Hr2 & Hc2 & Hadj & ->); [|done|lia].
    exists r2, c2. repeat split; lia.
Qed.

Lemma grid_hops_near rows cols len net r c (n : nat) :
  create_grid rows cols len = inr net →
  0 ≤ r < rows → 0 ≤ c < cols →
  ∀ r' c', 0 ≤ r' < rows → 0 ≤ c' < cols →
    Z.abs (r - r') + Z.abs (c - c') = Z.of_nat n →
    hops net (grid_id r c) n (grid_id r' c').
Proof.
  intros Hnet Hr Hc. induction n as [|n IH]; intros r' c' Hr' Hc' Hd.
  - assert (r' = r) as -> by lia. assert (c' = c) as -> by lia.
    apply hops_here.
  - assert (∃ r1 c1, 0 ≤ r1 < rows ∧ 0 ≤ c1 < cols
              ∧ Z.abs (r - r1) + Z.abs (c - c1) = Z.of_nat n
              ∧ Z.abs (r1 - r') + Z.abs (c1 - c') = 1)
      as (r1 & c1 & Hr1 & Hc1 & Hd1 & Hadj).
    { destruct (decide (r' = r)) as [->|Hne].
      - destruct (decide (c < c')).
        + exists r, (c' - 1). repeat split; lia.
        + exists r, (c' + 1). repeat split; lia.
      - destruct (decide (r < r')).
        + exists (r' - 1), c'. repeat split; lia.
        + exists (r' + 1), c'. repeat split; lia. }
    apply hops_next with (grid_id r1 c1); [by apply IH|].
    by apply (grid_step_to rows cols len).
Qed.

(** X27. On the network [create_grid] builds, [shortest_path] between the
    intersections at two grid positions returns a path with one
    intersection more than their distance in rows plus their distance in
    columns. *)
Theorem grid_shortest_path_manhattan rows cols len net r c r' c' :
  create_grid rows cols len = inr net →
  0 ≤ r < rows → 0 ≤ c < cols → 0 ≤ r' < rows → 0 ≤ c' < cols →
  ∃ p,
    shortest_path net (grid_id r c) (grid_id r' c') = Some (Ok p)
    ∧ Z.of_nat (length p) = Z.abs (r - r') + Z.abs (c - c') + 1.
Proof.
  intros Hnet Hr Hc Hr' Hc'.
  pose proof (grid_hops_near rows cols len net r c
                (Z.to_nat (Z.abs (r - r') + Z.abs (c - c')))
                Hnet Hr Hc r' c' Hr' Hc' ltac:(lia)) as Hnear.
  apply path_of_hops in Hnear as (p0 & Hp0 & Hlen0).
  destruct (shortest_path_some _ _ _ _ Hp0) as (p & Hp & Hpath & Hmin).
  exists p. split; [done|].
  specialize (Hmin _ Hp0).
  assert (length p ≠ 0%nat) as Hne by (by destruct Hpath as [? _], p).
  apply hops_of_path in Hpath.
  apply (grid_hops_far rows cols len) in Hpath
    as (r2 & c2 & Hr2 & Hc2 & Heq & Hd); [|done..].
  apply grid_id_inj in Heq as [<- <-]; lia.
Qed.

(** Corner to corner on a grid of three rows and four columns. *)
Lemma grid_shortest_path_manhattan_witness :
  ∃ net p,
    create_grid 3 4 2 = inr net
    ∧ shortest_path net (grid_id 0 0) (grid_id 2 3) = Some (Ok p)
    ∧ Z.of_nat (length p) = 6.
Proof.
  destruct (create_grid 3 4 2) as [e|net] eqn:Hnet; [by vm_compute in Hnet|].
  destruct (grid_shortest_path_manhattan 3 4 2 net 0 0 2 3 Hnet
              ltac:(lia) ltac:(lia) ltac:(lia) ltac:(lia)) as (p & Hp & Hlen).
  exists net, p. split; [reflexivity|]. split; [exact Hp | exact Hlen].
Defined.
